(** * PowerOnBot: change detection and notification of outage schedules

    A shallow embedding of the TypeScript bot (the variant with the
    "Tomorrow" tracking) and the properties of its specification.

    JavaScript strings are sequences of UTF-16 code units; the bot's texts
    are Cyrillic, and [String.prototype.trim] and the regular expression
    class [\s] range over Unicode white space, so a string is modelled as
    the list of its code units ([list N]).  String literals of the source
    are written as UTF-8 Rocq strings and converted by [js]. *)

From Stdlib Require Import NArith Ascii String.
From Stdlib Require DecimalPos DecimalN.
From stdpp Require Import base option list gmap.

Local Open Scope N_scope.

(** ** JavaScript strings *)

Abbreviation jsstring := (list N).

Module JsStr.

(** UTF-8 bytes to UTF-16 code units (4-byte sequences become surrogate
    pairs).  Only used to write the literals of the source. *)
Fixpoint utf16_of_utf8 (bs : list N) : jsstring :=
  match bs with
  | [] => []
  | b0 :: r0 =>
    if b0 <? 128 then b0 :: utf16_of_utf8 r0
    else match r0 with
    | [] => []
    | b1 :: r1 =>
      if b0 <? 224 then
        N.lor (N.shiftl (N.land b0 31) 6) (N.land b1 63) :: utf16_of_utf8 r1
      else match r1 with
      | [] => []
      | b2 :: r2 =>
        if b0 <? 240 then
          N.lor (N.shiftl (N.land b0 15) 12)
                (N.lor (N.shiftl (N.land b1 63) 6) (N.land b2 63))
            :: utf16_of_utf8 r2
        else match r2 with
        | [] => []
        | b3 :: r3 =>
          let cp := N.lor (N.shiftl (N.land b0 7) 18)
                   (N.lor (N.shiftl (N.land b1 63) 12)
                   (N.lor (N.shiftl (N.land b2 63) 6) (N.land b3 63))) in
          let v := cp - 65536 in
          (55296 + N.shiftr v 10) :: (56320 + N.land v 1023)
            :: utf16_of_utf8 r3
        end
      end
    end
  end.

Fixpoint bytes_of_string (s : string) : list N :=
  match s with
  | EmptyString => []
  | String a r => N_of_ascii a :: bytes_of_string r
  end.

Definition js (s : string) : jsstring := utf16_of_utf8 (bytes_of_string s).

Definition LF : N := 10.
Definition CR : N := 13.

(** White space and line terminators of ECMAScript: the characters removed
    by [trim] and matched by [\s]. *)
Definition is_ws (c : N) : bool :=
  (c =? 9) || (c =? 10) || (c =? 11) || (c =? 12) || (c =? 13) || (c =? 32)
  || (c =? 160) || (c =? 5760) || ((8192 <=? c) && (c <=? 8202))
  || (c =? 8232) || (c =? 8233) || (c =? 8239) || (c =? 8287)
  || (c =? 12288) || (c =? 65279).

(** [\d] (without the unicode flag): ASCII digits only. *)
Definition is_digit (c : N) : bool := (48 <=? c) && (c <=? 57).

Definition jseq (a b : jsstring) : bool := bool_decide (a = b).

Fixpoint trim_start (s : jsstring) : jsstring :=
  match s with
  | [] => []
  | c :: r => if is_ws c then trim_start r else s
  end.

Fixpoint trim_end (s : jsstring) : jsstring :=
  match s with
  | [] => []
  | c :: r =>
    match trim_end r with
    | [] => if is_ws c then [] else [c]
    | r' => c :: r'
    end
  end.

(** [s.trim()] *)
Definition trim (s : jsstring) : jsstring := trim_end (trim_start s).

(** [s.split(sep)] for a one-character separator: never the empty array. *)
Fixpoint split (sep : N) (s : jsstring) : list jsstring :=
  match s with
  | [] => [[]]
  | c :: r =>
    if c =? sep then [] :: split sep r
    else match split sep r with
         | [] => [[c]]
         | l :: ls => (c :: l) :: ls
         end
  end.

(** [a.join(sep)] for a one-character separator. *)
Fixpoint join (sep : N) (ls : list jsstring) : jsstring :=
  match ls with
  | [] => []
  | [l] => l
  | l :: rest => l ++ sep :: join sep rest
  end.

(** [s.replace(/\r\n/g, '\n')] *)
Fixpoint replace_crlf (s : jsstring) : jsstring :=
  match s with
  | [] => []
  | c :: r =>
    match r with
    | d :: r' =>
      if (c =? CR) && (d =? LF) then LF :: replace_crlf r'
      else c :: replace_crlf r
    | [] => [c]
    end
  end.

Definition nonempty (l : jsstring) : bool :=
  match l with [] => false | _ => true end.

(** [a.slice(0, n)] *)
Definition slice0 {A} (n : nat) (l : list A) : list A := take n l.

End JsStr.
Import JsStr.

(** ** Text normalisation *)

(** The lines kept by [normalizeMultilineText]: split, trim, drop blanks. *)
Definition normalizedLines (raw : jsstring) : list jsstring :=
  filter (fun l => nonempty l) (map trim (split LF (replace_crlf raw))).

Definition normalizeMultilineText (raw : jsstring) : jsstring :=
  trim (join LF (normalizedLines raw)).


(** ** Subgroup identifiers *)

Definition POSSIBLE_GROUPS : list jsstring := Eval vm_compute in
  map js ["1.1"; "1.2"; "2.1"; "2.2"; "3.1"; "3.2";
          "4.1"; "4.2"; "5.1"; "5.2"; "6.1"; "6.2"]%string.

Definition DOT : N := 46.
Definition COMMA : N := 44.

(** The character class [[.,]]. *)
Definition is_sep (c : N) : bool := (c =? DOT) || (c =? COMMA).

(** Longest prefix of characters satisfying [p], and the rest: what a greedy
    [\d+] or [\s+] consumes.  In the patterns of this program the character
    after such a run must lie outside the class of the run, so giving back
    characters can never help and the greedy split is the only candidate. *)
Fixpoint span (p : N -> bool) (s : jsstring) : jsstring * jsstring :=
  match s with
  | [] => ([], [])
  | c :: r => if p c then let '(a, b) := span p r in (c :: a, b) else ([], s)
  end.

(** [Number(ds)] for a string of ASCII digits. *)
Definition NumberOfDigits (ds : jsstring) : N :=
  fold_left (fun acc c => 10 * acc + (c - 48)) ds 0.

Fixpoint digits_of_uint (u : Decimal.uint) : jsstring :=
  match u with
  | Decimal.Nil => []
  | Decimal.D0 r => 48 :: digits_of_uint r
  | Decimal.D1 r => 49 :: digits_of_uint r
  | Decimal.D2 r => 50 :: digits_of_uint r
  | Decimal.D3 r => 51 :: digits_of_uint r
  | Decimal.D4 r => 52 :: digits_of_uint r
  | Decimal.D5 r => 53 :: digits_of_uint r
  | Decimal.D6 r => 54 :: digits_of_uint r
  | Decimal.D7 r => 55 :: digits_of_uint r
  | Decimal.D8 r => 56 :: digits_of_uint r
  | Decimal.D9 r => 57 :: digits_of_uint r
  end.

(** The template conversion [`${n}`] of a number that came from [Number] of a
    digit string.  Below 2^53 the value is exact and printed in decimal.  A
    longer digit run is rounded to a double by JavaScript and printed either
    with at least 16 digits or in exponent form; it is printed here in full
    decimal.  Either way the text has more than one character, so it is
    never part of a valid subgroup id. *)
Definition NumberToString (n : N) : jsstring := digits_of_uint (N.to_uint n).

(** [s.match(/^(\d+)[.,](\d+)$/)]: the two captures. *)
Definition matchGroupId (s : jsstring) : option (jsstring * jsstring) :=
  let '(d1, r1) := span is_digit s in
  match d1, r1 with
  | _ :: _, c :: r2 =>
    if is_sep c then
      let '(d2, r3) := span is_digit r2 in
      match d2, r3 with
      | _ :: _, [] => Some (d1, d2)
      | _, _ => None
      end
    else None
  | _, _ => None
  end.

Definition normalizeGroupId (raw : jsstring) : option jsstring :=
  let s := trim raw in
  if negb (nonempty s) then None
  else match matchGroupId s with
       | None => None
       | Some (m1, m2) =>
         Some (NumberToString (NumberOfDigits m1) ++ DOT
               :: NumberToString (NumberOfDigits m2))
       end.

(** One attempt of [/(\d+)[.,](\d+)/] at the start of [s]: the two captures
    and the length of the match. *)
Definition matchGroupToken (s : jsstring) : option (jsstring * jsstring * nat) :=
  let '(d1, r1) := span is_digit s in
  match d1, r1 with
  | _ :: _, c :: r2 =>
    if is_sep c then
      let '(d2, _) := span is_digit r2 in
      match d2 with
      | _ :: _ => Some (d1, d2, (length d1 + 1 + length d2)%nat)
      | [] => None
      end
    else None
  | _, _ => None
  end.

(** [out.includes(g)] *)
Definition includes (out : list jsstring) (g : jsstring) : bool :=
  bool_decide (g ∈ out).

(** The loop [while ((m = re.exec(raw)) !== null)] of
    [parseGroupsFromUserInput].  [s] is the input from the current position
    on; [skip] is the distance to [re.lastIndex] (positions inside the
    previous match are not tried); at every other position the pattern is
    tried, so each match is the leftmost one after the previous match. *)
Fixpoint execLoop (s : jsstring) (skip : nat) (out : list jsstring)
  : list jsstring :=
  match s with
  | [] => out
  | _ :: r =>
    match skip with
    | S k => execLoop r k out
    | O =>
      match matchGroupToken s with
      | None => execLoop r O out
      | Some (m1, m2, len) =>
        let out' :=
          match normalizeGroupId (m1 ++ DOT :: m2) with
          | Some g => if includes out g then out else out ++ [g]
          | None => out
          end in
        execLoop r (pred len) out'
      end
    end
  end.

Definition parseGroupsFromUserInput (raw : jsstring) : list jsstring :=
  filter (fun g => g ∈ POSSIBLE_GROUPS) (execLoop raw O []).

(** ** Schedule lines *)

Definition GRUPA : jsstring := Eval vm_compute in js "Група".

(** Canonicalisation of the [i] flag on the letters of the pattern: a basic
    Cyrillic small letter (U+0430..U+044F) is compared as its capital.  No
    other code unit has one of the capitals of "Група" as its upper case. *)
Definition upper_cyr (c : N) : N :=
  if (1072 <=? c) && (c <=? 1103) then c - 32 else c.

(** Match a literal, ignoring case, at the start of [s]; gives the rest. *)
Fixpoint strip_ci (lit s : jsstring) : option jsstring :=
  match lit with
  | [] => Some s
  | p :: lit' =>
    match s with
    | [] => None
    | c :: r => if upper_cyr c =? upper_cyr p then strip_ci lit' r else None
    end
  end.

(** One attempt of [Група\s+\d+SEP\d+\.] at the start of [s], where [sep]
    is the class allowed between the two numbers; gives the two numbers. *)
Definition matchGroupLineAt (sep : N -> bool) (s : jsstring)
  : option (jsstring * jsstring) :=
  match strip_ci GRUPA s with
  | None => None
  | Some r0 =>
    let '(ws, r1) := span is_ws r0 in
    let '(d1, r2) := span is_digit r1 in
    match ws, d1, r2 with
    | _ :: _, _ :: _, c :: r3 =>
      if sep c then
        let '(d2, r4) := span is_digit r3 in
        match d2, r4 with
        | _ :: _, c' :: _ => if c' =? DOT then Some (d1, d2) else None
        | _, _ => None
        end
      else None
    | _, _, _ => None
    end
  end.

(** [/^Група\s+\d+[.,]\d+\./i.test(l)] *)
Definition isGroupLine (l : jsstring) : bool :=
  match matchGroupLineAt is_sep l with Some _ => true | None => false end.

(** [line.match(/Група\s+(\d+\.\d+)\./i)]: leftmost match, first capture. *)
Fixpoint matchGroupLine (line : jsstring) : option jsstring :=
  match matchGroupLineAt (fun c => c =? DOT) line with
  | Some (d1, d2) => Some (d1 ++ DOT :: d2)
  | None =>
    match line with
    | [] => None
    | _ :: r => matchGroupLine r
    end
  end.

Definition extractGroupLinesOnly (text : jsstring) : jsstring :=
  trim (join LF (filter (fun l => isGroupLine l)
                        (split LF (normalizeMultilineText text)))).

(** [parseGroupSchedulesFromText]: the object [map] is a finite map from
    subgroup id to line; a later line for the same id replaces the earlier. *)
Definition parseGroupSchedulesFromText (text : jsstring)
  : gmap jsstring jsstring :=
  fold_left
    (fun map line =>
       match matchGroupLine line with
       | None => map
       | Some m1 =>
         match normalizeGroupId m1 with
         | None => map
         | Some g => <[g := line]> map
         end
       end)
    (split LF (normalizeMultilineText text)) ∅.

(** ** Subscriber records and the store *)

Inductive PendingStep := step_groups | step_groups_add | step_groups_remove.

Inductive TomorrowStatus := missing | present.

#[global] Instance TomorrowStatus_eq_dec : EqDecision TomorrowStatus.
Proof. solve_decision. Defined.

(** [UserState]; an optional field that is absent or [undefined] is [None]. *)
Record UserState := mkUser {
  groups : option (list jsstring);
  pendingStep : option PendingStep;
  watching : bool;
  lastLoeCheckedAt : option jsstring;
  lastLoeNotifiedAt : option jsstring;
  lastLoeWatchedText : option jsstring;
  lastLoeError : option jsstring;
  lastLoeTomorrowCheckedAt : option jsstring;
  lastLoeTomorrowNotifiedAt : option jsstring;
  lastLoeTomorrowWatchedText : option jsstring;
  lastLoeTomorrowStatus : option TomorrowStatus;
  lastLoeTomorrowError : option jsstring
}.

(** [{ watching: false }], the record [ensureUser] creates. *)
Definition newUser : UserState :=
  mkUser None None false None None None None None None None None None.

(** [BotState]: the object [users], keyed by chat id (own properties). *)
#[projections(primitive)]
Record BotState := mkState { users : gmap jsstring UserState }.

Definition emptyState : BotState := mkState ∅.

(** Field assignments [user.f = v]. *)
Definition set_groups v (u : UserState) : UserState :=
  mkUser v (pendingStep u) (watching u) (lastLoeCheckedAt u)
    (lastLoeNotifiedAt u) (lastLoeWatchedText u) (lastLoeError u)
    (lastLoeTomorrowCheckedAt u) (lastLoeTomorrowNotifiedAt u)
    (lastLoeTomorrowWatchedText u) (lastLoeTomorrowStatus u)
    (lastLoeTomorrowError u).
Definition set_pendingStep v (u : UserState) : UserState :=
  mkUser (groups u) v (watching u) (lastLoeCheckedAt u)
    (lastLoeNotifiedAt u) (lastLoeWatchedText u) (lastLoeError u)
    (lastLoeTomorrowCheckedAt u) (lastLoeTomorrowNotifiedAt u)
    (lastLoeTomorrowWatchedText u) (lastLoeTomorrowStatus u)
    (lastLoeTomorrowError u).
Definition set_watching v (u : UserState) : UserState :=
  mkUser (groups u) (pendingStep u) v (lastLoeCheckedAt u)
    (lastLoeNotifiedAt u) (lastLoeWatchedText u) (lastLoeError u)
    (lastLoeTomorrowCheckedAt u) (lastLoeTomorrowNotifiedAt u)
    (lastLoeTomorrowWatchedText u) (lastLoeTomorrowStatus u)
    (lastLoeTomorrowError u).
Definition set_lastLoeCheckedAt v (u : UserState) : UserState :=
  mkUser (groups u) (pendingStep u) (watching u) v
    (lastLoeNotifiedAt u) (lastLoeWatchedText u) (lastLoeError u)
    (lastLoeTomorrowCheckedAt u) (lastLoeTomorrowNotifiedAt u)
    (lastLoeTomorrowWatchedText u) (lastLoeTomorrowStatus u)
    (lastLoeTomorrowError u).
Definition set_lastLoeNotifiedAt v (u : UserState) : UserState :=
  mkUser (groups u) (pendingStep u) (watching u) (lastLoeCheckedAt u)
    v (lastLoeWatchedText u) (lastLoeError u)
    (lastLoeTomorrowCheckedAt u) (lastLoeTomorrowNotifiedAt u)
    (lastLoeTomorrowWatchedText u) (lastLoeTomorrowStatus u)
    (lastLoeTomorrowError u).
Definition set_lastLoeWatchedText v (u : UserState) : UserState :=
  mkUser (groups u) (pendingStep u) (watching u) (lastLoeCheckedAt u)
    (lastLoeNotifiedAt u) v (lastLoeError u)
    (lastLoeTomorrowCheckedAt u) (lastLoeTomorrowNotifiedAt u)
    (lastLoeTomorrowWatchedText u) (lastLoeTomorrowStatus u)
    (lastLoeTomorrowError u).
Definition set_lastLoeError v (u : UserState) : UserState :=
  mkUser (groups u) (pendingStep u) (watching u) (lastLoeCheckedAt u)
    (lastLoeNotifiedAt u) (lastLoeWatchedText u) v
    (lastLoeTomorrowCheckedAt u) (lastLoeTomorrowNotifiedAt u)
    (lastLoeTomorrowWatchedText u) (lastLoeTomorrowStatus u)
    (lastLoeTomorrowError u).
Definition set_lastLoeTomorrowCheckedAt v (u : UserState) : UserState :=
  mkUser (groups u) (pendingStep u) (watching u) (lastLoeCheckedAt u)
    (lastLoeNotifiedAt u) (lastLoeWatchedText u) (lastLoeError u)
    v (lastLoeTomorrowNotifiedAt u)
    (lastLoeTomorrowWatchedText u) (lastLoeTomorrowStatus u)
    (lastLoeTomorrowError u).
Definition set_lastLoeTomorrowNotifiedAt v (u : UserState) : UserState :=
  mkUser (groups u) (pendingStep u) (watching u) (lastLoeCheckedAt u)
    (lastLoeNotifiedAt u) (lastLoeWatchedText u) (lastLoeError u)
    (lastLoeTomorrowCheckedAt u) v
    (lastLoeTomorrowWatchedText u) (lastLoeTomorrowStatus u)
    (lastLoeTomorrowError u).
Definition set_lastLoeTomorrowWatchedText v (u : UserState) : UserState :=
  mkUser (groups u) (pendingStep u) (watching u) (lastLoeCheckedAt u)
    (lastLoeNotifiedAt u) (lastLoeWatchedText u) (lastLoeError u)
    (lastLoeTomorrowCheckedAt u) (lastLoeTomorrowNotifiedAt u)
    v (lastLoeTomorrowStatus u)
    (lastLoeTomorrowError u).
Definition set_lastLoeTomorrowStatus v (u : UserState) : UserState :=
  mkUser (groups u) (pendingStep u) (watching u) (lastLoeCheckedAt u)
    (lastLoeNotifiedAt u) (lastLoeWatchedText u) (lastLoeError u)
    (lastLoeTomorrowCheckedAt u) (lastLoeTomorrowNotifiedAt u)
    (lastLoeTomorrowWatchedText u) v
    (lastLoeTomorrowError u).
Definition set_lastLoeTomorrowError v (u : UserState) : UserState :=
  mkUser (groups u) (pendingStep u) (watching u) (lastLoeCheckedAt u)
    (lastLoeNotifiedAt u) (lastLoeWatchedText u) (lastLoeError u)
    (lastLoeTomorrowCheckedAt u) (lastLoeTomorrowNotifiedAt u)
    (lastLoeTomorrowWatchedText u) (lastLoeTomorrowStatus u)
    v.

(** ** Persisted state: what [JSON.parse] returns *)

(** A parsed JSON value.  An object is the list of its members in the order
    of the text; where a key is repeated the last member is the property,
    as in [JSON.parse].  The only use of a number here is its truthiness,
    so a number is modelled by an integer. *)
#[warnings="-register-all"]
Inductive json :=
| JNull
| JBool (b : bool)
| JNum (n : Z)
| JStr (s : jsstring)
| JArr (items : list json)
| JObj (members : list (jsstring * json)).

Module Json.

Fixpoint lookup_last (k : jsstring) (ms : list (jsstring * json))
  : option json :=
  match ms with
  | [] => None
  | (k', v) :: r =>
    match lookup_last k r with
    | Some v' => Some v'
    | None => if bool_decide (k' = k) then Some v else None
    end
  end.

(** [o.k] for a value that may be anything: [None] is [undefined]. *)
Definition prop (o : json) (k : string) : option json :=
  match o with
  | JObj ms => lookup_last (js k) ms
  | _ => None
  end.

(** [typeof v === 'object' && v !== null] *)
Definition isObject (v : option json) : bool :=
  match v with
  | Some (JObj _) | Some (JArr _) => true
  | _ => false
  end.

(** [Boolean(v)] *)
Definition truthy (v : option json) : bool :=
  match v with
  | None | Some JNull => false
  | Some (JBool b) => b
  | Some (JNum n) => negb (n =? 0)%Z
  | Some (JStr s) => nonempty s
  | Some (JArr _) | Some (JObj _) => true
  end.

(** [typeof v === 'string' ? v : undefined] *)
Definition asString (v : option json) : option jsstring :=
  match v with Some (JStr s) => Some s | _ => None end.

(** [Array.isArray(v) ? v.filter((x) => typeof x === 'string') : undefined] *)
Definition asStringArray (v : option json) : option (list jsstring) :=
  match v with
  | Some (JArr items) =>
    Some (omap (fun x => match x with JStr s => Some s | _ => None end) items)
  | _ => None
  end.

(** [Object.entries(v)] of an object or an array (index keys). *)
Definition entries (v : json) : list (jsstring * json) :=
  match v with
  | JObj ms => ms
  | JArr items =>
    imap (fun i x => (NumberToString (N.of_nat i), x)) items
  | _ => []
  end.

End Json.

Definition PROTO : jsstring := Eval vm_compute in js "__proto__".

(** The record built for one entry of [rawUsers] in [normalizeStateShape]. *)
Definition normalizeUser (raw : json) : UserState :=
  let u := if Json.isObject (Some raw) then raw else JObj [] in
  let pending :=
    match Json.prop u "pendingStep" with
    | Some (JStr s) =>
      if bool_decide (s = js "groups") then Some step_groups
      else if bool_decide (s = js "groups_add") then Some step_groups_add
      else if bool_decide (s = js "groups_remove") then Some step_groups_remove
      else None
    | _ => None
    end in
  {| groups := Json.asStringArray (Json.prop u "groups");
     pendingStep := pending;
     watching := Json.truthy (Json.prop u "watching");
     lastLoeCheckedAt := Json.asString (Json.prop u "lastLoeCheckedAt");
     lastLoeNotifiedAt := Json.asString (Json.prop u "lastLoeNotifiedAt");
     lastLoeWatchedText := Json.asString (Json.prop u "lastLoeWatchedText");
     lastLoeError := Json.asString (Json.prop u "lastLoeError");
     lastLoeTomorrowCheckedAt :=
       Json.asString (Json.prop u "lastLoeTomorrowCheckedAt");
     lastLoeTomorrowNotifiedAt :=
       Json.asString (Json.prop u "lastLoeTomorrowNotifiedAt");
     lastLoeTomorrowWatchedText :=
       Json.asString (Json.prop u "lastLoeTomorrowWatchedText");
     lastLoeTomorrowStatus :=
       match Json.prop u "lastLoeTomorrowStatus" with
       | Some (JStr s) =>
         if bool_decide (s = js "missing") then Some missing
         else if bool_decide (s = js "present") then Some present
         else None
       | _ => None
       end;
     lastLoeTomorrowError :=
       Json.asString (Json.prop u "lastLoeTomorrowError") |}.

(** The assignment [users[chatId] = v] on the object literal [users]: every
    key becomes an own property except [__proto__], for which the assignment
    reaches the prototype setter and adds no own property. *)
Definition assignUser (chatId : jsstring) (v : UserState)
  (us : gmap jsstring UserState) : gmap jsstring UserState :=
  if bool_decide (chatId = PROTO) then us else <[chatId := v]> us.

Definition normalizeStateShape (input : json) : BotState :=
  let rawUsers :=
    match Json.prop input "users" with
    | Some v =>
      if Json.truthy (Some v) && Json.isObject (Some v) then v else JObj []
    | None => JObj []
    end in
  mkState
    (fold_left (fun us '(chatId, raw) => assignUser chatId (normalizeUser raw) us)
               (Json.entries rawUsers) ∅).

(** Reading the state file. *)
Inductive ReadOutcome :=
| ReadOk (raw : jsstring)   (* the content of the file *)
| ReadENOENT                (* the file does not exist *)
| ReadFailed.               (* any other error of [fs.readFile] *)

(** What a [try] block ends with: a value, or a thrown error. *)
Record Exn := mkExn {
  isENOENT : bool;        (* [err.code === 'ENOENT'] *)
  message : jsstring      (* [err.message]; empty when there is none *)
}.

Definition Error (msg : jsstring) : Exn := mkExn false msg.

Inductive Result (A : Type) :=
| Ok (a : A)
| Throw (e : Exn).
Arguments Ok {A} a.
Arguments Throw {A} e.

Section Load.
(** [JSON.parse]: [None] when it throws a [SyntaxError]. *)
Variable JSON_parse : jsstring -> option json.

(** The body of the [try] block of [readStateFromDisk]. *)
Definition readStateFromDisk_try (file : ReadOutcome) : Result BotState :=
  match file with
  | ReadENOENT => Throw (mkExn true [])
  | ReadFailed => Throw (Error [])
  | ReadOk raw =>
    match JSON_parse raw with
    | None => Throw (Error [])
    | Some parsed =>
      if Json.isObject (Some parsed)
         && bool_decide (is_Some (Json.prop parsed "users"))
         && Json.isObject (Json.prop parsed "users")
      then Ok (normalizeStateShape parsed)
      else Ok emptyState
    end
  end.

Definition readStateFromDisk (file : ReadOutcome) : Result BotState :=
  match readStateFromDisk_try file with
  | Ok st => Ok st
  | Throw err => if isENOENT err then Ok emptyState else Ok emptyState
  end.
End Load.

(** ** The environment of a check *)

(** A local calendar date, what the getters of a [Date] expose of a day. *)
Record CivilDate := mkDate { cd_year : Z; cd_month : N; cd_day : N }.

#[global] Instance CivilDate_eq_dec : EqDecision CivilDate.
Proof. solve_decision. Defined.

(** One evaluation of [new Date()]: its [toISOString()] and its local date. *)
Record Reading := mkReading { r_iso : jsstring; r_local : CivilDate }.

(** One selected menu item of the upstream answer: [docText] is the text of
    the item's markup (empty when there is none), [imageUrl] the resolved
    address of its picture. *)
Record MenuItem := mkItem { docText : jsstring; imageUrl : jsstring }.

(** [textFromRawHtml]: the text of the markup, normalised. *)
Definition itemText (it : MenuItem) : jsstring :=
  normalizeMultilineText (docText it).

(** The outcome of [fetchLoePhotoGraficMenuItems]. *)
Inductive FetchOutcome :=
| FetchFailed (message : jsstring)
| Fetched (today tomorrow : option MenuItem).

(** Everything outside the program that a run depends on.  [clock n] is the
    n-th evaluation of [new Date()], [parseDate s] the local date of
    [new Date(s)] ([None] for an invalid date), [fetchAt n] the n-th upstream
    answer; [writeError n] and [sendError n] say whether the n-th write of the
    state file, or the n-th [sendMessage], throws and with which message. *)
Record Env := mkEnv {
  clock : nat -> Reading;
  parseDate : jsstring -> option CivilDate;
  fetchAt : nat -> FetchOutcome;
  writeError : nat -> option jsstring;
  sendError : nat -> option jsstring
}.

(** The [sendMessage] call of the source that produced a message. *)
Inductive MsgKind :=
| MsgNoGroups
| MsgTodayFirstForced
| MsgTodayForced
| MsgTodayRollover
| MsgTodayChanged
| MsgTomorrowAppeared
| MsgTomorrowChanged
| MsgCheckError.

#[global] Instance MsgKind_eq_dec : EqDecision MsgKind.
Proof. solve_decision. Defined.

Record Sent := mkSent { to : jsstring; kind : MsgKind; text : jsstring }.

(** The mutable world: the variable [state], the state file, the messages
    delivered so far, and how many times each external service and the array
    allocator have been used. *)
#[projections(primitive)]
Record World := mkWorld {
  state : BotState;
  disk : option BotState;
  outbox : list Sent;
  ticks : nat;
  fetches : nat;
  writes : nat;
  sends : nat;
  allocs : nat
}.

(** A JavaScript array as an object: [===] and [!==] on arrays compare the
    identity [arr_ref], never the items. *)
Record JsArray := mkArray { arr_ref : nat; arr_items : list jsstring }.

(** [a !== b] on two arrays *)
Definition array_strict_ne (a b : JsArray) : bool :=
  negb (arr_ref a =? arr_ref b)%nat.

(** ** Effects: state threading with exceptions *)

Definition M (A : Type) : Type := Env -> World -> Result A * World.

Definition ret {A} (a : A) : M A := fun _ w => (Ok a, w).

Definition bind {A B} (m : M A) (k : A -> M B) : M B :=
  fun env w =>
    match m env w with
    | (Ok a, w') => k a env w'
    | (Throw e, w') => (Throw e, w')
    end.

Notation "x <- m ;; k" := (bind m (fun x => k))
  (at level 100, m at next level, right associativity).
Notation "m ;;; k" := (bind m (fun _ => k))
  (at level 100, right associativity).

Definition throw {A} (e : Exn) : M A := fun _ w => (Throw e, w).

(** [try { body } catch (err) { handler(err) }] *)
Definition try_catch {A} (body : M A) (handler : Exn -> M A) : M A :=
  fun env w =>
    match body env w with
    | (Ok a, w') => (Ok a, w')
    | (Throw e, w') => handler e env w'
    end.

(** [new Date()] *)
Definition newDate : M Reading :=
  fun env w =>
    (Ok (clock env (ticks w)),
     mkWorld (state w) (disk w) (outbox w) (S (ticks w)) (fetches w)
             (writes w) (sends w) (allocs w)).

Definition fetchLoePhotoGraficMenuItems
  : M (option MenuItem * option MenuItem) :=
  fun env w =>
    let w' := mkWorld (state w) (disk w) (outbox w) (ticks w) (S (fetches w))
                      (writes w) (sends w) (allocs w) in
    match fetchAt env (fetches w) with
    | FetchFailed msg => (Throw (Error msg), w')
    | Fetched today tomorrow => (Ok (today, tomorrow), w')
    end.

(** [writeStateToDisk(state)]: the file is replaced by the rename at the end,
    or an error is thrown and the file is as before.  [normalizeStateShape]
    leaves a well-typed state as it is. *)
Definition writeStateToDisk : M unit :=
  fun env w =>
    match writeError env (writes w) with
    | Some msg =>
      (Throw (Error msg),
       mkWorld (state w) (disk w) (outbox w) (ticks w) (fetches w)
               (S (writes w)) (sends w) (allocs w))
    | None =>
      (Ok tt,
       mkWorld (state w) (Some (state w)) (outbox w) (ticks w) (fetches w)
               (S (writes w)) (sends w) (allocs w))
    end.

(** [bot.telegram.sendMessage(chatId, text)] *)
Definition sendMessage (chatId : jsstring) (k : MsgKind) (body : jsstring)
  : M unit :=
  fun env w =>
    match sendError env (sends w) with
    | Some msg =>
      (Throw (Error msg),
       mkWorld (state w) (disk w) (outbox w) (ticks w) (fetches w)
               (writes w) (S (sends w)) (allocs w))
    | None =>
      (Ok tt,
       mkWorld (state w) (disk w) (outbox w ++ [mkSent chatId k body])
               (ticks w) (fetches w) (writes w) (S (sends w)) (allocs w))
    end.

(** A fresh array object holding [items]. *)
Definition newArray (items : list jsstring) : M JsArray :=
  fun _ w =>
    (Ok (mkArray (allocs w) items),
     mkWorld (state w) (disk w) (outbox w) (ticks w) (fetches w)
             (writes w) (sends w) (S (allocs w))).

(** The record [user] of a check is the object stored under [chatId] in
    [state.users]: reading a field reads the store, assigning one updates
    it, and [writeStateToDisk(state)] sees the assignment.  A chat id is an
    own key of [state.users] or the numeral [String(ctx.chat.id)], so
    [state.users[chatId]] never finds an inherited property. *)
Definition getUser (chatId : jsstring) : M UserState :=
  fun _ w => (Ok (default newUser (users (state w) !! chatId)), w).

Definition updUser (chatId : jsstring) (f : UserState -> UserState) : M unit :=
  fun _ w =>
    (Ok tt,
     mkWorld (mkState (alter f chatId (users (state w)))) (disk w) (outbox w)
             (ticks w) (fetches w) (writes w) (sends w) (allocs w)).

(** [ensureUser] *)
Definition ensureUser (chatId : jsstring) : M unit :=
  fun _ w =>
    match users (state w) !! chatId with
    | Some _ => (Ok tt, w)
    | None =>
      (Ok tt,
       mkWorld (mkState (assignUser chatId newUser (users (state w))))
               (disk w) (outbox w) (ticks w) (fetches w) (writes w) (sends w)
               (allocs w))
    end.

(** ** The check of one chat *)

Definition truthyStr (s : option jsstring) : bool :=
  match s with Some (_ :: _) => true | _ => false end.

Definition NOT_FOUND_TODAY : jsstring :=
  Eval vm_compute in js ". (Не знайдено в оновленні)".
Definition NOT_FOUND_TOMORROW : jsstring :=
  Eval vm_compute in js ". (Не знайдено в графіку на завтра)".
Definition GRUPA_SP : jsstring := Eval vm_compute in js "Група ".

(** The functions that every object inherits from [Object.prototype]. *)
Definition OBJECT_PROTOTYPE_METHODS : list jsstring := Eval vm_compute in
  map js ["__defineGetter__"; "__defineSetter__"; "hasOwnProperty";
          "__lookupGetter__"; "__lookupSetter__"; "isPrototypeOf";
          "propertyIsEnumerable"; "toString"; "valueOf";
          "toLocaleString"]%string.

Definition CONSTRUCTOR : jsstring := Eval vm_compute in js "constructor".

(** The names of the properties of [Object.prototype]. *)
Definition OBJECT_PROTOTYPE_KEYS : list jsstring :=
  PROTO :: CONSTRUCTOR :: OBJECT_PROTOTYPE_METHODS.

Definition OBJECT_TEXT : jsstring := Eval vm_compute in js "[object Object]".
Definition FUNCTION_SP : jsstring := Eval vm_compute in js "function ".
Definition FUNCTION_OBJECT : jsstring := Eval vm_compute in
  js "function Object() { [native code] }".
Definition NATIVE_BODY : jsstring := Eval vm_compute in js "() { [native code] }".

(** What an object literal inherits under the name [g], as the text that
    [join] makes of it in Node.js: the prototype itself for [__proto__], a
    built-in function for the other names of [Object.prototype], nothing
    ([None]) for every other string. *)
Definition inheritedText (g : jsstring) : option jsstring :=
  if bool_decide (g = PROTO) then Some OBJECT_TEXT
  else if bool_decide (g = CONSTRUCTOR)
  then Some FUNCTION_OBJECT
  else if bool_decide (g ∈ OBJECT_PROTOTYPE_METHODS)
  then Some (FUNCTION_SP ++ g ++ NATIVE_BODY)
  else None.

(** [groupMap[g]] on the object [groupMap] of [parseGroupSchedulesFromText],
    as text: the line stored under [g], or else what the object inherits.
    The ids of [POSSIBLE_GROUPS] inherit nothing; a [groups] array read from
    the state file may hold any string. *)
Definition lookupLine (groupMap : gmap jsstring jsstring) (g : jsstring)
  : option jsstring :=
  match groupMap !! g with
  | Some line => Some line
  | None => inheritedText g
  end.

(** [groupMap[g] ?? `Група ${g}. (...)`] for every selected group. *)
Definition selectLines (notFound : jsstring) (groupMap : gmap jsstring jsstring)
  (gs : list jsstring) : list jsstring :=
  map (fun g => match lookupLine groupMap g with
                | Some line => line
                | None => GRUPA_SP ++ g ++ notFound
                end) gs.

(** [normalizeMultilineText(t).split('\n').slice(0, 2).filter(l => l.length > 0)] *)
Definition headerLinesOf (t : jsstring) : list jsstring :=
  filter (fun l => nonempty l)
         (slice0 2 (split LF (normalizeMultilineText t))).

(** [[...headerLines, '', ...selectedLines].join('\n').trim()] *)
Definition watchedTextOf (headerLines selectedLines : list jsstring)
  : jsstring :=
  trim (join LF (headerLines ++ [] :: selectedLines)).

Definition MSG_NO_GROUPS : jsstring := Eval vm_compute in
  js "Не задано групи. Використайте /groups та введіть, наприклад: 1.1, 3.2".
Definition MSG_NO_TODAY : jsstring := Eval vm_compute in
  js "LOE API не повернув елемент меню з name=" ++ 34 :: js "Today" ++ [34].
Definition MSG_UNKNOWN : jsstring := Eval vm_compute in
  js "Невідома помилка під час перевірки графіка".
Definition MSG_ERROR_PREFIX : jsstring := Eval vm_compute in js "❌ Помилка: ".
Definition MSG_UNREADABLE : jsstring := Eval vm_compute in
  js "(Не вдалося прочитати текст)".
Definition HEAD_CHECKED : jsstring := Eval vm_compute in
  js "🔥 Оновлення перевірено!".
Definition HEAD_TODAY : jsstring := Eval vm_compute in
  js "🔥 Графік відключень на сьогодні!".
Definition HEAD_TODAY_CHANGED : jsstring := Eval vm_compute in
  js "🔥 Графік відключень на сьогодні змінився!".
Definition HEAD_TOMORROW_APPEARED : jsstring := Eval vm_compute in
  js "🗓️ Зʼявився графік відключень на завтра!".
Definition HEAD_TOMORROW_CHANGED : jsstring := Eval vm_compute in
  js "🗓️ Графік відключень на завтра змінився!".
Definition IMG_FIRST : jsstring := Eval vm_compute in
  LF :: js "Графік відключень: ".
Definition IMG_TODAY : jsstring := Eval vm_compute in
  LF :: js "Графік відключень на сьогодні: ".
Definition IMG_TOMORROW : jsstring := Eval vm_compute in
  LF :: js "Графік (завтра): ".

(** [[heading, ' ', text || '(...)', '', url ? `\n...: ${url}` : '']
      .filter(Boolean).join('\n')] *)
Definition messageBody (heading watched imgLabel url : jsstring) : jsstring :=
  join LF
    (filter (fun l => nonempty l)
       [heading; [32];
        (if nonempty watched then watched else MSG_UNREADABLE);
        [];
        (if nonempty url then imgLabel ++ url else [])]).

(** [new Date(s)]: the local date, [None] for an invalid date. *)
Definition dateOf (s : jsstring) : M (option CivilDate) :=
  fun env w => (Ok (parseDate env s), w).

(** [d1.getDate() !== d2.getDate()], where [getDate] of an invalid date is
    [NaN], which differs from every number. *)
Definition getDate_ne (d1 : option CivilDate) (d2 : CivilDate) : bool :=
  match d1 with
  | None => true
  | Some d => negb (cd_day d =? cd_day d2)
  end.

(** [prev !== cur] where [prev] may be [undefined] *)
Definition text_ne (prev : option jsstring) (cur : jsstring) : bool :=
  match prev with
  | None => true
  | Some p => negb (jseq p cur)
  end.

(** [text ? extractGroupLinesOnly(text) : undefined] *)
Definition prevGroupsOnly (stored : option jsstring) : option jsstring :=
  if truthyStr stored then Some (extractGroupLinesOnly (default [] stored))
  else None.

(** The section [TODAY] of [checkOneChat]. *)
Definition checkToday (chatId : jsstring) (gs : list jsstring)
  (forceCheck : bool) (today : MenuItem) : M unit :=
  let groupMap := parseGroupSchedulesFromText (itemText today) in
  let selectedLines := selectLines NOT_FOUND_TODAY groupMap gs in
  let headerLines := headerLinesOf (itemText today) in
  let watchedText := watchedTextOf headerLines selectedLines in
  let watchedGroupsText := trim (join LF selectedLines) in
  user <- getUser chatId ;;
  let prev := prevGroupsOnly (lastLoeWatchedText user) in
  now <- newDate ;;
  updUser chatId (set_lastLoeCheckedAt (Some (r_iso now))) ;;;
  updUser chatId (set_lastLoeError None) ;;;
  isNotifiedYesterday <-
    (if truthyStr (lastLoeNotifiedAt user) then
       d <- dateOf (default [] (lastLoeNotifiedAt user)) ;;
       now <- newDate ;;
       ret (getDate_ne d (r_local now))
     else ret false) ;;
  if negb (truthyStr prev) then
    updUser chatId (set_lastLoeWatchedText (Some watchedText)) ;;;
    writeStateToDisk ;;;
    if forceCheck then
      now <- newDate ;;
      updUser chatId (set_lastLoeNotifiedAt (Some (r_iso now))) ;;;
      writeStateToDisk ;;;
      sendMessage chatId MsgTodayFirstForced
        (messageBody HEAD_CHECKED watchedText IMG_FIRST (imageUrl today))
    else ret tt
  else if text_ne prev watchedGroupsText || isNotifiedYesterday || forceCheck
  then
    updUser chatId (set_lastLoeWatchedText (Some watchedText)) ;;;
    now <- newDate ;;
    updUser chatId (set_lastLoeNotifiedAt (Some (r_iso now))) ;;;
    writeStateToDisk ;;;
    sendMessage chatId
      (if forceCheck then MsgTodayForced
       else if isNotifiedYesterday then MsgTodayRollover
       else MsgTodayChanged)
      (messageBody
         (if forceCheck then HEAD_CHECKED
          else if isNotifiedYesterday then HEAD_TODAY
          else HEAD_TODAY_CHANGED)
         watchedText IMG_TODAY (imageUrl today))
  else ret tt.

(** [normalizeMultilineText(t).split('\n').slice(0, 2).filter(...)] as the
    array object it creates: [split], [slice] and [filter] each allocate. *)
Definition headerLinesArray (t : jsstring) : M JsArray :=
  a1 <- newArray (split LF (normalizeMultilineText t)) ;;
  a2 <- newArray (slice0 2 (arr_items a1)) ;;
  newArray (filter (fun l => nonempty l) (arr_items a2)).

(** The section [TOMORROW] of [checkOneChat].  Only the arrays that the code
    compares are modelled as objects. *)
Definition checkTomorrow (chatId : jsstring) (gs : list jsstring)
  (tomorrow : option MenuItem) : M unit :=
  now <- newDate ;;
  updUser chatId (set_lastLoeTomorrowCheckedAt (Some (r_iso now))) ;;;
  updUser chatId (set_lastLoeTomorrowError None) ;;;
  match tomorrow with
  | None =>
    updUser chatId (set_lastLoeTomorrowStatus (Some missing)) ;;;
    writeStateToDisk
  | Some tm =>
    let tomorrowGroupMap := parseGroupSchedulesFromText (itemText tm) in
    let tomorrowSelectedLines :=
      selectLines NOT_FOUND_TOMORROW tomorrowGroupMap gs in
    let hasAnyTomorrowDataForSelectedGroups :=
      existsb (fun g => truthyStr (lookupLine tomorrowGroupMap g)) gs in
    user <- getUser chatId ;;
    tomorrowHeaderLines <- headerLinesArray (itemText tm) ;;
    tomorrowHeaderLinesPrev <-
      headerLinesArray (default [] (lastLoeTomorrowWatchedText user)) ;;
    tomorrowHeaderLinesCurrent <- headerLinesArray (itemText tm) ;;
    let tomorrowWatchedText :=
      watchedTextOf (arr_items tomorrowHeaderLines) tomorrowSelectedLines in
    let tomorrowWatchedGroupsText := trim (join LF tomorrowSelectedLines) in
    let tomorrowPrevGroupsOnly :=
      prevGroupsOnly (lastLoeTomorrowWatchedText user) in
    let appeared :=
      negb (bool_decide (lastLoeTomorrowStatus user = Some present)) in
    updUser chatId (set_lastLoeTomorrowStatus (Some present)) ;;;
    if negb hasAnyTomorrowDataForSelectedGroups then
      updUser chatId (set_lastLoeTomorrowWatchedText (Some tomorrowWatchedText)) ;;;
      writeStateToDisk
    else if appeared then
      updUser chatId (set_lastLoeTomorrowWatchedText (Some tomorrowWatchedText)) ;;;
      now <- newDate ;;
      updUser chatId (set_lastLoeTomorrowNotifiedAt (Some (r_iso now))) ;;;
      writeStateToDisk ;;;
      sendMessage chatId MsgTomorrowAppeared
        (messageBody HEAD_TOMORROW_APPEARED tomorrowWatchedText IMG_TOMORROW
                     (imageUrl tm))
    else if text_ne tomorrowPrevGroupsOnly tomorrowWatchedGroupsText
            && array_strict_ne tomorrowHeaderLinesPrev tomorrowHeaderLinesCurrent
    then
      updUser chatId (set_lastLoeTomorrowWatchedText (Some tomorrowWatchedText)) ;;;
      now <- newDate ;;
      updUser chatId (set_lastLoeTomorrowNotifiedAt (Some (r_iso now))) ;;;
      writeStateToDisk ;;;
      sendMessage chatId MsgTomorrowChanged
        (messageBody HEAD_TOMORROW_CHANGED tomorrowWatchedText IMG_TOMORROW
                     (imageUrl tm))
    else writeStateToDisk
  end.

(** The [try] block of [checkOneChat]. *)
Definition checkBody (chatId : jsstring) (gs : list jsstring)
  (forceCheck : bool) : M unit :=
  fetched <- fetchLoePhotoGraficMenuItems ;;
  match fst fetched with
  | None => throw (Error MSG_NO_TODAY)
  | Some today =>
    checkToday chatId gs forceCheck today ;;;
    checkTomorrow chatId gs (snd fetched)
  end.

(** The [catch] block of [checkOneChat]. *)
Definition checkCatch (chatId : jsstring) (forceCheck : bool) (err : Exn)
  : M unit :=
  now <- newDate ;;
  updUser chatId (set_lastLoeCheckedAt (Some (r_iso now))) ;;;
  let msg := if nonempty (message err) then message err else MSG_UNKNOWN in
  updUser chatId (set_lastLoeError (Some msg)) ;;;
  writeStateToDisk ;;;
  if forceCheck then sendMessage chatId MsgCheckError (MSG_ERROR_PREFIX ++ msg)
  else ret tt.

(** [checkOneChat(chatId, user, forceCheck)], for the record [user] stored
    under [chatId], which is what every caller passes. *)
Definition checkOneChat (chatId : jsstring) (forceCheck : bool) : M unit :=
  user <- getUser chatId ;;
  if negb (watching user) && negb forceCheck then ret tt
  else
    match groups user with
    | None | Some [] =>
      updUser chatId (set_lastLoeError (Some MSG_NO_GROUPS)) ;;;
      now <- newDate ;;
      updUser chatId (set_lastLoeCheckedAt (Some (r_iso now))) ;;;
      writeStateToDisk ;;;
      if forceCheck then sendMessage chatId MsgNoGroups MSG_NO_GROUPS
      else ret tt
    | Some gs =>
      try_catch (checkBody chatId gs forceCheck) (checkCatch chatId forceCheck)
    end.

(** A unit of work whose failure is swallowed, as the scheduler does with
    [.catch(() => undefined)]. *)
Definition attempt (m : M unit) : M unit := try_catch m (fun _ => ret tt).

(** ** Commands that change the subgroups *)

(** [arr.filter((g, idx, arr) => arr.indexOf(g) === idx)] *)
Fixpoint dedupeFirst (seen l : list jsstring) : list jsstring :=
  match l with
  | [] => []
  | g :: r =>
    if includes seen g then dedupeFirst seen r
    else g :: dedupeFirst (seen ++ [g]) r
  end.

(** The state operation of the free-text reply in step [groups]. *)
Definition setGroupsOp (chatId : jsstring) (gs : list jsstring) : M unit :=
  ensureUser chatId ;;;
  updUser chatId (set_groups (Some gs)) ;;;
  updUser chatId (set_pendingStep None) ;;;
  updUser chatId (set_watching true) ;;;
  updUser chatId (set_lastLoeWatchedText None) ;;;
  updUser chatId (set_lastLoeError None) ;;;
  writeStateToDisk.

(** The state operation of [addGroupCommand] and of step [groups_add]. *)
Definition addGroupsOp (chatId : jsstring) (toAdd : list jsstring) : M unit :=
  ensureUser chatId ;;;
  user <- getUser chatId ;;
  let current := default [] (groups user) in
  updUser chatId (set_groups (Some (dedupeFirst [] (current ++ toAdd)))) ;;;
  updUser chatId (set_pendingStep None) ;;;
  updUser chatId (set_lastLoeWatchedText None) ;;;
  updUser chatId (set_lastLoeError None) ;;;
  writeStateToDisk.

(** The state operation of [removeGroupCommand] and of step [groups_remove]. *)
Definition removeGroupsOp (chatId : jsstring) (toRemove : list jsstring)
  : M unit :=
  ensureUser chatId ;;;
  user <- getUser chatId ;;
  let current := default [] (groups user) in
  updUser chatId
    (set_groups (Some (filter (fun g => negb (includes toRemove g)) current))) ;;;
  updUser chatId (set_pendingStep None) ;;;
  updUser chatId (set_lastLoeWatchedText None) ;;;
  updUser chatId (set_lastLoeError None) ;;;
  writeStateToDisk.

(** What the handlers do once they hold the text [raw] that is to name the
    subgroups: the message in the [text] handler, the text after the command
    name, when there is one, in [addGroupCommand] and [removeGroupCommand].
    Nothing is changed when no valid subgroup is found in it.  The handlers
    with the branches they take before this point are [textHandlerOp],
    [addGroupCommand] and [removeGroupCommand] below. *)
Inductive GroupsAction := InitialSet | AddGroups | RemoveGroups.

Definition applyGroupsInput (a : GroupsAction) (chatId raw : jsstring)
  : M unit :=
  let parsed := parseGroupsFromUserInput raw in
  match parsed with
  | [] => ret tt
  | _ =>
    match a with
    | InitialSet => setGroupsOp chatId parsed
    | AddGroups => addGroupsOp chatId parsed
    | RemoveGroups => removeGroupsOp chatId parsed
    end
  end.

(** The subgroups of a chat in a world ([state.users[chatId]?.groups ?? []]). *)
Definition groupsOf (chatId : jsstring) (w : World) : list jsstring :=
  match users (state w) !! chatId with
  | Some u => default [] (groups u)
  | None => []
  end.

(** ** Auxiliary notions used in the statements *)

(** A line as [normalizeMultilineText] leaves it: not empty, without a
    line feed, and unchanged by [trim]. *)
Definition cleanLine (l : jsstring) : Prop :=
  l ≠ [] ∧ (LF ∉ l) ∧ trim l = l.

(** No white space at the start, resp. at the end. *)
Definition head_ok (s : jsstring) : Prop :=
  match s with [] => True | c :: _ => is_ws c = false end.

Definition last_ok (s : jsstring) : Prop :=
  match last s with None => True | Some c => is_ws c = false end.

(** The invariant of [UserState.groups]: valid subgroup ids, no duplicates. *)
Definition GroupsInv (gs : list jsstring) : Prop :=
  NoDup gs ∧ Forall (fun g => g ∈ POSSIBLE_GROUPS) gs.

(** A non-empty run of ASCII digits. *)
Definition digitRun (ds : jsstring) : Prop :=
  ds ≠ [] ∧ Forall (fun c => is_digit c = true) ds.

(** Text after which a token starts afresh: it holds no digit, or it ends
    with a character that is neither a digit nor a separator, so that no
    earlier match of the pattern reaches into the token. *)
Definition tokenBoundary (pre : jsstring) : Prop :=
  Forall (fun c => is_digit c = false) pre \/
  match last pre with
  | Some c => is_digit c = false /\ is_sep c = false
  | None => True
  end.

(** The canonical dotted id of a token [d1 SEP d2]. *)
Definition canonicalId (d1 d2 : jsstring) : jsstring :=
  NumberToString (NumberOfDigits d1) ++ DOT :: NumberToString (NumberOfDigits d2).

(** A parsed state file that is an object with a [users] object (in the
    sense of [typeof]: an object or an array, not [null]). *)
Definition hasUsersObject (parsed : json) : bool :=
  match parsed with
  | JObj ms => Json.isObject (Json.lookup_last (js "users") ms)
  | _ => false
  end.

(** The strings among the items of an array. *)
Definition stringItems (items : list json) : list jsstring :=
  omap (fun x => match x with JStr s => Some s | _ => None end) items.

(** The messages delivered by a run of [m] from world [w]. *)
Definition sentBy {A} (m : M A) (env : Env) (w : World) : list Sent :=
  drop (length (outbox w)) (outbox (m env w).2).

(** The record of a chat after a run. *)
Definition userAfter {A} (m : M A) (env : Env) (w : World)
  (chatId : jsstring) : option UserState :=
  users (state (m env w).2) !! chatId.

(** The text a check of today's item stores as baseline. *)
Definition todayWatchedText (gs : list jsstring) (today : MenuItem) : jsstring :=
  watchedTextOf (headerLinesOf (itemText today))
    (selectLines NOT_FOUND_TODAY
       (parseGroupSchedulesFromText (itemText today)) gs).

(** The messages of the tomorrow section. *)
Definition isTomorrowKind (k : MsgKind) : Prop :=
  k = MsgTomorrowAppeared \/ k = MsgTomorrowChanged.

(** The messages of the today section. *)
Definition isTodayKind (k : MsgKind) : Prop :=
  k = MsgTodayFirstForced \/ k = MsgTodayForced \/
  k = MsgTodayRollover \/ k = MsgTodayChanged.

(** [user.groups.some((g) => Boolean(tomorrowGroupMap[g]))] *)
Definition hasTomorrowData (gs : list jsstring) (tm : MenuItem) : bool :=
  existsb
    (fun g => truthyStr (lookupLine (parseGroupSchedulesFromText (itemText tm)) g))
    gs.

(** The text a check of tomorrow's item stores as baseline. *)
Definition tomorrowWatchedText (gs : list jsstring) (tm : MenuItem) : jsstring :=
  watchedTextOf (headerLinesOf (itemText tm))
    (selectLines NOT_FOUND_TOMORROW
       (parseGroupSchedulesFromText (itemText tm)) gs).

(** The rendered subgroup lines alone ([selectedLines.join('\n').trim()]). *)
Definition watchedGroupsText (notFound : jsstring) (gs : list jsstring)
  (it : MenuItem) : jsstring :=
  trim (join LF (selectLines notFound
                   (parseGroupSchedulesFromText (itemText it)) gs)).

(** [isNotifiedYesterday] as the today section evaluates it in world [w]:
    the second reading of the clock of that section gives the current
    date. *)
Definition isNotifiedYesterday (env : Env) (w : World) (u : UserState) : bool :=
  if truthyStr (lastLoeNotifiedAt u)
  then getDate_ne (parseDate env (default [] (lastLoeNotifiedAt u)))
                  (r_local (clock env (S (ticks w))))
  else false.

(** The file system and the chat transport never fail. *)
Definition ioSucceeds (env : Env) : Prop :=
  (forall n, writeError env n = None) /\ (forall n, sendError env n = None).

(** Upstream never withdraws tomorrow's schedule: no answer has today's item
    without tomorrow's. *)
Definition tomorrowStays (env : Env) : Prop :=
  forall n td, fetchAt env n <> Fetched (Some td) None.

(** A run leaves the today fields, resp. the tomorrow fields, of a record. *)
Definition keepsToday (u u' : UserState) : Prop :=
  groups u' = groups u /\ watching u' = watching u /\
  lastLoeWatchedText u' = lastLoeWatchedText u /\
  lastLoeNotifiedAt u' = lastLoeNotifiedAt u.

Definition keepsTomorrow (u u' : UserState) : Prop :=
  groups u' = groups u /\ watching u' = watching u /\
  lastLoeTomorrowStatus u' = lastLoeTomorrowStatus u /\
  lastLoeTomorrowWatchedText u' = lastLoeTomorrowWatchedText u /\
  lastLoeTomorrowNotifiedAt u' = lastLoeTomorrowNotifiedAt u.

(** The state file holds the today baseline [t] for a chat. *)
Definition diskBaseline (chatId t : jsstring) (w : World) : Prop :=
  exists st u,
    disk w = Some st /\ users st !! chatId = Some u /\
    lastLoeWatchedText u = Some t.

(** A sequence of checks of one chat, each a unit of its own, with the given
    [forceCheck] flags. *)
Fixpoint checksSeq (fs : list bool) (chatId : jsstring) : M unit :=
  match fs with
  | [] => ret tt
  | f :: r => attempt (checkOneChat chatId f) ;;; checksSeq r chatId
  end.

(** The world once the upstream answer has been received. *)
Definition afterFetch (w : World) : World :=
  mkWorld (state w) (disk w) (outbox w) (ticks w) (S (fetches w))
          (writes w) (sends w) (allocs w).

(** How many of the messages come from the [sendMessage] call [k]. *)
Definition countKind (k : MsgKind) (l : list Sent) : nat :=
  length (filter (fun m => kind m = k) l).

(** ** Concrete situations *)

Module Scenario.

Definition chat : jsstring := Eval vm_compute in js "7".

Definition subgroups : list jsstring := Eval vm_compute in [js "1.1"].

(** Today's item as published. *)
Definition todayItem : MenuItem := Eval vm_compute in
  mkItem (join LF [js "Графік погодинних відключень на 02.11.2026";
                   js "Інформація станом на 12:00";
                   js "Група 1.1. Електроенергії немає з 05:30 до 09:00.";
                   js "Група 1.2. Електроенергія є."])
         (js "https://api.loe.lviv.ua/media/today.png").

(** Tomorrow's item, and a later edition of it with the same two header
    lines and another line for subgroup 1.1. *)
Definition tomorrowItem : MenuItem := Eval vm_compute in
  mkItem (join LF [js "Графік погодинних відключень на 03.11.2026";
                   js "Інформація станом на 20:00";
                   js "Група 1.1. Електроенергія є.";
                   js "Група 1.2. Електроенергія є."])
         (js "https://api.loe.lviv.ua/media/tomorrow.png").

Definition tomorrowItemEdited : MenuItem := Eval vm_compute in
  mkItem (join LF [js "Графік погодинних відключень на 03.11.2026";
                   js "Інформація станом на 20:00";
                   js "Група 1.1. Електроенергії немає з 16:00 до 19:30.";
                   js "Група 1.2. Електроенергія є."])
         (js "https://api.loe.lviv.ua/media/tomorrow.png").

Definition octoberSecond : jsstring := Eval vm_compute in
  js "2026-10-02T10:00:00.000Z".
Definition novemberSecond : jsstring := Eval vm_compute in
  js "2026-11-02T08:00:00.000Z".
Definition nowIso : jsstring := Eval vm_compute in
  js "2026-11-02T10:00:00.000Z".

(** The process runs on 2 November 2026; the file system and the transport
    work; upstream answers [fetched] every time. *)
Definition envOf (fetched : FetchOutcome) : Env :=
  mkEnv (fun _ => mkReading nowIso (mkDate 2026 11 2))
        (fun s =>
           if bool_decide (s = octoberSecond) then Some (mkDate 2026 10 2)
           else if bool_decide (s = novemberSecond) then Some (mkDate 2026 11 2)
           else if bool_decide (s = nowIso) then Some (mkDate 2026 11 2)
           else None)
        (fun _ => fetched)
        (fun _ => None)
        (fun _ => None).

Definition worldOf (u : UserState) : World :=
  mkWorld (mkState {[ chat := u ]}) None [] 0 0 0 0 0.

(** A watched subscriber of subgroup 1.1 that has never been checked. *)
Definition freshUser : UserState :=
  set_watching true (set_groups (Some subgroups) newUser).

(** The same subscriber after a check found tomorrow's schedule absent. *)
Definition waitingUser : UserState :=
  set_lastLoeTomorrowStatus (Some missing) freshUser.

(** A subscriber notified of today's schedule earlier today and holding the
    first edition of tomorrow's schedule as baseline. *)
Definition settledUser : UserState :=
  set_lastLoeTomorrowStatus (Some present)
    (set_lastLoeTomorrowWatchedText
       (Some (tomorrowWatchedText subgroups tomorrowItem))
       (set_lastLoeNotifiedAt (Some novemberSecond)
          (set_lastLoeWatchedText
             (Some (todayWatchedText subgroups todayItem)) freshUser))).

(** A subscriber holding today's schedule as baseline, last notified one
    month ago to the day. *)
Definition monthAgoUser : UserState :=
  set_lastLoeNotifiedAt (Some octoberSecond)
    (set_lastLoeWatchedText
       (Some (todayWatchedText subgroups todayItem)) freshUser).

End Scenario.

(** The schedule lines proper among the rendered lines of the selected
    subgroups: the mapped lines, without the placeholders. *)
Definition realScheduleLines (groupMap : gmap jsstring jsstring)
  (gs : list jsstring) : list jsstring :=
  omap (fun g => groupMap !! g) gs.

(** ** The serialization queue [runStateOp]

    The queue is a chain of promises.  Its behaviour depends on the job
    queue of the JavaScript run time, which is modelled as a machine: a heap
    of promises with their registered reactions, the queue of pending
    reaction jobs, and the units that have been called and have not
    finished.  A unit is the function [fn] passed to [runStateOp]; from its
    call to the settlement of the promise it returns it is running, possibly
    suspended at an [await] while other events are handled.  The promise
    [next] adopts the promise returned by [fn]: the extra jobs of that
    adoption are merged into the event that finishes the unit. *)

Module StateQueue.

Inductive Outcome := Fulfilled | Rejected.

(** What [then] registered on a promise; [result] is the promise that [then]
    returned. *)
Inductive Reaction :=
| CallUnit (fn : nat) (result : nat)   (* [then(fn, fn)]: call [fn] *)
| ReturnUndefined (result : nat).      (* [then(() => undefined, () => undefined)] *)

Record Promise := mkPromise {
  settled : option Outcome;
  reactions : list Reaction
}.

Record Machine := mkMachine {
  heap : gmap nat Promise;       (* the promises, by identity *)
  fresh : nat;                   (* the next identity *)
  jobs : list Reaction;          (* the job queue *)
  running : list (nat * nat);    (* unit, and the promise it settles *)
  started : list nat;            (* the units, in the order they were called *)
  submitted : list nat;          (* the units, in the order of [runStateOp] *)
  stateOp : nat                  (* the variable [stateOp] *)
}.

(** [let stateOp = Promise.resolve()] *)
Definition initial : Machine :=
  mkMachine {[ 0%nat := mkPromise (Some Fulfilled) [] ]} 1 [] [] [] [] 0.

(** [p.then(...)]: a new promise is returned; the reaction waits on [p], or
    is queued as a job at once when [p] is already settled. *)
Definition then_ (p : nat) (r : nat -> Reaction) (m : Machine)
  : nat * Machine :=
  let q := fresh m in
  let heap1 := <[q := mkPromise None []]> (heap m) in
  match heap m !! p with
  | Some (mkPromise None rs) =>
    (q, mkMachine (<[p := mkPromise None (rs ++ [r q])]> heap1) (S q)
                  (jobs m) (running m) (started m) (submitted m) (stateOp m))
  | Some (mkPromise (Some _) _) =>
    (q, mkMachine heap1 (S q) (jobs m ++ [r q]) (running m) (started m)
                  (submitted m) (stateOp m))
  | None =>
    (q, mkMachine heap1 (S q) (jobs m) (running m) (started m)
                  (submitted m) (stateOp m))
  end.

(** A pending promise settles: its reactions become jobs. *)
Definition settle (p : nat) (o : Outcome) (m : Machine) : Machine :=
  match heap m !! p with
  | Some (mkPromise None rs) =>
    mkMachine (<[p := mkPromise (Some o) []]> (heap m)) (fresh m)
              (jobs m ++ rs) (running m) (started m) (submitted m) (stateOp m)
  | _ => m
  end.

(** [runStateOp(fn)] *)
Definition runStateOp (fn : nat) (m : Machine) : nat * Machine :=
  let '(next, m1) := then_ (stateOp m) (CallUnit fn) m in
  let '(p, m2) := then_ next ReturnUndefined m1 in
  (next,
   mkMachine (heap m2) (fresh m2) (jobs m2) (running m2) (started m2)
             (submitted m ++ [fn]) p).

(** The run time takes the first job of the queue. *)
Definition runJob (r : Reaction) (rest : list Reaction) (m : Machine)
  : Machine :=
  match r with
  | CallUnit fn result =>
    mkMachine (heap m) (fresh m) rest (running m ++ [(fn, result)])
              (started m ++ [fn]) (submitted m) (stateOp m)
  | ReturnUndefined result =>
    settle result Fulfilled
      (mkMachine (heap m) (fresh m) rest (running m) (started m)
                 (submitted m) (stateOp m))
  end.

(** A running unit finishes: the promise it returned, hence [next], is
    fulfilled or rejected. *)
Definition finish (fn result : nat) (o : Outcome) (m : Machine) : Machine :=
  settle result o
    (mkMachine (heap m) (fresh m) (jobs m)
               (filter (fun u => u <> (fn, result)) (running m))
               (started m) (submitted m) (stateOp m)).

(** The events of a run: a caller submits a new unit, the run time executes
    the next job, a running unit finishes with either outcome. *)
Inductive step : Machine -> Machine -> Prop :=
| step_submit fn m :
    fn ∉ submitted m -> step m (runStateOp fn m).2
| step_job r rest m :
    jobs m = r :: rest -> step m (runJob r rest m)
| step_finish fn result o m :
    (fn, result) ∈ running m -> step m (finish fn result o m).

Definition reachable (m : Machine) : Prop := rtc step initial m.

(** The run time empties the job queue (at most [fuel] jobs). *)
Fixpoint drain (fuel : nat) (m : Machine) : Machine :=
  match fuel with
  | O => m
  | S k =>
    match jobs m with
    | [] => m
    | r :: rest => drain k (runJob r rest m)
    end
  end.

(** The reactions a pending promise of the chain carries: the promise with
    identity [2 j] is the value of [stateOp] when the [j]-th unit was
    submitted, the one with identity [2 j + 1] is the [next] of that unit. *)
Definition waitingCall (s : list nat) (j : nat) : list Reaction :=
  match s !! j with
  | Some fn => [CallUnit fn (2 * j + 1)]
  | None => []
  end.

Definition chainPromise (frontier id : nat) (rs : list Reaction)
  (p : Promise) : Prop :=
  if decide (id < frontier)%nat
  then settled p <> None /\ reactions p = []
  else settled p = None /\ reactions p = rs.

(** Where the chain stands: nothing to do, the call of the [k]-th unit is
    queued, the [k]-th unit is running, or the job that settles the
    [stateOp] after the [k]-th unit is queued. *)
Inductive Phase := Idle | JobCall (k : nat) | Running (k : nat) | JobReturn (k : nat).

(** The promises with an identity below the frontier are settled. *)
Definition frontier (n : nat) (ph : Phase) : nat :=
  match ph with
  | Idle => 2 * n + 1
  | JobCall k | Running k => 2 * k + 1
  | JobReturn k => 2 * k + 2
  end.

Definition phaseOK (s : list nat) (ph : Phase) (m : Machine) : Prop :=
  match ph with
  | Idle => jobs m = [] /\ running m = [] /\ started m = s
  | JobCall k =>
    exists fn, s !! k = Some fn /\
      jobs m = [CallUnit fn (2 * k + 1)] /\ running m = [] /\
      started m = take k s
  | Running k =>
    exists fn, s !! k = Some fn /\
      jobs m = [] /\ running m = [(fn, (2 * k + 1)%nat)] /\
      started m = take (S k) s
  | JobReturn k =>
    (k < length s)%nat /\
    jobs m = [ReturnUndefined (2 * k + 2)] /\ running m = [] /\
    started m = take (S k) s
  end.

(** The shape of every reachable machine. *)
Definition Shape (ph : Phase) (m : Machine) : Prop :=
  let s := submitted m in
  let n := length s in
  fresh m = (2 * n + 1)%nat /\ stateOp m = (2 * n)%nat /\ NoDup s /\
  (forall j, (j <= n)%nat ->
     exists p, heap m !! (2 * j)%nat = Some p /\
               chainPromise (frontier n ph) (2 * j) (waitingCall s j) p) /\
  (forall j, (j < n)%nat ->
     exists p, heap m !! (2 * j + 1)%nat = Some p /\
               chainPromise (frontier n ph) (2 * j + 1)
                            [ReturnUndefined (2 * j + 2)] p) /\
  phaseOK s ph m.

(** The phase after a new unit is submitted, and after a job. *)
Definition afterSubmit (n : nat) (ph : Phase) : Phase :=
  match ph with Idle => JobCall n | _ => ph end.

Definition afterReturn (n k : nat) : Phase :=
  if decide (S k < n)%nat then JobCall (S k) else Idle.

(** A run as the trace of its events: a caller calls [runStateOp] with the
    unit [fn], the run time takes the first job of its queue, the running
    unit [fn] finishes with an outcome.  An event that cannot happen (no
    job is queued, the unit is not running) leaves the machine as it is. *)
Inductive Event :=
| Submit (fn : nat)
| RunJob
| Finish (fn : nat) (o : Outcome).

(** The promise that the running unit [fn] settles. *)
Fixpoint promiseOf (fn : nat) (us : list (nat * nat)) : option nat :=
  match us with
  | [] => None
  | (f, q) :: r => if decide (f = fn) then Some q else promiseOf fn r
  end.

Definition event (e : Event) (m : Machine) : Machine :=
  match e with
  | Submit fn => (runStateOp fn m).2
  | RunJob =>
    match jobs m with
    | r :: rest => runJob r rest m
    | [] => m
    end
  | Finish fn o =>
    match promiseOf fn (running m) with
    | Some q => finish fn q o m
    | None => m
    end
  end.

Definition run (es : list Event) : Machine :=
  foldl (fun m e => event e m) initial es.

(** The units that the callers passed to [runStateOp] in a trace, in the
    order of the calls.  This is read off the trace, not off the machine. *)
Fixpoint submits (es : list Event) : list nat :=
  match es with
  | [] => []
  | Submit fn :: r => fn :: submits r
  | _ :: r => submits r
  end.

(** The run goes on without new calls of [runStateOp]: the run time empties
    its job queue, the unit that is running finishes with the next outcome
    of [os], and so on until no unit is running or [os] is used up. *)
Fixpoint settleAll (os : list Outcome) (m : Machine) : Machine :=
  match os with
  | [] => drain 2 m
  | o :: os' =>
    match running (drain 2 m) with
    | (fn, q) :: _ => settleAll os' (finish fn q o (drain 2 m))
    | [] => drain 2 m
    end
  end.

(** The units that have been submitted and not called. *)
Definition waiting (m : Machine) : nat :=
  (length (submitted m) - length (started m))%nat.

(** Two units are submitted one after the other, then the run time takes
    one job: the first unit is running and the second waits. *)
Definition twoUnits : Machine :=
  drain 1 (runStateOp 11 (runStateOp 10 initial).2).2.

End StateQueue.

(** ** Further functions of the source *)

(** [html.replace(/\s+/g, ' ')]: every maximal run of white space becomes
    one space.  [inRun] says that the character before was white space. *)
Fixpoint collapseSpaces (inRun : bool) (s : jsstring) : jsstring :=
  match s with
  | [] => []
  | c :: r =>
    if is_ws c then
      if inRun then collapseSpaces true r else 32 :: collapseSpaces true r
    else c :: collapseSpaces false r
  end.

Definition normalizeHtml (html : jsstring) : jsstring :=
  trim (collapseSpaces false html).

(** The [i] flag on an ASCII letter of a pattern: a character matches it
    when it is the letter in either case (a character outside ASCII never
    canonicalises to an ASCII letter). *)
Definition lower_ascii (c : N) : N :=
  if (65 <=? c) && (c <=? 90) then c + 32 else c.

Fixpoint stripPrefix (ci : bool) (lit s : jsstring) : option jsstring :=
  match lit with
  | [] => Some s
  | p :: lit' =>
    match s with
    | [] => None
    | c :: r =>
      if (if ci then lower_ascii c else c) =? p then stripPrefix ci lit' r
      else None
    end
  end.

Definition HTTP : jsstring := Eval vm_compute in js "http".
Definition COLON_SLASHES : jsstring := Eval vm_compute in js "://".
Definition LOE_ORIGIN : jsstring := Eval vm_compute in
  js "https://api.loe.lviv.ua".
Definition SLASH : N := 47.

(** [/^https?:\/\//i.test(pathname)]: after [http] the optional [s] is
    taken when it is there; giving it back cannot help, the pattern goes on
    with a colon. *)
Definition hasHttpScheme (pathname : jsstring) : bool :=
  match stripPrefix true HTTP pathname with
  | None => false
  | Some r =>
    let r' := match r with
              | c :: r1 => if lower_ascii c =? 115 then r1 else r
              | [] => r
              end in
    match stripPrefix false COLON_SLASHES r' with
    | Some _ => true
    | None => false
    end
  end.

Definition absoluteLoeMediaUrl (pathname : jsstring) : jsstring :=
  if negb (nonempty pathname) then []
  else if hasHttpScheme pathname then pathname
  else
    let p := match pathname with
             | c :: _ => if c =? SLASH then pathname else SLASH :: pathname
             | [] => SLASH :: pathname
             end in
    LOE_ORIGIN ++ p.

(** No two white-space characters in a row. *)
Fixpoint singleSpaced (s : jsstring) : Prop :=
  match s with
  | c :: r =>
    match r with
    | d :: _ => (is_ws c = true -> is_ws d = false) /\ singleSpaced r
    | [] => True
    end
  | [] => True
  end.

(** The only white space is the space character. *)
Definition onlySpaces (s : jsstring) : Prop :=
  Forall (fun c => is_ws c = true -> c = 32) s.

(** [a.join(sep)] for a separator of any length. *)
Fixpoint joinWith (sep : jsstring) (ls : list jsstring) : jsstring :=
  match ls with
  | [] => []
  | [l] => l
  | l :: rest => l ++ sep ++ joinWith sep rest
  end.

Definition COMMA_SP : jsstring := [COMMA; 32].

(** Every comma written as a dot. *)
Definition commaToDot (s : jsstring) : jsstring :=
  map (fun c => if c =? COMMA then DOT else c) s.

(** The subgroup id under which [parseGroupSchedulesFromText] files a line,
    if any. *)
Definition lineGroup (line : jsstring) : option jsstring :=
  match matchGroupLine line with
  | None => None
  | Some m1 => normalizeGroupId m1
  end.

(** ** The store as a JavaScript value *)

(** The store as the value that [normalizeStateShape] reads in
    [writeStateToDisk], and that [JSON.parse] gives back from the text
    [JSON.stringify] wrote for it: a field that is [undefined] is absent
    (a property with the value [undefined] reads as an absent one, and
    [JSON.stringify] leaves it out). *)
Definition optMember (k : string) (v : option json) : list (jsstring * json) :=
  match v with
  | Some x => [(js k, x)]
  | None => []
  end.

Definition jsonOfPendingStep (p : PendingStep) : json :=
  JStr (match p with
        | step_groups => js "groups"
        | step_groups_add => js "groups_add"
        | step_groups_remove => js "groups_remove"
        end).

Definition jsonOfTomorrowStatus (s : TomorrowStatus) : json :=
  JStr (match s with missing => js "missing" | present => js "present" end).

Definition jsonOfUser (u : UserState) : json :=
  JObj (optMember "groups" ((fun gs => JArr (map JStr gs)) <$> groups u)
        ++ optMember "pendingStep" (jsonOfPendingStep <$> pendingStep u)
        ++ optMember "watching" (Some (JBool (watching u)))
        ++ optMember "lastLoeCheckedAt" (JStr <$> lastLoeCheckedAt u)
        ++ optMember "lastLoeNotifiedAt" (JStr <$> lastLoeNotifiedAt u)
        ++ optMember "lastLoeWatchedText" (JStr <$> lastLoeWatchedText u)
        ++ optMember "lastLoeError" (JStr <$> lastLoeError u)
        ++ optMember "lastLoeTomorrowCheckedAt"
             (JStr <$> lastLoeTomorrowCheckedAt u)
        ++ optMember "lastLoeTomorrowNotifiedAt"
             (JStr <$> lastLoeTomorrowNotifiedAt u)
        ++ optMember "lastLoeTomorrowWatchedText"
             (JStr <$> lastLoeTomorrowWatchedText u)
        ++ optMember "lastLoeTomorrowStatus"
             (jsonOfTomorrowStatus <$> lastLoeTomorrowStatus u)
        ++ optMember "lastLoeTomorrowError" (JStr <$> lastLoeTomorrowError u)).

Definition jsonOfState (st : BotState) : json :=
  JObj [(js "users",
         JObj (map (fun '(chatId, u) => (chatId, jsonOfUser u))
                   (map_to_list (users st))))].

(** ** The scheduler pass and the state operations of the commands *)

(** [checkAllWatchingChats]: the chats are checked one after the other, in
    the order [chatIds] of [Object.entries(state.users)]; a check that
    throws ends the pass. *)
Fixpoint checkAllWatchingChats (chatIds : list jsstring) : M unit :=
  match chatIds with
  | [] => ret tt
  | chatId :: rest =>
    checkOneChat chatId false ;;; checkAllWatchingChats rest
  end.

(** The unit of [checkLikeCheckCommand]. *)
Definition checkCommandOp (chatId : jsstring) : M unit :=
  ensureUser chatId ;;; checkOneChat chatId true.

(** The two units of [watchLikeWatchCommand]. *)
Definition watchOp (chatId : jsstring) : M unit :=
  ensureUser chatId ;;;
  updUser chatId (set_watching true) ;;;
  writeStateToDisk.

Definition baselineCheckOp (chatId : jsstring) : M unit :=
  ensureUser chatId ;;; checkOneChat chatId false.

(** The unit of the [start] handler. *)
Definition startOp (chatId : jsstring) : M unit :=
  ensureUser chatId ;;;
  updUser chatId (set_pendingStep (Some step_groups)) ;;;
  writeStateToDisk.

(** ** What a computation is confined to *)

(** The settings of a subscriber, which only commands change. *)
Definition sameSettings (u u' : UserState) : Prop :=
  groups u' = groups u /\ watching u' = watching u /\
  pendingStep u' = pendingStep u.

(** [m] is confined to the chat [chatId]: it leaves the records of the
    other chats as they are, neither creates nor removes the record of
    [chatId] nor changes its settings, and sends messages to [chatId]
    only. *)
Definition confinedTo {A} (chatId : jsstring) (m : M A) : Prop :=
  forall env w,
    (forall x, x <> chatId ->
       users (state (m env w).2) !! x = users (state w) !! x) /\
    option_Forall2 sameSettings (users (state w) !! chatId)
                   (users (state (m env w).2) !! chatId) /\
    exists new,
      outbox (m env w).2 = outbox w ++ new /\
      Forall (fun s => to s = chatId) new.

(** The chat [x] is not watched: it has no record, or [watching] is off. *)
Definition unwatched (w : World) (x : jsstring) : Prop :=
  match users (state w) !! x with
  | Some u => watching u = false
  | None => True
  end.

(** What [checkBody] throws when the upstream answer has no schedule for
    today. *)
Definition upstreamError (answer : FetchOutcome) : option jsstring :=
  match answer with
  | FetchFailed msg => Some msg
  | Fetched None _ => Some MSG_NO_TODAY
  | Fetched (Some _) _ => None
  end.

(** The message of [fetchLoePhotoGraficMenuItems] for an answer with
    status 502. *)
Definition HTTP_502 : jsstring := Eval vm_compute in
  js "HTTP 502 when calling LOE API".

(** No promise of the chain of [stateOp] (the promises with an even
    identity) is rejected. *)
Definition chainNeverRejected (m : StateQueue.Machine) : Prop :=
  forall j p,
    StateQueue.heap m !! (2 * j)%nat = Some p ->
    StateQueue.settled p <> Some StateQueue.Rejected.

(** Two units are submitted; the first is called and rejects, and the run
    time takes the two jobs that follow: the second unit is running. *)
Definition secondUnitCalled : StateQueue.Machine :=
  StateQueue.drain 2
    (StateQueue.finish 10 1 StateQueue.Rejected StateQueue.twoUnits).

(** ** The handlers that change the subgroups *)

Definition ADD_GROUP : jsstring := Eval vm_compute in js "add_group".
Definition GROUPS_ADD : jsstring := Eval vm_compute in js "groups_add".
Definition REMOVE_GROUP : jsstring := Eval vm_compute in js "remove_group".
Definition GROUPS_REMOVE : jsstring := Eval vm_compute in js "groups_remove".

(** [\w] *)
Definition is_word (c : N) : bool :=
  ((48 <=? c) && (c <=? 57)) || ((65 <=? c) && (c <=? 90)) ||
  ((97 <=? c) && (c <=? 122)) || (c =? 95).

(** [(@\w+)?] at the start of [s]: what follows the match. *)
Definition skipMention (s : jsstring) : jsstring :=
  match s with
  | c :: r =>
    if c =? 64 then
      match span is_word r with
      | ([], _) => s
      | (_, rest) => rest
      end
    else s
  | [] => s
  end.

(** [text.replace(/^\/(n1|n2)(@\w+)?/i, '')] for two command names in lower
    case. *)
Definition stripCommand (n1 n2 text : jsstring) : jsstring :=
  match text with
  | c :: r =>
    if c =? SLASH then
      match stripPrefix true n1 r with
      | Some rest => skipMention rest
      | None =>
        match stripPrefix true n2 r with
        | Some rest => skipMention rest
        | None => text
        end
      end
    else text
  | [] => text
  end.

(** The unit that asks for a reply: the pending step is set and the state
    written. *)
Definition askStepOp (chatId : jsstring) (step : PendingStep) : M unit :=
  ensureUser chatId ;;;
  updUser chatId (set_pendingStep (Some step)) ;;;
  writeStateToDisk.

(** The state operation of [addGroupCommand] for a message with the text
    [text].  The replies to the chat ([ctx.reply]) are not part of it, and
    the forced check that follows a change is a unit of its own
    ([checkCommandOp]). *)
Definition addGroupCommand (chatId text : jsstring) : M unit :=
  let tail := trim (stripCommand ADD_GROUP GROUPS_ADD text) in
  if nonempty tail then applyGroupsInput AddGroups chatId tail
  else askStepOp chatId step_groups_add.

(** The state operation of [removeGroupCommand]. *)
Definition removeGroupCommand (chatId text : jsstring) : M unit :=
  let tail := trim (stripCommand REMOVE_GROUP GROUPS_REMOVE text) in
  if nonempty tail then applyGroupsInput RemoveGroups chatId tail
  else askStepOp chatId step_groups_remove.

(** [msg.startsWith('/')] *)
Definition startsWithSlash (msg : jsstring) : bool :=
  match msg with
  | c :: _ => c =? SLASH
  | [] => false
  end.

Definition actionOf (p : PendingStep) : GroupsAction :=
  match p with
  | step_groups => InitialSet
  | step_groups_add => AddGroups
  | step_groups_remove => RemoveGroups
  end.

(** The state operation of the [text] handler; [pending] is the pending
    step that the handler read from the record of the chat when the message
    arrived ([state.users[chatId]?.pendingStep]). *)
Definition textHandlerOp (pending : option PendingStep)
  (chatId text : jsstring) : M unit :=
  let msg := trim text in
  if negb (nonempty msg) then ret tt
  else if startsWithSlash msg then ret tt
  else
    match pending with
    | Some p => applyGroupsInput (actionOf p) chatId msg
    | None => ret tt
    end.

(** What the disk holds after a unit that writes the state once, as its
    last action. *)
Definition writtenOnce (env : Env) (w w' : World) : Prop :=
  (writeError env (writes w) = None -> disk w' = Some (state w')) /\
  (forall msg, writeError env (writes w) = Some msg -> disk w' = disk w).

(** The record of the chat after a change of its subgroups by the action
    [a]: pending step, today baseline and last error are cleared, the
    notification time and everything about tomorrow are kept. *)
Definition resetsToday (a : GroupsAction) (chatId : jsstring) (env : Env)
  (w w' : World) : Prop :=
  let before := default newUser (users (state w) !! chatId) in
  (exists u',
     users (state w') !! chatId = Some u' /\
     pendingStep u' = None /\ lastLoeWatchedText u' = None /\
     lastLoeError u' = None /\
     lastLoeNotifiedAt u' = lastLoeNotifiedAt before /\
     lastLoeTomorrowStatus u' = lastLoeTomorrowStatus before /\
     lastLoeTomorrowWatchedText u' = lastLoeTomorrowWatchedText before /\
     lastLoeTomorrowNotifiedAt u' = lastLoeTomorrowNotifiedAt before /\
     watching u' = match a with
                   | InitialSet => true
                   | _ => watching before
                   end) /\
  writtenOnce env w w'.

(** The record of the chat after a command without text: only the pending
    step has changed. *)
Definition asksFor (step : PendingStep) (chatId : jsstring) (env : Env)
  (w w' : World) : Prop :=
  let before := default newUser (users (state w) !! chatId) in
  users (state w') !! chatId = Some (set_pendingStep (Some step) before) /\
  writtenOnce env w w'.

(** * Properties *)

(** ** Strings *)

Section StringFacts.

Lemma trim_start_head_ok s : head_ok (trim_start s).
Proof.
  induction s as [|c r IH]; simpl; [done|].
  destruct (is_ws c) eqn:E; [done|]. simpl. done.
Qed.

Lemma trim_start_id s : head_ok s -> trim_start s = s.
Proof. destruct s as [|c r]; simpl; [done|]. by intros ->. Qed.

Lemma trim_end_nil_iff s : trim_end s = [] <-> Forall (fun c => is_ws c = true) s.
Proof.
  induction s as [|c r IH]; simpl.
  - split; [constructor | done].
  - destruct (trim_end r) as [|d r'] eqn:E.
    + destruct (is_ws c) eqn:Ec.
      * split; [intros _; constructor; [done | by apply IH] | done].
      * split; [done | intros H; inversion H; congruence].
    + split; [done|]. intros H. inversion H as [|? ? ? Hr]; subst.
      apply IH in Hr. done.
Qed.

Lemma last_cons_cons {A} (a b : A) l : last (a :: b :: l) = last (b :: l).
Proof. done. Qed.

Lemma trim_end_id s : last_ok s -> trim_end s = s.
Proof.
  unfold last_ok. induction s as [|c r IH]; [done|].
  destruct r as [|d r'].
  - simpl. by intros ->.
  - rewrite last_cons_cons. intros H. specialize (IH H).
    change (trim_end (c :: d :: r')) with
      (match trim_end (d :: r') with
       | [] => if is_ws c then [] else [c]
       | x => c :: x end).
    by rewrite IH.
Qed.

Lemma trim_end_last_ok s : last_ok (trim_end s).
Proof.
  unfold last_ok. induction s as [|c r IH]; [done|]. simpl.
  destruct (trim_end r) as [|d r'] eqn:E.
  - destruct (is_ws c) eqn:Ec; simpl; done.
  - rewrite last_cons_cons. done.
Qed.

Lemma trim_end_head_ok s : head_ok s -> head_ok (trim_end s).
Proof.
  destruct s as [|c r]; [done|]. simpl. intros Hc.
  destruct (trim_end r); [by rewrite Hc|]; done.
Qed.

Lemma trim_id s : head_ok s -> last_ok s -> trim s = s.
Proof.
  intros Hh Hl. unfold trim. rewrite trim_start_id by done.
  by apply trim_end_id.
Qed.

Lemma trim_head_ok s : head_ok (trim s).
Proof. apply trim_end_head_ok, trim_start_head_ok. Qed.

Lemma trim_last_ok s : last_ok (trim s).
Proof. apply trim_end_last_ok. Qed.

Lemma trim_idemp s : trim (trim s) = trim s.
Proof. apply trim_id; [apply trim_head_ok | apply trim_last_ok]. Qed.

Lemma trim_fixed_ok s : trim s = s -> head_ok s /\ last_ok s.
Proof. intros <-. split; [apply trim_head_ok | apply trim_last_ok]. Qed.

Lemma trim_start_sub s c : c ∈ trim_start s -> c ∈ s.
Proof.
  induction s as [|d r IH]; simpl; [done|].
  destruct (is_ws d); [|done]. intros H. right. by apply IH.
Qed.

Lemma trim_end_sub s c : c ∈ trim_end s -> c ∈ s.
Proof.
  revert c. induction s as [|d r IH]; simpl; [done|]. intros c.
  destruct (trim_end r) as [|e r'] eqn:E.
  - destruct (is_ws d); [by intros ?%elem_of_nil|].
    intros ->%list_elem_of_singleton. left.
  - intros [->|H]%elem_of_cons; [left|]. right. by apply IH.
Qed.

Lemma trim_sub s c : c ∈ trim s -> c ∈ s.
Proof. intros H. by apply trim_start_sub, trim_end_sub. Qed.

Lemma trim_end_snoc_ws s c : is_ws c = true -> trim_end (s ++ [c]) = trim_end s.
Proof.
  intros Hc. induction s as [|d r IH]; simpl; [by rewrite Hc|].
  by rewrite IH.
Qed.

Lemma trim_start_app s t :
  s ≠ [] -> head_ok s -> trim_start (s ++ t) = s ++ t.
Proof. destruct s as [|c r]; [done|]. simpl. by intros _ ->. Qed.

Lemma trim_snoc_ws s c : is_ws c = true -> trim (s ++ [c]) = trim s.
Proof.
  intros Hc. unfold trim.
  induction s as [|d r IH]; simpl.
  - by rewrite Hc.
  - destruct (is_ws d); [done|].
    change (d :: r ++ [c]) with ((d :: r) ++ [c]).
    by apply trim_end_snoc_ws.
Qed.

(** *** [split] and [join] *)

Lemma split_nonnil sep s : split sep s ≠ [].
Proof.
  destruct s as [|c r]; simpl; [done|].
  destruct (c =? sep); [done|]. by destruct (split sep r).
Qed.

Lemma split_no_sep sep s : Forall (fun l => sep ∉ l) (split sep s).
Proof.
  induction s as [|c r IH]; simpl.
  - constructor; [apply not_elem_of_nil | constructor].
  - destruct (N.eqb_spec c sep) as [->|Hne].
    + constructor; [apply not_elem_of_nil | done].
    + assert (sep ≠ c) as Hsep by congruence.
      destruct (split sep r) as [|l ls].
      * repeat constructor.
        apply not_elem_of_cons. split; [done | apply not_elem_of_nil].
      * apply Forall_cons in IH as [Hl Hls].
        constructor; [|done]. by apply not_elem_of_cons.
Qed.

Lemma split_line sep l : sep ∉ l -> split sep l = [l].
Proof.
  induction l as [|c r IH]; [done|]. intros H. simpl.
  destruct (N.eqb_spec c sep) as [->|Hne]; [set_solver|].
  rewrite IH; [done | set_solver].
Qed.

Lemma split_app_sep sep l rest :
  sep ∉ l -> split sep (l ++ sep :: rest) = l :: split sep rest.
Proof.
  induction l as [|c r IH]; intros H; simpl.
  - by rewrite N.eqb_refl.
  - destruct (N.eqb_spec c sep) as [->|Hne]; [set_solver|].
    rewrite IH; [done | set_solver].
Qed.

Lemma join_cons2 sep l l' ls :
  join sep (l :: l' :: ls) = l ++ sep :: join sep (l' :: ls).
Proof. done. Qed.

Lemma split_join sep ls :
  ls ≠ [] -> Forall (fun l => sep ∉ l) ls -> split sep (join sep ls) = ls.
Proof.
  induction ls as [|l ls IH]; [done|]. intros _ H.
  inversion H as [|? ? Hl Hls]; subst.
  destruct ls as [|l' ls'].
  - simpl. by apply split_line.
  - rewrite join_cons2, split_app_sep by done. f_equal. by apply IH.
Qed.

Lemma join_app_cons sep a l ls :
  join sep (a ++ l :: ls) = join sep (a ++ [l]) ++
    match ls with [] => [] | _ => sep :: join sep ls end.
Proof.
  induction a as [|x a IH]; simpl.
  - destruct ls; [by rewrite app_nil_r | done].
  - destruct a as [|y a']; simpl in *.
    + destruct ls; simpl; [by rewrite app_nil_r|].
      by rewrite <- app_assoc.
    + rewrite IH. by rewrite <- app_assoc.
Qed.

(** *** [replace_crlf] *)

Lemma replace_crlf_line l : LF ∉ l -> replace_crlf l = l.
Proof.
  induction l as [|c r IH]; [done|]. intros H.
  destruct r as [|d r']; [done|].
  change (replace_crlf (c :: d :: r')) with
    (if (c =? CR) && (d =? LF) then LF :: replace_crlf r'
     else c :: replace_crlf (d :: r')).
  destruct (N.eqb_spec d LF) as [->|Hd]; [exfalso; apply H; right; left|].
  rewrite andb_false_r, IH; [done | intros ?; apply H; by right].
Qed.

Lemma last_ok_not_CR l c : last l = Some c -> last_ok l -> c ≠ CR.
Proof. unfold last_ok. intros -> H ->. done. Qed.

Lemma replace_crlf_app_LF l rest :
  LF ∉ l -> last_ok l ->
  replace_crlf (l ++ LF :: rest) = l ++ LF :: replace_crlf rest.
Proof.
  induction l as [|c r IH]; intros Hn Hl.
  - simpl. destruct rest as [|d r']; done.
  - destruct r as [|d r'].
    + simpl. assert (c ≠ CR) as Hc by (by apply (last_ok_not_CR [c])).
      apply N.eqb_neq in Hc. rewrite Hc. simpl.
      destruct rest; done.
    + change (replace_crlf ((c :: d :: r') ++ LF :: rest)) with
        (if (c =? CR) && (d =? LF) then LF :: replace_crlf (r' ++ LF :: rest)
         else c :: replace_crlf ((d :: r') ++ LF :: rest)).
      destruct (N.eqb_spec d LF) as [->|Hd]; [exfalso; apply Hn; right; left|].
      rewrite andb_false_r. rewrite IH; [done | intros ?; apply Hn; by right |].
      unfold last_ok in *. by rewrite last_cons_cons in Hl.
Qed.

Lemma replace_crlf_join ls :
  Forall (fun l => (LF ∉ l) /\ last_ok l) ls ->
  replace_crlf (join LF ls) = join LF ls.
Proof.
  induction ls as [|l ls IH]; [done|]. intros H.
  inversion H as [|? ? [Hn Hl] Hls]; subst.
  destruct ls as [|l' ls'].
  - simpl. by apply replace_crlf_line.
  - rewrite join_cons2, replace_crlf_app_LF by done.
    by rewrite IH.
Qed.

End StringFacts.

(** ** Normalisation *)

Section NormalizeFacts.

Lemma cleanLine_ok l : cleanLine l -> (LF ∉ l) /\ last_ok l.
Proof. intros (_ & Hn & Ht). split; [done|]. by apply trim_fixed_ok. Qed.

Lemma normalizedLines_clean raw : Forall cleanLine (normalizedLines raw).
Proof.
  unfold normalizedLines. apply Forall_forall. intros l Hl.
  apply list_elem_of_filter in Hl as [Hne Hl].
  apply list_elem_of_fmap in Hl as (p & -> & Hp).
  pose proof (split_no_sep LF (replace_crlf raw)) as Hs.
  rewrite Forall_forall in Hs. specialize (Hs p Hp).
  repeat split.
  - intros E. rewrite E in Hne. done.
  - intros H. by apply Hs, trim_sub.
  - apply trim_idemp.
Qed.

Lemma join_head_ok ls : ls ≠ [] -> Forall cleanLine ls -> head_ok (join LF ls).
Proof.
  destruct ls as [|l ls]; [done|]. intros _ H.
  inversion H as [|? ? (Hne & _ & Ht) _]; subst.
  apply trim_fixed_ok in Ht as [Hh _].
  destruct l as [|c r]; [done|]. destruct ls; done.
Qed.

Lemma last_app_cons {A} (l : list A) x r : last (l ++ x :: r) = last (x :: r).
Proof.
  induction l as [|a l IH]; [done|].
  simpl app. destruct (l ++ x :: r) eqn:E; [by destruct l|].
  rewrite last_cons_cons. done.
Qed.

Lemma join_last_ok ls : Forall cleanLine ls -> last_ok (join LF ls).
Proof.
  induction ls as [|l ls IH]; [done|]. intros H.
  inversion H as [|? ? Hl Hls]; subst.
  destruct ls as [|l' ls'].
  - simpl. by apply cleanLine_ok.
  - rewrite join_cons2. unfold last_ok. rewrite last_app_cons.
    specialize (IH Hls). unfold last_ok in IH.
    destruct (join LF (l' :: ls')) as [|c r] eqn:E.
    + exfalso. inversion Hls as [|? ? (Hne & _) _]; subst.
      destruct l'; [done|]. destruct ls'; done.
    + by rewrite last_cons_cons.
Qed.

Lemma trim_join_clean ls : Forall cleanLine ls -> trim (join LF ls) = join LF ls.
Proof.
  intros H. destruct ls as [|l ls]; [done|].
  apply trim_id; [by apply join_head_ok | by apply join_last_ok].
Qed.

Lemma map_trim_clean ls : Forall cleanLine ls -> map trim ls = ls.
Proof.
  induction 1 as [|l ls (_ & _ & Ht) _ IH]; [done|]. simpl. by rewrite Ht, IH.
Qed.

Lemma filter_nonempty_clean ls :
  Forall cleanLine ls -> filter (fun l => nonempty l) ls = ls.
Proof.
  induction 1 as [|l ls (Hne & _) _ IH]; [done|].
  rewrite filter_cons_True; [by rewrite IH|]. by destruct l.
Qed.

(** The lines of a text that is a join of clean lines are those lines. *)
Lemma normalizedLines_join ls :
  Forall cleanLine ls -> normalizedLines (join LF ls) = ls.
Proof.
  intros H. unfold normalizedLines.
  rewrite replace_crlf_join
    by (eapply Forall_impl; [exact H | apply cleanLine_ok]).
  destruct ls as [|l ls]; [done|].
  rewrite split_join; [| done |
    eapply Forall_impl; [exact H | intros ? ?%cleanLine_ok; tauto]].
  rewrite map_trim_clean by done. by apply filter_nonempty_clean.
Qed.

Lemma normalizeMultilineText_join raw :
  normalizeMultilineText raw = join LF (normalizedLines raw).
Proof. apply trim_join_clean, normalizedLines_clean. Qed.

Lemma normalizedLines_normalize raw :
  normalizedLines (normalizeMultilineText raw) = normalizedLines raw.
Proof.
  rewrite normalizeMultilineText_join.
  apply normalizedLines_join, normalizedLines_clean.
Qed.

(** The array [normalizeMultilineText(t).split('\n')]: the lines of [t], or
    the single empty string when there are none. *)
Lemma split_normalize raw :
  split LF (normalizeMultilineText raw) =
  match normalizedLines raw with [] => [[]] | ls => ls end.
Proof.
  rewrite normalizeMultilineText_join.
  pose proof (normalizedLines_clean raw) as H.
  destruct (normalizedLines raw) as [|l ls] eqn:E; [done|].
  apply split_join; [done|].
  eapply Forall_impl; [exact H | intros ? ?%cleanLine_ok; tauto].
Qed.

Lemma filter_cleanLine (P : jsstring -> Prop) `{!forall l, Decision (P l)} ls :
  Forall cleanLine ls -> Forall cleanLine (filter P ls).
Proof.
  intros Hc. apply Forall_forall. intros l [_ Hl]%list_elem_of_filter.
  rewrite Forall_forall in Hc. by apply Hc.
Qed.

Lemma extractGroupLinesOnly_lines text :
  extractGroupLinesOnly text =
  join LF (filter (fun l => isGroupLine l) (normalizedLines text)).
Proof.
  unfold extractGroupLinesOnly. rewrite split_normalize.
  pose proof (normalizedLines_clean text) as H.
  destruct (normalizedLines text) as [|l ls] eqn:E; [done|].
  apply trim_join_clean. by apply filter_cleanLine.
Qed.

End NormalizeFacts.

(** C8: the multiline text normaliser is idempotent:
    [normalize(normalize(x)) == normalize(x)] for every input string. *)
Theorem normalizeMultilineText_idempotent (x : jsstring) :
  normalizeMultilineText (normalizeMultilineText x) = normalizeMultilineText x.
Proof.
  rewrite (normalizeMultilineText_join (normalizeMultilineText x)).
  rewrite normalizedLines_normalize.
  symmetry. apply normalizeMultilineText_join.
Qed.

(** ** Parsing subgroup ids *)

Section ParseFacts.

Lemma span_run p (ds rest : jsstring) :
  Forall (fun c => p c = true) ds ->
  match rest with [] => True | c :: _ => p c = false end ->
  span p (ds ++ rest) = (ds, rest).
Proof.
  intros Hds Hrest. induction Hds as [|c ds Hc _ IH]; simpl.
  - destruct rest as [|c r]; [done|]. simpl. by rewrite Hrest.
  - by rewrite Hc, IH.
Qed.

Lemma span_stop p c (r : jsstring) : p c = false -> span p (c :: r) = ([], c :: r).
Proof. simpl. by intros ->. Qed.

Lemma is_sep_not_digit c : is_sep c = true -> is_digit c = false.
Proof.
  unfold is_sep, is_digit, DOT, COMMA.
  intros [H|H]%orb_true_iff; apply N.eqb_eq in H; by subst.
Qed.

Lemma digit_not_ws c : is_digit c = true -> is_ws c = false.
Proof.
  unfold is_digit. intros [H1 H2]%andb_true_iff.
  apply N.leb_le in H1, H2. unfold is_ws.
  repeat (apply orb_false_intro); try (apply N.eqb_neq; lia).
  apply andb_false_intro1. apply N.leb_gt. lia.
Qed.

Lemma matchGroupToken_token d1 c d2 post :
  digitRun d1 -> is_sep c = true -> digitRun d2 ->
  match post with [] => True | x :: _ => is_digit x = false end ->
  matchGroupToken (d1 ++ c :: d2 ++ post) =
    Some (d1, d2, (length d1 + 1 + length d2)%nat).
Proof.
  intros [Hn1 Hd1] Hc [Hn2 Hd2] Hpost. unfold matchGroupToken.
  rewrite (span_run is_digit d1 (c :: d2 ++ post))
    by (done || by apply is_sep_not_digit).
  destruct d1 as [|x1 d1']; [done|]. rewrite Hc.
  rewrite (span_run is_digit d2 post) by done.
  by destruct d2.
Qed.

Lemma matchGroupToken_nondigit c r :
  is_digit c = false -> matchGroupToken (c :: r) = None.
Proof. intros H. unfold matchGroupToken. by rewrite span_stop. Qed.

Lemma digitRun_trim_ok (d1 d2 : jsstring) :
  digitRun d1 -> digitRun d2 -> trim (d1 ++ DOT :: d2) = d1 ++ DOT :: d2.
Proof.
  intros [Hn1 Hd1] [Hn2 Hd2]. apply trim_id.
  - destruct d1 as [|c r]; [done|]. simpl.
    inversion Hd1; subst. by apply digit_not_ws.
  - unfold last_ok. rewrite last_app_cons.
    destruct d2 as [|c r] using rev_ind; [done|].
    replace (DOT :: r ++ [c]) with ((DOT :: r) ++ [c]) by done.
    rewrite last_snoc. apply Forall_app in Hd2 as [_ Hc].
    inversion Hc; subst. by apply digit_not_ws.
Qed.

Lemma normalizeGroupId_token (d1 d2 : jsstring) :
  digitRun d1 -> digitRun d2 ->
  normalizeGroupId (d1 ++ DOT :: d2) = Some (canonicalId d1 d2).
Proof.
  intros H1 H2. unfold normalizeGroupId.
  rewrite digitRun_trim_ok by done.
  destruct H1 as [Hn1 Hd1], H2 as [Hn2 Hd2].
  assert (nonempty (d1 ++ DOT :: d2) = true) as -> by (by destruct d1).
  simpl negb. cbv iota. unfold matchGroupId.
  rewrite (span_run is_digit d1 (DOT :: d2)) by done.
  destruct d1 as [|x1 d1']; [done|].
  change (is_sep DOT) with true. cbv iota.
  replace d2 with (d2 ++ []) at 1 by apply app_nil_r.
  rewrite (span_run is_digit d2 []) by done.
  by destruct d2.
Qed.

Lemma execLoop_mono s : forall skip out g,
  g ∈ out -> g ∈ execLoop s skip out.
Proof.
  induction s as [|c r IH]; intros skip out g Hg; [done|].
  simpl. destruct skip as [|k]; [|by apply IH].
  destruct (matchGroupToken (c :: r)) as [[[m1 m2] len]|]; [|by apply IH].
  apply IH. destruct (normalizeGroupId _) as [g'|]; [|done].
  destruct (includes out g'); [done|]. set_solver.
Qed.

Lemma execLoop_NoDup s : forall skip out,
  NoDup out -> NoDup (execLoop s skip out).
Proof.
  induction s as [|c r IH]; intros skip out Hout; [done|].
  simpl. destruct skip as [|k]; [|by apply IH].
  destruct (matchGroupToken (c :: r)) as [[[m1 m2] len]|]; [|by apply IH].
  apply IH. destruct (normalizeGroupId _) as [g'|]; [|done].
  unfold includes. case_bool_decide as Hin; [done|].
  apply NoDup_app. repeat split; [done | | apply NoDup_singleton].
  intros x Hx ->%list_elem_of_singleton. done.
Qed.

Lemma execLoop_skip_prefix pre : forall rest out,
  Forall (fun c => is_digit c = false) pre ->
  execLoop (pre ++ rest) O out = execLoop rest O out.
Proof.
  induction pre as [|c r IH]; intros rest out H; [done|].
  inversion H; subst. simpl app.
  change (execLoop (c :: r ++ rest) 0 out) with
    (match matchGroupToken (c :: r ++ rest) with
     | None => execLoop (r ++ rest) O out
     | Some (m1, m2, len) =>
       let out' :=
         match normalizeGroupId (m1 ++ DOT :: m2) with
         | Some g => if includes out g then out else out ++ [g]
         | None => out
         end in
       execLoop (r ++ rest) (pred len) out'
     end).
  rewrite matchGroupToken_nondigit by done. by apply IH.
Qed.

Lemma span_spec p (s : jsstring) :
  s = (span p s).1 ++ (span p s).2 /\
  Forall (fun c => p c = true) (span p s).1.
Proof.
  induction s as [|c r [IH1 IH2]]; simpl; [done|].
  destruct (p c) eqn:Hc; [|done].
  destruct (span p r) as [a b]. simpl in *. split; [by f_equal|].
  by constructor.
Qed.

(** A match consists of digits and one separator. *)
Lemma matchGroupToken_shape s m1 m2 len :
  matchGroupToken s = Some (m1, m2, len) ->
  exists rest,
    s = (m1 ++ [DOT] ++ m2) ++ rest /\ len = length (m1 ++ [DOT] ++ m2) \/
    s = (m1 ++ [COMMA] ++ m2) ++ rest /\ len = length (m1 ++ [COMMA] ++ m2).
Proof.
  unfold matchGroupToken.
  pose proof (span_spec is_digit s) as [Hs _].
  destruct (span is_digit s) as [d1 r1]. simpl in Hs.
  destruct d1 as [|x d1']; [done|]. destruct r1 as [|c r2]; [done|].
  destruct (is_sep c) eqn:Hc; [|done].
  pose proof (span_spec is_digit r2) as [Hr _].
  destruct (span is_digit r2) as [d2 r3]. simpl in Hr.
  destruct d2 as [|y d2']; [done|]. intros [= <- <- <-].
  exists r3. rewrite !length_app, Hs, Hr. cbn [length].
  unfold is_sep in Hc. apply orb_true_iff in Hc as [Hc|Hc];
    apply N.eqb_eq in Hc; subst c; [left | right];
    (split; [by rewrite <- !app_assoc | lia]).
Qed.

Lemma matchGroupToken_digits s m1 m2 len :
  matchGroupToken s = Some (m1, m2, len) ->
  Forall (fun c => is_digit c = true) m1 /\
  Forall (fun c => is_digit c = true) m2.
Proof.
  unfold matchGroupToken.
  pose proof (span_spec is_digit s) as [_ H1].
  destruct (span is_digit s) as [d1 r1]. simpl in H1.
  destruct d1 as [|x d1']; [done|]. destruct r1 as [|c r2]; [done|].
  destruct (is_sep c); [|done].
  pose proof (span_spec is_digit r2) as [_ H2].
  destruct (span is_digit r2) as [d2 r3]. simpl in H2.
  destruct d2 as [|y d2']; [done|]. by intros [= <- <- <-].
Qed.

(** A match that starts before a character that is neither a digit nor a
    separator ends before it. *)
Lemma matchGroupToken_within (q : jsstring) c rest m1 m2 len :
  is_digit c = false -> is_sep c = false ->
  matchGroupToken (q ++ c :: rest) = Some (m1, m2, len) ->
  (len <= length q)%nat.
Proof.
  intros Hd Hs Hm.
  destruct (matchGroupToken_digits _ _ _ _ Hm) as [H1 H2].
  assert (forall sep m, is_sep sep = true -> m = m1 ++ [sep] ++ m2 ->
            forall rest', q ++ c :: rest = m ++ rest' ->
            (length m <= length q)%nat) as Hin.
  { intros sep m Hsep -> rest' Heq.
    destruct (decide (length (m1 ++ [sep] ++ m2) <= length q)%nat) as [|Hgt];
      [done|]. exfalso.
    assert ((q ++ c :: rest) !! length q = Some c) as Hc
      by (by rewrite list_lookup_middle).
    rewrite Heq, lookup_app_l in Hc by lia.
    apply list_elem_of_lookup_2 in Hc.
    apply elem_of_app in Hc as [Hc|Hc].
    - rewrite Forall_forall in H1. specialize (H1 c Hc). congruence.
    - apply elem_of_app in Hc as [Hc|Hc].
      + apply list_elem_of_singleton in Hc. congruence.
      + rewrite Forall_forall in H2. specialize (H2 c Hc). congruence. }
  destruct (matchGroupToken_shape _ _ _ _ Hm) as [rest' [[Heq ->]|[Heq ->]]].
  - by apply (Hin DOT _ eq_refl eq_refl rest').
  - by apply (Hin COMMA _ eq_refl eq_refl rest').
Qed.

(** The loop passes a delimiter with nothing pending: the matches before it
    are complete, and what they added is kept. *)
Lemma execLoop_delimited c rest :
  is_digit c = false -> is_sep c = false ->
  forall pre skip out,
    (skip <= length pre)%nat ->
    exists out',
      execLoop (pre ++ c :: rest) skip out = execLoop rest O out'.
Proof.
  intros Hd Hs. induction pre as [|a p IH]; intros skip out Hskip.
  - assert (skip = O) as -> by (simpl in Hskip; lia).
    exists out. simpl app.
    change (execLoop (c :: rest) 0 out) with
      (match matchGroupToken (c :: rest) with
       | None => execLoop rest O out
       | Some (m1, m2, len) =>
         let out' :=
           match normalizeGroupId (m1 ++ DOT :: m2) with
           | Some g => if includes out g then out else out ++ [g]
           | None => out
           end in
         execLoop rest (pred len) out'
       end).
    by rewrite matchGroupToken_nondigit.
  - destruct skip as [|k].
    + simpl app.
      change (execLoop (a :: p ++ c :: rest) 0 out) with
        (match matchGroupToken (a :: p ++ c :: rest) with
         | None => execLoop (p ++ c :: rest) O out
         | Some (m1, m2, len) =>
           let out' :=
             match normalizeGroupId (m1 ++ DOT :: m2) with
             | Some g => if includes out g then out else out ++ [g]
             | None => out
             end in
           execLoop (p ++ c :: rest) (pred len) out'
         end).
      destruct (matchGroupToken (a :: p ++ c :: rest))
        as [[[m1 m2] len]|] eqn:Hm.
      * apply (matchGroupToken_within (a :: p)) in Hm; [|done..].
        cbv zeta. apply IH. simpl in Hm. lia.
      * apply IH. lia.
    + simpl. apply IH. simpl in Hskip. lia.
Qed.

(** From the start of a token with nothing pending, the loop records its
    canonical id. *)
Lemma execLoop_token d1 sep d2 post out :
  digitRun d1 -> is_sep sep = true -> digitRun d2 ->
  match post with [] => True | x :: _ => is_digit x = false end ->
  canonicalId d1 d2 ∈ execLoop (d1 ++ sep :: d2 ++ post) O out.
Proof.
  intros H1 Hsep H2 Hpost.
  destruct d1 as [|c r] eqn:E; [by destruct H1|]. rewrite <- E in *.
  assert (d1 ++ sep :: d2 ++ post = c :: (r ++ sep :: d2 ++ post)) as Hshape
    by (by rewrite E).
  rewrite Hshape.
  change (execLoop (c :: r ++ sep :: d2 ++ post) 0 out) with
    (match matchGroupToken (c :: r ++ sep :: d2 ++ post) with
     | None => execLoop (r ++ sep :: d2 ++ post) O out
     | Some (m1, m2, len) =>
       let out' :=
         match normalizeGroupId (m1 ++ DOT :: m2) with
         | Some g => if includes out g then out else out ++ [g]
         | None => out
         end in
       execLoop (r ++ sep :: d2 ++ post) (pred len) out'
     end).
  rewrite <- Hshape, matchGroupToken_token by done.
  rewrite normalizeGroupId_token by done.
  apply execLoop_mono. unfold includes.
  case_bool_decide as Hin; [done|].
  apply elem_of_app. right. left.
Qed.

Lemma parseGroups_valid raw :
  Forall (fun g => g ∈ POSSIBLE_GROUPS) (parseGroupsFromUserInput raw).
Proof.
  apply Forall_forall. by intros g [H _]%list_elem_of_filter.
Qed.

Lemma parseGroups_NoDup raw : NoDup (parseGroupsFromUserInput raw).
Proof. apply NoDup_filter, execLoop_NoDup, NoDup_nil_2. Qed.

Lemma parseGroups_inv raw : GroupsInv (parseGroupsFromUserInput raw).
Proof. split; [apply parseGroups_NoDup | apply parseGroups_valid]. Qed.

End ParseFacts.

(** C10: a token [<digits><'.' or ','><digits>] whose numeric values form a
    valid subgroup is accepted whatever its zero padding: the result of
    [parseGroupsFromUserInput] contains the canonical dotted id.  The token
    stands in the input after text that holds no digit or ends with a
    character that is neither a digit nor a separator, and before text that
    does not continue its last number. *)
Theorem parseGroups_accepts_padded_token
  (pre d1 d2 post : jsstring) (sep : N) :
  tokenBoundary pre ->
  digitRun d1 -> is_sep sep = true -> digitRun d2 ->
  match post with [] => True | x :: _ => is_digit x = false end ->
  canonicalId d1 d2 ∈ POSSIBLE_GROUPS ->
  canonicalId d1 d2 ∈ parseGroupsFromUserInput (pre ++ d1 ++ sep :: d2 ++ post).
Proof.
  intros Hpre H1 Hsep H2 Hpost Hvalid. unfold parseGroupsFromUserInput.
  apply list_elem_of_filter. split; [done|].
  destruct Hpre as [Hpre|Hpre].
  - rewrite execLoop_skip_prefix by done. by apply execLoop_token.
  - destruct pre as [|c p _] using rev_ind; [by apply execLoop_token|].
    rewrite last_snoc in Hpre. destruct Hpre as [Hd Hs].
    rewrite <- app_assoc. cbn [app].
    destruct (execLoop_delimited c (d1 ++ sep :: d2 ++ post) Hd Hs p O []
                ltac:(lia)) as [out' ->].
    by apply execLoop_token.
Qed.

Lemma parseGroups_accepts_padded_token_witness :
  js "1.1" ∈ parseGroupsFromUserInput (js "3.2; 01,1").
Proof.
  apply (parseGroups_accepts_padded_token (js "3.2; ") (js "01") (js "1")
           [] COMMA).
  - right. vm_compute. split; reflexivity.
  - split; [done | by repeat constructor].
  - reflexivity.
  - split; [done | by repeat constructor].
  - exact I.
  - vm_compute. left.
Defined.

(** ** The subgroups of a subscriber *)

(** Symbolic execution of a computation in [M]: the plumbing of the monad,
    the primitive effects and the fields of the world are evaluated, the
    pure functions of the program are left folded. *)
Ltac mrun0 :=
  lazy beta iota zeta delta
    [bind ret throw try_catch attempt newDate dateOf
     fetchLoePhotoGraficMenuItems writeStateToDisk sendMessage newArray
     getUser updUser ensureUser headerLinesArray arr_ref arr_items
     fst snd state disk outbox ticks fetches writes sends allocs users
     default from_option id].

Ltac mrun :=
  lazy beta iota zeta delta
    [bind ret throw try_catch attempt newDate dateOf
     fetchLoePhotoGraficMenuItems writeStateToDisk sendMessage newArray
     getUser updUser ensureUser headerLinesArray arr_ref arr_items
     fst snd state disk outbox ticks fetches writes sends allocs users
     default from_option id] in *.

(** Field reads after field assignments. *)
Ltac usimpl :=
  cbn [groups pendingStep watching lastLoeCheckedAt lastLoeNotifiedAt
       lastLoeWatchedText lastLoeError lastLoeTomorrowCheckedAt
       lastLoeTomorrowNotifiedAt lastLoeTomorrowWatchedText
       lastLoeTomorrowStatus lastLoeTomorrowError
       set_groups set_pendingStep set_watching set_lastLoeCheckedAt
       set_lastLoeNotifiedAt set_lastLoeWatchedText set_lastLoeError
       set_lastLoeTomorrowCheckedAt set_lastLoeTomorrowNotifiedAt
       set_lastLoeTomorrowWatchedText set_lastLoeTomorrowStatus
       set_lastLoeTomorrowError newUser
       r_iso r_local to kind text
       default from_option fmap option_fmap option_map id] in *.

(** One case distinction on what the run depends on next: the answer of the
    file system or of the transport, or a condition of the program. *)
Ltac mstep :=
  match goal with
  | |- context [match writeError ?e ?n with _ => _ end] =>
    destruct (writeError e n) eqn:?
  | |- context [match sendError ?e ?n with _ => _ end] =>
    destruct (sendError e n) eqn:?
  | |- context [if ?b then _ else _] => destruct b eqn:?
  end; mrun0.

(** Case analysis on the next answer of the file system or of the chat
    transport. *)
Ltac case_write :=
  match goal with
  | |- context [writeError ?e ?n] => destruct (writeError e n) eqn:?
  end.
Ltac case_send :=
  match goal with
  | |- context [sendError ?e ?n] => destruct (sendError e n) eqn:?
  end.

Section GroupsFacts.

Lemma GroupsInv_nil : GroupsInv [].
Proof. split; [apply NoDup_nil_2 | constructor]. Qed.

Lemma dedupeFirst_spec l : forall seen,
  NoDup (dedupeFirst seen l) /\
  forall x, x ∈ dedupeFirst seen l -> x ∈ l /\ x ∉ seen.
Proof.
  induction l as [|g r IH]; intros seen; simpl.
  - split; [apply NoDup_nil_2 | by intros x ?%elem_of_nil].
  - unfold includes. case_bool_decide as Hin.
    + destruct (IH seen) as [Hnd Hsub]. split; [done|].
      intros x Hx. destruct (Hsub x Hx). split; [by right | done].
    + destruct (IH (seen ++ [g])) as [Hnd Hsub]. split.
      * apply NoDup_cons. split; [|done].
        intros Hg. destruct (Hsub g Hg) as [_ Hn].
        apply Hn, elem_of_app. right. left.
      * intros x [->|Hx]%elem_of_cons; [split; [left | done]|].
        destruct (Hsub x Hx) as [? Hn]. split; [by right|].
        intros ?. apply Hn, elem_of_app. by left.
Qed.

Lemma GroupsInv_add cur toAdd :
  GroupsInv cur -> GroupsInv toAdd -> GroupsInv (dedupeFirst [] (cur ++ toAdd)).
Proof.
  intros [_ Hc] [_ Ha]. destruct (dedupeFirst_spec (cur ++ toAdd) []) as [Hnd Hsub].
  split; [done|]. apply Forall_forall. intros x Hx.
  destruct (Hsub x Hx) as [Hin _].
  rewrite Forall_forall in Hc, Ha.
  apply elem_of_app in Hin as [?|?]; auto.
Qed.

Lemma GroupsInv_remove cur toRemove :
  GroupsInv cur ->
  GroupsInv (filter (fun g => negb (includes toRemove g)) cur).
Proof.
  intros [Hnd Hc]. split; [by apply NoDup_filter|].
  apply Forall_forall. intros x [_ Hx]%list_elem_of_filter.
  rewrite Forall_forall in Hc. by apply Hc.
Qed.

Lemma lookup_assignUser (chatId : jsstring) (v : UserState)
  (us : gmap jsstring UserState) :
  assignUser chatId v us !! chatId =
  if bool_decide (chatId = PROTO) then us !! chatId else Some v.
Proof.
  unfold assignUser. case_bool_decide; [done|]. apply lookup_insert_eq.
Qed.

(** What the three state operations leave in [groups]. *)
Lemma groupsOf_setGroupsOp (chatId : jsstring) (gs : list jsstring)
  (env : Env) (w : World) :
  groupsOf chatId (setGroupsOp chatId gs env w).2 = gs \/
  groupsOf chatId (setGroupsOp chatId gs env w).2 = [].
Proof.
  unfold setGroupsOp, groupsOf. mrun.
  destruct (users (state w) !! chatId) as [u|] eqn:Hu; mrun;
    case_write; mrun;
    rewrite !lookup_alter_eq, ?lookup_assignUser;
    try case_bool_decide; rewrite ?Hu; usimpl;
    solve [by left | by right | done].
Qed.

Lemma groupsOf_addGroupsOp (chatId : jsstring) (toAdd : list jsstring)
  (env : Env) (w : World) :
  groupsOf chatId (addGroupsOp chatId toAdd env w).2 =
    dedupeFirst [] (groupsOf chatId w ++ toAdd) \/
  groupsOf chatId (addGroupsOp chatId toAdd env w).2 = [].
Proof.
  unfold addGroupsOp, groupsOf. mrun.
  destruct (users (state w) !! chatId) as [u|] eqn:Hu; mrun;
    case_write; mrun;
    rewrite !lookup_alter_eq, ?lookup_assignUser;
    try case_bool_decide; rewrite ?Hu; usimpl;
    solve [by left | by right | done].
Qed.

Lemma groupsOf_removeGroupsOp (chatId : jsstring) (toRemove : list jsstring)
  (env : Env) (w : World) :
  groupsOf chatId (removeGroupsOp chatId toRemove env w).2 =
    filter (fun g => negb (includes toRemove g)) (groupsOf chatId w).
Proof.
  unfold removeGroupsOp, groupsOf. mrun.
  destruct (users (state w) !! chatId) as [u|] eqn:Hu; mrun;
    case_write; mrun;
    rewrite !lookup_alter_eq, ?lookup_assignUser;
    try case_bool_decide; rewrite ?Hu; usimpl;
    solve [by left | by right | done].
Qed.

End GroupsFacts.

(** Loading does not establish the invariant: a state file whose [groups]
    array holds an unknown id twice is loaded as it is.  The parsed value is
    [{"users": {"1": {"groups": ["9.9", "9.9"]}}}]. *)
Lemma load_keeps_invalid_groups :
  let parsed :=
    JObj [(js "users",
           JObj [(js "1",
                  JObj [(js "groups",
                         JArr [JStr (js "9.9"); JStr (js "9.9")])])])] in
  exists u,
    users (normalizeStateShape parsed) !! js "1" = Some u /\
    groups u = Some [js "9.9"; js "9.9"] /\
    ~ GroupsInv (default [] (groups u)).
Proof.
  eexists. split; [vm_compute; reflexivity|]. split; [reflexivity|].
  intros [Hnd _]. simpl in Hnd. apply NoDup_cons in Hnd as [Hnot _].
  apply Hnot. left.
Qed.

(** C4 (amended): the three commands keep the invariant of
    [UserState.groups] (only valid subgroup ids, no duplicates): a
    successful initial set establishes it, and add and remove preserve
    it.  The chat id is one that names no property of [Object.prototype],
    as every numeral [String(ctx.chat.id)] is. *)
Theorem groups_invariant_commands
  (a : GroupsAction) (chatId raw : jsstring) (env : Env) (w : World) :
  chatId ∉ OBJECT_PROTOTYPE_KEYS ->
  (a = InitialSet /\ parseGroupsFromUserInput raw <> []) \/
    GroupsInv (groupsOf chatId w) ->
  GroupsInv (groupsOf chatId (applyGroupsInput a chatId raw env w).2).
Proof.
  intros _ H. unfold applyGroupsInput.
  pose proof (parseGroups_inv raw) as Hp.
  destruct (parseGroupsFromUserInput raw) as [|g gs] eqn:Hparse.
  - destruct H as [[_ ?]|H]; [done|]. exact H.
  - destruct a.
    + destruct (groupsOf_setGroupsOp chatId (g :: gs) env w) as [-> | ->];
        [done | apply GroupsInv_nil].
    + destruct H as [[? _]|H]; [done|].
      destruct (groupsOf_addGroupsOp chatId (g :: gs) env w) as [-> | ->];
        [by apply GroupsInv_add | apply GroupsInv_nil].
    + destruct H as [[? _]|H]; [done|].
      rewrite groupsOf_removeGroupsOp. by apply GroupsInv_remove.
Qed.

Lemma groups_invariant_commands_witness :
  GroupsInv
    (groupsOf Scenario.chat
       (applyGroupsInput AddGroups Scenario.chat (js "3,2; 1.1")
          (Scenario.envOf (Fetched None None))
          (Scenario.worldOf Scenario.freshUser)).2).
Proof.
  apply (groups_invariant_commands AddGroups Scenario.chat (js "3,2; 1.1")
           (Scenario.envOf (Fetched None None))
           (Scenario.worldOf Scenario.freshUser)).
  - apply (bool_decide_unpack _). vm_compute. exact I.
  - right. vm_compute. split; [apply NoDup_singleton | repeat constructor].
Defined.

(** ** Loading the persisted state *)

Section LoadFacts.

Lemma lookup_fold_assign (ms : list (jsstring * json)) :
  forall (acc : gmap jsstring UserState) (chatId : jsstring),
  chatId ≠ PROTO ->
  fold_left (fun us '(k, raw) => assignUser k (normalizeUser raw) us) ms acc
    !! chatId =
  match Json.lookup_last chatId ms with
  | Some raw => Some (normalizeUser raw)
  | None => acc !! chatId
  end.
Proof.
  induction ms as [|[k v] r IH]; intros acc chatId Hne; [done|].
  simpl. rewrite IH by done.
  destruct (Json.lookup_last chatId r) as [v'|]; [done|].
  unfold assignUser. case_bool_decide as Hk.
  - subst k. by rewrite bool_decide_eq_false_2 by done.
  - case_bool_decide as Hkc.
    + subst. apply lookup_insert_eq.
    + by apply lookup_insert_ne.
Qed.

Lemma lookup_normalizeStateShape (parsed : json) (chatId : jsstring) :
  hasUsersObject parsed = true -> chatId ≠ PROTO ->
  users (normalizeStateShape parsed) !! chatId =
  normalizeUser <$>
    Json.lookup_last chatId
      (Json.entries (default (JObj []) (Json.prop parsed "users"))).
Proof.
  intros Hshape Hne. unfold normalizeStateShape.
  destruct parsed as [| | | | |ms]; try done.
  simpl in Hshape. unfold Json.prop.
  destruct (Json.lookup_last (js "users") ms) as [v|]; [|done].
  assert (Json.truthy (Some v) && Json.isObject (Some v) = true) as ->
    by (by destruct v).
  cbn [users default]. rewrite lookup_fold_assign by done.
  rewrite lookup_empty. unfold id.
  by destruct (Json.lookup_last chatId (Json.entries v)).
Qed.

Lemma normalizeUser_not_object (raw : json) :
  Json.isObject (Some raw) = false -> normalizeUser raw = newUser.
Proof. by destruct raw. Qed.

End LoadFacts.

(** C7: loading the persisted state never fails.  Whatever the file system
    and [JSON.parse] answer, [readStateFromDisk] returns a store: the empty
    store when the file is missing or unreadable, when its content is not
    JSON, or when the parsed value is not an object with a [users] object;
    otherwise the normalised store, which holds for every key of [users] the
    record rebuilt from its value, a value that is not an object giving the
    default record and a field of the wrong type being dropped. *)
Theorem readStateFromDisk_never_fails
  (JSON_parse : jsstring -> option json) (file : ReadOutcome) :
  exists st,
    readStateFromDisk JSON_parse file = Ok st /\
    match file with
    | ReadOk raw =>
      match JSON_parse raw with
      | Some parsed =>
        if hasUsersObject parsed then
          st = normalizeStateShape parsed /\
          (forall chatId, chatId ≠ PROTO ->
             users st !! chatId =
             normalizeUser <$>
               Json.lookup_last chatId
                 (Json.entries (default (JObj []) (Json.prop parsed "users")))) /\
          (forall v, Json.isObject (Some v) = false -> normalizeUser v = newUser) /\
          (forall v s, lastLoeWatchedText (normalizeUser v) = Some s ->
             Json.prop v "lastLoeWatchedText" = Some (JStr s)) /\
          (forall v gs, groups (normalizeUser v) = Some gs ->
             exists items, Json.prop v "groups" = Some (JArr items) /\
                           gs = stringItems items)
        else st = emptyState
      | None => st = emptyState
      end
    | ReadENOENT | ReadFailed => st = emptyState
    end.
Proof.
  unfold readStateFromDisk, readStateFromDisk_try.
  destruct file as [raw| |]; [|by eexists..].
  destruct (JSON_parse raw) as [parsed|]; [|by eexists].
  destruct (hasUsersObject parsed) eqn:Hshape.
  - assert (Json.isObject (Some parsed)
            && bool_decide (is_Some (Json.prop parsed "users"))
            && Json.isObject (Json.prop parsed "users") = true) as ->.
    { destruct parsed as [| | | | |ms]; try done. simpl in *.
      destruct (Json.lookup_last (js "users") ms) as [v|]; [|done].
      rewrite bool_decide_eq_true_2 by eauto. done. }
    eexists. split; [done|]. split; [done|]. split.
    { intros chatId Hne. by apply lookup_normalizeStateShape. }
    split; [apply normalizeUser_not_object|]. split.
    + intros v s. unfold normalizeUser. cbn [lastLoeWatchedText].
      destruct (Json.isObject (Some v)) eqn:Hv.
      * destruct (Json.prop v "lastLoeWatchedText") as [[]|]; simpl; congruence.
      * done.
    + intros v gs. unfold normalizeUser. cbn [groups].
      destruct (Json.isObject (Some v)) eqn:Hv; [|done].
      destruct (Json.prop v "groups") as [[]|]; simpl; try done.
      intros [= <-]. by eexists.
  - assert (Json.isObject (Some parsed)
            && bool_decide (is_Some (Json.prop parsed "users"))
            && Json.isObject (Json.prop parsed "users") = false) as ->.
    { destruct parsed as [| | | | |ms]; try done. simpl in *.
      destruct (Json.lookup_last (js "users") ms) as [v|]; [|done].
      rewrite Hshape. apply andb_false_r. }
    by eexists.
Qed.

(** ** The check of one chat *)

Section CheckFacts.

Lemma neq_add_S (a k : nat) : (a =? S (k + a))%nat = false.
Proof. apply Nat.eqb_neq. lia. Qed.

(** Two arrays created one after the other are different objects: [!==]
    between them holds whatever they contain. *)
Lemma headerLinesArray_fresh (t1 t2 : jsstring) (env : Env) (w : World) :
  match headerLinesArray t1 env w with
  | (Ok a1, w1) =>
    match headerLinesArray t2 env w1 with
    | (Ok a2, _) => array_strict_ne a1 a2 = true
    | _ => False
    end
  | _ => False
  end.
Proof.
  mrun0. unfold array_strict_ne. cbn [arr_ref].
  change (S (S (S (S (S (allocs w)))))) with (S (2 + S (S (allocs w)))).
  by rewrite neq_add_S.
Qed.

(** Turn the recorded outcomes of conditions into plain facts. *)
Ltac bool_hyps :=
  repeat match goal with
  | H : negb _ = true |- _ => apply negb_true_iff in H
  | H : negb _ = false |- _ => apply negb_false_iff in H
  | H : _ && _ = true |- _ => apply andb_true_iff in H as [? ?]
  | H : _ || _ = false |- _ => apply orb_false_iff in H as [? ?]
  | H : bool_decide _ = true |- _ => apply bool_decide_eq_true in H
  | H : bool_decide _ = false |- _ => apply bool_decide_eq_false in H
  end.

Ltac solve_user Hu :=
  rewrite ?lookup_alter_eq, Hu; reflexivity.

Ltac solve_outbox :=
  first [reflexivity | symmetry; apply app_nil_r].

(** Close the cases of a run: name the record and the messages, then the
    facts about them. *)
Ltac io_contra :=
  match goal with
  | H : ioSucceeds ?e, Hw : writeError ?e _ = Some _ |- _ =>
    destruct H as [H _]; rewrite H in Hw; discriminate
  | H : ioSucceeds ?e, Hs : sendError ?e _ = Some _ |- _ =>
    destruct H as [_ H]; rewrite H in Hs; discriminate
  end.

Ltac solve_kinds :=
  repeat constructor; unfold isTomorrowKind, isTodayKind; cbn [kind];
  first [tauto | discriminate | congruence].

Ltac solve_disk Hu :=
  match goal with
  | |- exists st u, Some _ = Some st /\ _ =>
    eexists _, _; split; [reflexivity|]; split; [solve_user Hu|];
    usimpl; first [reflexivity | assumption]
  | H : exists st u, _ |- exists st u, _ => exact H
  end.

Ltac leaves Hu :=
  eexists _, _; (split; [solve_user Hu|]); (split; [solve_outbox|]);
  usimpl; repeat split; try done; try (by left); try (by right);
  intros; simplify_eq; bool_hyps;
  try solve [congruence | io_contra | solve_kinds | solve_disk Hu].

Lemma checkTomorrow_spec (env : Env) (w : World) (chatId : jsstring)
  (gs : list jsstring) (tomorrow : option MenuItem) (u : UserState) :
  users (state w) !! chatId = Some u ->
  let r := checkTomorrow chatId gs tomorrow env w in
  exists u' new,
    users (state r.2) !! chatId = Some u' /\
    outbox r.2 = outbox w ++ new /\
    keepsToday u u' /\
    lastLoeError u' = lastLoeError u /\
    (forall t, lastLoeWatchedText u = Some t ->
               diskBaseline chatId t w -> diskBaseline chatId t r.2) /\
    Forall (fun m => isTomorrowKind (kind m)) new /\
    match tomorrow with
    | None =>
      new = [] /\ lastLoeTomorrowStatus u' = Some missing /\
      lastLoeTomorrowError u' = None /\
      (ioSucceeds env -> r.1 = Ok tt /\ disk r.2 = Some (state r.2))
    | Some tm =>
      lastLoeTomorrowStatus u' = Some present /\
      (lastLoeTomorrowStatus u = Some present ->
       Forall (fun m => kind m <> MsgTomorrowAppeared) new) /\
      (hasTomorrowData gs tm = false -> new = []) /\
      (ioSucceeds env ->
       r.1 = Ok tt /\
       (hasTomorrowData gs tm = true ->
        lastLoeTomorrowStatus u <> Some present ->
        map kind new = [MsgTomorrowAppeared]))
    end.
Proof.
  intros Hu. unfold checkTomorrow, hasTomorrowData, keepsToday, diskBaseline.
  mrun. destruct tomorrow as [tm|]; mrun0.
  - rewrite !lookup_alter_eq, Hu. usimpl.
    repeat mstep; leaves Hu.
  - repeat mstep; leaves Hu.
Qed.

Lemma checkToday_spec (env : Env) (w : World) (chatId : jsstring)
  (gs : list jsstring) (forceCheck : bool) (td : MenuItem) (u : UserState) :
  users (state w) !! chatId = Some u ->
  let r := checkToday chatId gs forceCheck td env w in
  exists u' new,
    users (state r.2) !! chatId = Some u' /\
    outbox r.2 = outbox w ++ new /\
    keepsTomorrow u u' /\
    Forall (fun m => isTodayKind (kind m)) new /\
    lastLoeError u' = None /\
    (forceCheck = false -> lastLoeWatchedText u = None -> new = []) /\
    (lastLoeWatchedText u = None ->
     lastLoeWatchedText u' = Some (todayWatchedText gs td) /\
     (writeError env (writes w) = None ->
      diskBaseline chatId (todayWatchedText gs td) r.2)) /\
    (ioSucceeds env -> r.1 = Ok tt).
Proof.
  intros Hu.
  unfold checkToday, keepsTomorrow, diskBaseline, todayWatchedText.
  mrun. rewrite Hu. mrun0.
  repeat mstep; leaves Hu.
  all: match goal with
       | H : lastLoeWatchedText ?x = None,
         H' : truthyStr (prevGroupsOnly (lastLoeWatchedText ?x)) = true |- _ =>
         rewrite H in H'; discriminate
       end.
Qed.

Lemma checkCatch_spec (env : Env) (w : World) (chatId : jsstring)
  (forceCheck : bool) (err : Exn) (u : UserState) :
  users (state w) !! chatId = Some u ->
  let r := checkCatch chatId forceCheck err env w in
  exists u' new,
    users (state r.2) !! chatId = Some u' /\
    outbox r.2 = outbox w ++ new /\
    keepsToday u u' /\
    keepsTomorrow u u' /\
    (forall t, lastLoeWatchedText u = Some t ->
               diskBaseline chatId t w -> diskBaseline chatId t r.2) /\
    Forall (fun m => kind m = MsgCheckError) new /\
    (forceCheck = false -> new = []).
Proof.
  intros Hu. unfold checkCatch, keepsToday, keepsTomorrow, diskBaseline.
  mrun. repeat mstep; leaves Hu.
  all: by repeat constructor.
Qed.

(** The three ways a check can go. *)
Lemma checkOneChat_cases (env : Env) (w : World) (chatId : jsstring)
  (forceCheck : bool) (u : UserState) :
  users (state w) !! chatId = Some u ->
  let r := checkOneChat chatId forceCheck env w in
  (watching u = false /\ forceCheck = false /\ r = (Ok tt, w)) \/
  ((groups u = None \/ groups u = Some []) /\
   exists u' new,
     users (state r.2) !! chatId = Some u' /\
     outbox r.2 = outbox w ++ new /\
     keepsTomorrow u u' /\
     Forall (fun m => kind m = MsgNoGroups) new /\
     (forceCheck = false -> new = [])) \/
  (exists gs,
     (watching u = true \/ forceCheck = true) /\
     groups u = Some gs /\ gs <> [] /\
     r = try_catch (checkBody chatId gs forceCheck)
                   (checkCatch chatId forceCheck) env w).
Proof.
  intros Hu. unfold checkOneChat. mrun. rewrite Hu. mrun0.
  destruct (negb (watching u) && negb forceCheck) eqn:Hact.
  { left. bool_hyps. by mrun0. }
  assert (watching u = true \/ forceCheck = true) as Hactive.
  { destruct (watching u), forceCheck; auto. }
  right. destruct (groups u) as [[|g gs]|] eqn:Hg.
  - left. split; [by right|]. unfold keepsTomorrow.
    mrun0. repeat mstep; leaves Hu. all: by repeat constructor.
  - right. exists (g :: gs). by mrun0.
  - left. split; [by left|]. unfold keepsTomorrow.
    mrun0. repeat mstep; leaves Hu. all: by repeat constructor.
Qed.

Lemma checkBody_cases (env : Env) (w : World) (chatId : jsstring)
  (gs : list jsstring) (forceCheck : bool) :
  checkBody chatId gs forceCheck env w =
  match fetchAt env (fetches w) with
  | FetchFailed msg => (Throw (Error msg), afterFetch w)
  | Fetched None _ => (Throw (Error MSG_NO_TODAY), afterFetch w)
  | Fetched (Some td) tomorrow =>
    (checkToday chatId gs forceCheck td ;;;
     checkTomorrow chatId gs tomorrow) env (afterFetch w)
  end.
Proof.
  unfold checkBody, afterFetch. mrun0.
  match goal with
  | |- context [fetchAt ?e ?n] =>
    destruct (fetchAt e n) as [msg|[td|] tomorrow]
  end; by mrun0.
Qed.

Lemma app_nil_mid {A} (l1 l2 : list A) : l1 ++ l2 = l1 ++ l2 ++ [].
Proof. by rewrite app_nil_r. Qed.

(** A check whose upstream answer has today's item: the today section,
    then the tomorrow section, then the [catch] block if one of them
    threw. *)
Lemma check_fetched_spec (env : Env) (w : World) (chatId : jsstring)
  (forceCheck : bool) (u : UserState) (gs : list jsstring)
  (td : MenuItem) (tomorrow : option MenuItem) :
  users (state w) !! chatId = Some u ->
  fetchAt env (fetches w) = Fetched (Some td) tomorrow ->
  let r := try_catch (checkBody chatId gs forceCheck)
                     (checkCatch chatId forceCheck) env w in
  exists u' new1 new2 new3,
    users (state r.2) !! chatId = Some u' /\
    outbox r.2 = outbox w ++ new1 ++ new2 ++ new3 /\
    Forall (fun m => isTodayKind (kind m)) new1 /\
    Forall (fun m => isTomorrowKind (kind m)) new2 /\
    Forall (fun m => kind m = MsgCheckError) new3 /\
    groups u' = groups u /\ watching u' = watching u /\
    (forceCheck = false -> new3 = []) /\
    (forceCheck = false -> lastLoeWatchedText u = None -> new1 = []) /\
    (lastLoeWatchedText u = None ->
     lastLoeWatchedText u' = Some (todayWatchedText gs td) /\
     (writeError env (writes w) = None ->
      diskBaseline chatId (todayWatchedText gs td) r.2)) /\
    (lastLoeTomorrowStatus u = Some present ->
     Forall (fun m => kind m <> MsgTomorrowAppeared) new2) /\
    (tomorrow <> None -> lastLoeTomorrowStatus u = Some present ->
     lastLoeTomorrowStatus u' = Some present) /\
    match tomorrow with
    | None =>
      new2 = [] /\
      (ioSucceeds env ->
       r.1 = Ok tt /\ new3 = [] /\
       lastLoeTomorrowStatus u' = Some missing /\
       lastLoeTomorrowError u' = None /\ lastLoeError u' = None /\
       disk r.2 = Some (state r.2))
    | Some tm =>
      (hasTomorrowData gs tm = false -> new2 = []) /\
      (ioSucceeds env ->
       r.1 = Ok tt /\ new3 = [] /\
       lastLoeTomorrowStatus u' = Some present /\
       (hasTomorrowData gs tm = true ->
        lastLoeTomorrowStatus u <> Some present ->
        map kind new2 = [MsgTomorrowAppeared]))
    end.
Proof.
  intros Hu Hf. unfold try_catch. rewrite checkBody_cases, Hf.
  assert (users (state (afterFetch w)) !! chatId = Some u) as Hu1 by exact Hu.
  pose proof (checkToday_spec env (afterFetch w) chatId gs forceCheck td u Hu1)
    as Htoday.
  unfold bind.
  destruct (checkToday chatId gs forceCheck td env (afterFetch w))
    as [r1 w2] eqn:Erun1.
  cbn [fst snd] in Htoday.
  destruct Htoday as (u1 & new1 & Hu2 & Hout1 & Hkeep1 & Hk1 & Herr1 & Hsilent
                        & Hbase & Hok1).
  change (outbox (afterFetch w)) with (outbox w) in Hout1.
  change (writes (afterFetch w)) with (writes w) in Hbase.
  destruct Hkeep1 as (Hg1 & Hw1 & Hs1 & Htw1 & Htn1).
  destruct r1 as [[]|e1].
  - (* the today section returned *)
    pose proof (checkTomorrow_spec env w2 chatId gs tomorrow u1 Hu2) as Htom.
    destruct (checkTomorrow chatId gs tomorrow env w2) as [r2 w3] eqn:Erun2.
    cbn [fst snd] in Htom.
    destruct Htom as (u2 & new2 & Hu3 & Hout2 & Hkeep2 & Herr2 & Hdisk2 & Hk2
                        & Hcase).
    destruct Hkeep2 as (Hg2 & Hw2 & Hb2 & Hn2).
    destruct r2 as [[]|e2].
    + (* the tomorrow section returned *)
      exists u2, new1, new2, []. cbn [fst snd].
      rewrite Hout2, Hout1, <- app_assoc, <- app_nil_mid.
      split_and!.
      * done.
      * done.
      * done.
      * done.
      * constructor.
      * congruence.
      * congruence.
      * done.
      * done.
      * intros Hnone. rewrite Hb2. destruct (Hbase Hnone) as [Hb Hd].
        split; [done|]. intros Hwr. apply (Hdisk2 _ Hb), Hd, Hwr.
      * intros Hp. destruct tomorrow as [tm|].
        -- destruct Hcase as (_ & Hno & _). apply Hno. congruence.
        -- destruct Hcase as (-> & _). constructor.
      * intros Hsome _. destruct tomorrow as [tm|]; [|done]. by destruct Hcase.
      * destruct tomorrow as [tm|].
        -- destruct Hcase as (Hst & Hno & Hnodata & Hio). split; [done|].
           intros Hi. destruct (Hio Hi) as [_ Happ].
           split; [reflexivity|]. split; [reflexivity|]. split; [exact Hst|].
           intros Hd Hs. apply Happ; [exact Hd | congruence].
        -- destruct Hcase as (Hn & Hst & Hte & Hio). split; [done|].
           intros Hi. destruct (Hio Hi) as [_ Hdisk].
           split; [reflexivity|]. split; [reflexivity|]. split; [exact Hst|].
           split; [exact Hte|]. split; [congruence | exact Hdisk].
    + (* the tomorrow section threw *)
      pose proof (checkCatch_spec env w3 chatId forceCheck e2 u2 Hu3) as Hcatch.
      destruct (checkCatch chatId forceCheck e2 env w3) as [r3 w4] eqn:Erun3.
      cbn [fst snd] in Hcatch.
      destruct Hcatch as (u3 & new3 & Hu4 & Hout3 & Hkeep3 & Hkeep3' & Hdisk3
                            & Hk3 & Hsil3).
      destruct Hkeep3 as (Hg3 & Hw3 & Hb3 & Hn3).
      destruct Hkeep3' as (_ & _ & Hs3 & _).
      exists u3, new1, new2, new3. cbn [fst snd].
      rewrite Hout3, Hout2, Hout1, <- !app_assoc.
      split_and!.
      * done.
      * done.
      * done.
      * done.
      * done.
      * congruence.
      * congruence.
      * done.
      * done.
      * intros Hnone. rewrite Hb3, Hb2. destruct (Hbase Hnone) as [Hb Hd].
        split; [done|]. intros Hwr.
        apply (Hdisk3 (todayWatchedText gs td)); [congruence|].
        apply (Hdisk2 _ Hb), Hd, Hwr.
      * intros Hp. destruct tomorrow as [tm|].
        -- destruct Hcase as (_ & Hno & _). apply Hno. congruence.
        -- destruct Hcase as (-> & _). constructor.
      * intros Hsome _. destruct tomorrow as [tm|]; [|done].
        destruct Hcase as (Hst & _). congruence.
      * destruct tomorrow as [tm|].
        -- destruct Hcase as (Hst & Hno & Hnodata & Hio). split; [done|].
           intros Hi. by destruct (Hio Hi).
        -- destruct Hcase as (Hn & Hst & Hte & Hio). split; [done|].
           intros Hi. by destruct (Hio Hi) as [? _].
  - (* the today section threw *)
    pose proof (checkCatch_spec env w2 chatId forceCheck e1 u1 Hu2) as Hcatch.
    destruct (checkCatch chatId forceCheck e1 env w2) as [r3 w4] eqn:Erun3.
    cbn [fst snd] in Hcatch.
    destruct Hcatch as (u3 & new3 & Hu4 & Hout3 & Hkeep3 & Hkeep3' & Hdisk3
                          & Hk3 & Hsil3).
    destruct Hkeep3 as (Hg3 & Hw3 & Hb3 & Hn3).
    destruct Hkeep3' as (_ & _ & Hs3 & _).
    exists u3, new1, [], new3. cbn [fst snd].
    rewrite Hout3, Hout1, <- !app_assoc. cbn [app].
    split_and!.
    + done.
    + done.
    + done.
    + constructor.
    + done.
    + congruence.
    + congruence.
    + done.
    + done.
    + intros Hnone. rewrite Hb3. destruct (Hbase Hnone) as [Hb Hd].
      split; [done|]. intros Hwr. apply (Hdisk3 _ Hb), Hd, Hwr.
    + intros _. constructor.
    + intros _ Hp. congruence.
    + destruct tomorrow as [tm|].
      * split; [done|]. intros Hi. by specialize (Hok1 Hi).
      * split; [done|]. intros Hi. by specialize (Hok1 Hi).
Qed.

(** The array of the stored header lines and the array of the current ones
    are created three allocations apart. *)
Lemma array_strict_ne_later (a : nat) (items1 items2 : list jsstring) :
  array_strict_ne (mkArray a items1) (mkArray (S (S (S a))) items2) = true.
Proof.
  unfold array_strict_ne. cbn [arr_ref].
  apply negb_true_iff, Nat.eqb_neq. lia.
Qed.

(** The tomorrow section once the schedule has been seen: with data for a
    tracked subgroup and working services, the change notification depends
    on the subgroup text alone. *)
Lemma checkTomorrow_changed (env : Env) (w : World) (chatId : jsstring)
  (gs : list jsstring) (tm : MenuItem) (u : UserState) :
  users (state w) !! chatId = Some u ->
  lastLoeTomorrowStatus u = Some present ->
  hasTomorrowData gs tm = true ->
  ioSucceeds env ->
  let r := checkTomorrow chatId gs (Some tm) env w in
  let differs :=
    text_ne (prevGroupsOnly (lastLoeTomorrowWatchedText u))
            (watchedGroupsText NOT_FOUND_TOMORROW gs tm) in
  exists u' new,
    users (state r.2) !! chatId = Some u' /\
    outbox r.2 = outbox w ++ new /\
    r.1 = Ok tt /\
    map kind new = (if differs then [MsgTomorrowChanged] else []) /\
    lastLoeTomorrowWatchedText u' =
      (if differs then Some (tomorrowWatchedText gs tm)
       else lastLoeTomorrowWatchedText u).
Proof.
  intros Hu Hst Hdata [Hwr Hsd].
  unfold checkTomorrow, hasTomorrowData, watchedGroupsText, tomorrowWatchedText,
    headerLinesOf in *.
  mrun. rewrite !lookup_alter_eq, Hu. usimpl.
  rewrite Hdata, Hst. cbn [negb].
  rewrite bool_decide_eq_true_2 by done. cbn [negb].
  rewrite array_strict_ne_later, andb_true_r.
  destruct (text_ne _ _) eqn:Hdiff; mrun0; rewrite ?Hwr, ?Hsd; mrun0.
  - eexists _, _. split; [solve_user Hu|]. split; [reflexivity|].
    usimpl. done.
  - eexists _, _. split; [solve_user Hu|]. split; [solve_outbox|].
    usimpl. done.
Qed.

(** The today section of a background check that finds a stored baseline
    with subgroup lines, with working services. *)
Lemma checkToday_background (env : Env) (w : World) (chatId : jsstring)
  (gs : list jsstring) (td : MenuItem) (u : UserState) :
  users (state w) !! chatId = Some u ->
  truthyStr (prevGroupsOnly (lastLoeWatchedText u)) = true ->
  ioSucceeds env ->
  let r := checkToday chatId gs false td env w in
  let changed :=
    text_ne (prevGroupsOnly (lastLoeWatchedText u))
            (watchedGroupsText NOT_FOUND_TODAY gs td) in
  let rollover := isNotifiedYesterday env w u in
  exists u' new,
    users (state r.2) !! chatId = Some u' /\
    outbox r.2 = outbox w ++ new /\
    r.1 = Ok tt /\
    keepsTomorrow u u' /\
    map kind new =
      (if rollover then [MsgTodayRollover]
       else if changed then [MsgTodayChanged] else []) /\
    (changed || rollover = false ->
     lastLoeNotifiedAt u' = lastLoeNotifiedAt u /\
     lastLoeWatchedText u' = lastLoeWatchedText u) /\
    (changed || rollover = true ->
     lastLoeWatchedText u' = Some (todayWatchedText gs td) /\
     exists n, lastLoeNotifiedAt u' = Some (r_iso (clock env n))).
Proof.
  intros Hu Hprev [Hwr Hsd].
  unfold checkToday, watchedGroupsText, todayWatchedText, isNotifiedYesterday,
    keepsTomorrow in *.
  mrun. rewrite Hu. mrun0. rewrite Hprev. cbn [negb].
  destruct (truthyStr (lastLoeNotifiedAt u)) eqn:Hn; mrun0;
    rewrite ?orb_false_r.
  - destruct (text_ne _ _) eqn:Hdiff;
      destruct (getDate_ne _ _) eqn:Hroll; cbn [orb]; mrun0;
      rewrite ?Hwr, ?Hsd; mrun0;
      (eexists _, _; split; [solve_user Hu|]; split; [solve_outbox|]);
      usimpl; split_and!; try done; eauto.
  - destruct (text_ne _ _) eqn:Hdiff; cbn [orb]; mrun0;
      rewrite ?Hwr, ?Hsd; mrun0;
      (eexists _, _; split; [solve_user Hu|]; split; [solve_outbox|]);
      usimpl; split_and!; try done; eauto.
Qed.

End CheckFacts.

Section CheckTheorems.

Lemma checkOneChat_active (env : Env) (w : World) (chatId : jsstring)
  (forceCheck : bool) (u : UserState) (gs : list jsstring) :
  users (state w) !! chatId = Some u ->
  watching u = true \/ forceCheck = true ->
  groups u = Some gs -> gs <> [] ->
  checkOneChat chatId forceCheck env w =
  try_catch (checkBody chatId gs forceCheck) (checkCatch chatId forceCheck)
            env w.
Proof.
  intros Hu Hact Hg Hne. unfold checkOneChat. mrun. rewrite Hu. mrun0.
  assert (negb (watching u) && negb forceCheck = false) as ->.
  { destruct Hact as [-> | ->]; [done | apply andb_false_r]. }
  rewrite Hg. by destruct gs.
Qed.

Lemma sentBy_app {A} (m : M A) (env : Env) (w : World) (new : list Sent) :
  outbox (m env w).2 = outbox w ++ new -> sentBy m env w = new.
Proof. unfold sentBy. intros ->. by rewrite drop_app_length. Qed.

Lemma countKind_app k l1 l2 :
  countKind k (l1 ++ l2) = (countKind k l1 + countKind k l2)%nat.
Proof. unfold countKind. by rewrite filter_app, length_app. Qed.

Lemma countKind_none k l :
  Forall (fun m => kind m <> k) l -> countKind k l = 0%nat.
Proof.
  unfold countKind. induction 1 as [|m l Hm _ IH]; [done|].
  by rewrite filter_cons_False.
Qed.

Lemma countKind_kinds k l : map kind l = [k] -> countKind k l = 1%nat.
Proof.
  destruct l as [|m [|m' l]]; try done. intros [= Hk].
  unfold countKind. by rewrite filter_cons_True.
Qed.

Lemma today_not_appeared l :
  Forall (fun m => isTodayKind (kind m)) l ->
  Forall (fun m => kind m <> MsgTomorrowAppeared) l.
Proof.
  intros Hl. eapply Forall_impl; [exact Hl|].
  intros m [H|[H|[H|H]]]; rewrite H; discriminate.
Qed.

Lemma error_not_appeared l :
  Forall (fun m => kind m = MsgCheckError) l ->
  Forall (fun m => kind m <> MsgTomorrowAppeared) l.
Proof.
  intros Hl. eapply Forall_impl; [exact Hl|]. intros m ->. discriminate.
Qed.

Lemma attempt_world (m : M unit) (env : Env) (w : World) :
  (attempt m env w).2 = (m env w).2.
Proof. unfold attempt, try_catch, ret. by destruct (m env w) as [[[]|e] w']. Qed.

Lemma try_catch_thrown (env : Env) (w : World) (chatId : jsstring)
  (gs : list jsstring) (forceCheck : bool) :
  match fetchAt env (fetches w) with
  | Fetched (Some _) _ => True
  | _ =>
    exists e,
      try_catch (checkBody chatId gs forceCheck) (checkCatch chatId forceCheck)
                env w =
      checkCatch chatId forceCheck e env (afterFetch w)
  end.
Proof.
  unfold try_catch. rewrite checkBody_cases.
  destruct (fetchAt env (fetches w)) as [msg|[td|] tomorrow]; eauto.
Qed.

(** Once tomorrow's schedule has been seen, a check does not announce its
    appearance again, and the status stays [present] as long as upstream
    keeps publishing it. *)
Lemma check_keeps_present (env : Env) (w : World) (chatId : jsstring)
  (forceCheck : bool) (u : UserState) :
  users (state w) !! chatId = Some u ->
  lastLoeTomorrowStatus u = Some present ->
  tomorrowStays env ->
  exists u' new,
    users (state (checkOneChat chatId forceCheck env w).2) !! chatId = Some u' /\
    lastLoeTomorrowStatus u' = Some present /\
    outbox (checkOneChat chatId forceCheck env w).2 = outbox w ++ new /\
    Forall (fun m => kind m <> MsgTomorrowAppeared) new.
Proof.
  intros Hu Hp Hstay.
  destruct (checkOneChat_cases env w chatId forceCheck u Hu)
    as [(_ & _ & Hrun) | [(_ & u' & new & Hu' & Hout & Hkeep & Hk & _)
                         | (gs & Hact & Hg & Hne & Hrun)]].
  - rewrite Hrun. exists u, []. cbn [snd]. rewrite app_nil_r.
    split_and!; [exact Hu | exact Hp | reflexivity | constructor].
  - exists u', new. destruct Hkeep as (_ & _ & Hs & _).
    split_and!; [exact Hu' | congruence | exact Hout |].
    eapply Forall_impl; [exact Hk|]. intros m ->. discriminate.
  - rewrite Hrun. clear Hrun.
    destruct (fetchAt env (fetches w)) as [msg|[td|] tomorrow] eqn:Hf.
    + pose proof (try_catch_thrown env w chatId gs forceCheck) as Hthrown.
      rewrite Hf in Hthrown. destruct Hthrown as [e ->].
      destruct (checkCatch_spec env (afterFetch w) chatId forceCheck e u Hu)
        as (u' & new & Hu' & Hout & _ & Hkeep & _ & Hk & _).
      destruct Hkeep as (_ & _ & Hs & _).
      exists u', new.
      split_and!; [exact Hu' | congruence | exact Hout |].
      by apply error_not_appeared.
    + destruct (check_fetched_spec env w chatId forceCheck u gs td tomorrow
                  Hu Hf)
        as (u' & new1 & new2 & new3 & Hu' & Hout & Hk1 & Hk2 & Hk3 & _ & _
              & _ & _ & _ & Hno & Hst & _).
      exists u', (new1 ++ new2 ++ new3).
      split_and!; [exact Hu' | | exact Hout |].
      * apply Hst; [|exact Hp]. intros ->. by apply (Hstay (fetches w) td).
      * apply Forall_app. split; [by apply today_not_appeared|].
        apply Forall_app. split; [by apply Hno | by apply error_not_appeared].
    + pose proof (try_catch_thrown env w chatId gs forceCheck) as Hthrown.
      rewrite Hf in Hthrown. destruct Hthrown as [e ->].
      destruct (checkCatch_spec env (afterFetch w) chatId forceCheck e u Hu)
        as (u' & new & Hu' & Hout & _ & Hkeep & _ & Hk & _).
      destruct Hkeep as (_ & _ & Hs & _).
      exists u', new.
      split_and!; [exact Hu' | congruence | exact Hout |].
      by apply error_not_appeared.
Qed.

Lemma checksSeq_keeps_present (fs : list bool) :
  forall (env : Env) (w : World) (chatId : jsstring) (u : UserState),
  users (state w) !! chatId = Some u ->
  lastLoeTomorrowStatus u = Some present ->
  tomorrowStays env ->
  exists new,
    outbox (checksSeq fs chatId env w).2 = outbox w ++ new /\
    Forall (fun m => kind m <> MsgTomorrowAppeared) new.
Proof.
  induction fs as [|f fs IH]; intros env w chatId u Hu Hp Hstay.
  - exists []. cbn. by rewrite app_nil_r.
  - destruct (check_keeps_present env w chatId f u Hu Hp Hstay)
      as (u1 & new1 & Hu1 & Hp1 & Hout1 & Hk1).
    cbn [checksSeq]. unfold bind.
    pose proof (attempt_world (checkOneChat chatId f) env w) as Hw.
    destruct (attempt (checkOneChat chatId f) env w) as [r1 w1] eqn:Erun.
    cbn [snd] in Hw. subst w1.
    assert (r1 = Ok tt) as ->.
    { unfold attempt, try_catch, ret in Erun.
      destruct (checkOneChat chatId f env w) as [[[]|e] w']; by inversion Erun. }
    destruct (IH env _ chatId u1 Hu1 Hp1 Hstay) as (new2 & Hout2 & Hk2).
    exists (new1 ++ new2). rewrite Hout2, Hout1, <- app_assoc.
    split; [reflexivity | by apply Forall_app].
Qed.

Lemma today_not_tomorrow k l :
  isTomorrowKind k ->
  Forall (fun m => isTodayKind (kind m)) l ->
  Forall (fun m => kind m <> k) l.
Proof.
  intros Hk Hl. eapply Forall_impl; [exact Hl|].
  intros m [H|[H|[H|H]]] E; rewrite H in E; subst k;
    destruct Hk; discriminate.
Qed.

Lemma tomorrow_not_today k l :
  isTodayKind k ->
  Forall (fun m => isTomorrowKind (kind m)) l ->
  Forall (fun m => kind m <> k) l.
Proof.
  intros Hk Hl. eapply Forall_impl; [exact Hl|].
  intros m [H|H] E; rewrite H in E; subst k;
    destruct Hk as [?|[?|[?|?]]]; discriminate.
Qed.

(** A check that runs and whose today section returns goes on with the
    tomorrow section. *)
Lemma checkOneChat_sections (env : Env) (w w2 : World) (chatId : jsstring)
  (forceCheck : bool) (u : UserState) (gs : list jsstring)
  (td : MenuItem) (tomorrow : option MenuItem) :
  users (state w) !! chatId = Some u ->
  watching u = true \/ forceCheck = true ->
  groups u = Some gs -> gs <> [] ->
  fetchAt env (fetches w) = Fetched (Some td) tomorrow ->
  checkToday chatId gs forceCheck td env (afterFetch w) = (Ok tt, w2) ->
  checkOneChat chatId forceCheck env w =
  try_catch (checkTomorrow chatId gs tomorrow) (checkCatch chatId forceCheck)
            env w2.
Proof.
  intros Hu Hact Hg Hne Hf Htoday.
  rewrite (checkOneChat_active env w chatId forceCheck u gs) by done.
  unfold try_catch. rewrite checkBody_cases, Hf. unfold bind.
  by rewrite Htoday.
Qed.

Lemma try_catch_ok (m : M unit) (h : Exn -> M unit) (env : Env) (w : World) :
  (m env w).1 = Ok tt -> try_catch m h env w = m env w.
Proof. unfold try_catch. by destruct (m env w) as [[a|e] w']. Qed.

End CheckTheorems.

(** C3 (amended): for a watching subscriber with configured subgroups and
    no stored today baseline, a check with [forceCheck = false] that
    receives today's schedule stores the today baseline, in memory and, when
    the write succeeds, in the state file, and sends no today notification
    and no error message: every message it sends comes from the tomorrow
    section, and it sends none when tomorrow's schedule is absent or has no
    data for the tracked subgroups. *)
Theorem first_background_check_silent_today
  (env : Env) (w : World) (chatId : jsstring) (u : UserState)
  (gs : list jsstring) (td : MenuItem) (tomorrow : option MenuItem) :
  users (state w) !! chatId = Some u ->
  watching u = true ->
  groups u = Some gs -> gs <> [] ->
  lastLoeWatchedText u = None ->
  fetchAt env (fetches w) = Fetched (Some td) tomorrow ->
  (exists u',
     userAfter (checkOneChat chatId false) env w chatId = Some u' /\
     lastLoeWatchedText u' = Some (todayWatchedText gs td)) /\
  (writeError env (writes w) = None ->
   diskBaseline chatId (todayWatchedText gs td)
                (checkOneChat chatId false env w).2) /\
  Forall (fun m => isTomorrowKind (kind m))
         (sentBy (checkOneChat chatId false) env w) /\
  (match tomorrow with
   | None => True
   | Some tm => hasTomorrowData gs tm = false
   end -> sentBy (checkOneChat chatId false) env w = []).
Proof.
  intros Hu Hw Hg Hne Hbase Hf.
  pose proof (check_fetched_spec env w chatId false u gs td tomorrow Hu Hf)
    as Hspec.
  cbv zeta in Hspec.
  assert (checkOneChat chatId false env w =
          try_catch (checkBody chatId gs false) (checkCatch chatId false)
                    env w) as Hrun
    by (apply (checkOneChat_active env w chatId false u gs); auto).
  unfold userAfter, sentBy. rewrite Hrun.
  destruct Hspec as (u' & new1 & new2 & new3 & Hu' & Hout & Hk1 & Hk2 & Hk3
                       & _ & _ & Hsil3 & Hsil1 & Hb & _ & _ & Hcase).
  rewrite (Hsil3 eq_refl), (Hsil1 eq_refl Hbase), app_nil_r in Hout.
  cbn [app] in Hout. rewrite Hout, drop_app_length.
  destruct (Hb Hbase) as [Hmem Hdisk].
  split; [by exists u'|]. split; [exact Hdisk|]. split; [done|].
  destruct tomorrow as [tm|].
  - intros Hno. by apply Hcase.
  - intros _. by apply Hcase.
Qed.

(** C5: the appearance of tomorrow's schedule.  (i) A check that finds the
    status [missing] and tomorrow's schedule published with mapped data for
    at least one tracked subgroup sends the "appeared" notification exactly
    once and sets the status to [present].  (ii) From then on no later
    check, forced or not, sends it again while tomorrow's schedule stays
    published, whatever its content.  (iii) A check that finds tomorrow's
    schedule absent sets the status to [missing], persists the state, and
    sends neither a tomorrow notification nor an error.  In (i) and (iii)
    the check is one that runs (the subscriber is watched or the check is
    forced, subgroups are configured, today's schedule was received) with a
    working file system and transport. *)
Theorem tomorrow_appearance_once :
  (forall env w chatId forceCheck u gs td tm,
     users (state w) !! chatId = Some u ->
     watching u = true \/ forceCheck = true ->
     groups u = Some gs -> gs <> [] ->
     lastLoeTomorrowStatus u = Some missing ->
     fetchAt env (fetches w) = Fetched (Some td) (Some tm) ->
     hasTomorrowData gs tm = true ->
     ioSucceeds env ->
     countKind MsgTomorrowAppeared
       (sentBy (checkOneChat chatId forceCheck) env w) = 1%nat /\
     (exists u',
        userAfter (checkOneChat chatId forceCheck) env w chatId = Some u' /\
        lastLoeTomorrowStatus u' = Some present) /\
     (tomorrowStays env ->
      forall fs,
        countKind MsgTomorrowAppeared
          (sentBy (checksSeq (forceCheck :: fs) chatId) env w) = 1%nat)) /\
  (forall env w chatId fs u,
     users (state w) !! chatId = Some u ->
     lastLoeTomorrowStatus u = Some present ->
     tomorrowStays env ->
     countKind MsgTomorrowAppeared (sentBy (checksSeq fs chatId) env w) = 0%nat) /\
  (forall env w chatId forceCheck u gs td,
     users (state w) !! chatId = Some u ->
     watching u = true \/ forceCheck = true ->
     groups u = Some gs -> gs <> [] ->
     fetchAt env (fetches w) = Fetched (Some td) None ->
     ioSucceeds env ->
     (exists u',
        userAfter (checkOneChat chatId forceCheck) env w chatId = Some u' /\
        lastLoeTomorrowStatus u' = Some missing /\
        lastLoeTomorrowError u' = None /\ lastLoeError u' = None) /\
     disk (checkOneChat chatId forceCheck env w).2 =
       Some (state (checkOneChat chatId forceCheck env w).2) /\
     Forall (fun m => isTodayKind (kind m))
            (sentBy (checkOneChat chatId forceCheck) env w)).
Proof.
  split_and!.
  - intros env w chatId forceCheck u gs td tm Hu Hact Hg Hne Hs Hf Hdata Hio.
    assert (checkOneChat chatId forceCheck env w =
            try_catch (checkBody chatId gs forceCheck)
                      (checkCatch chatId forceCheck) env w) as Hrun
      by (by apply (checkOneChat_active env w chatId forceCheck u gs)).
    unfold userAfter, sentBy. rewrite Hrun.
    destruct (check_fetched_spec env w chatId forceCheck u gs td (Some tm)
                Hu Hf)
      as (u' & new1 & new2 & new3 & Hu' & Hout & Hk1 & Hk2 & Hk3 & _ & _
            & _ & _ & _ & _ & _ & _ & Hok).
    destruct (Hok Hio) as (_ & -> & Hst & Happ).
    rewrite Hout, drop_app_length, app_nil_r, countKind_app.
    rewrite (countKind_none _ new1) by (by apply today_not_appeared).
    rewrite (countKind_kinds _ new2) by (apply Happ; [exact Hdata | congruence]).
    split; [reflexivity|]. split; [by exists u'|].
    intros Hstay fs. cbn [checksSeq]. unfold bind.
    pose proof (attempt_world (checkOneChat chatId forceCheck) env w) as Hw.
    destruct (attempt (checkOneChat chatId forceCheck) env w) as [r1 w1]
      eqn:Erun.
    cbn [snd] in Hw. subst w1.
    assert (r1 = Ok tt) as ->.
    { unfold attempt, try_catch, ret in Erun.
      destruct (checkOneChat chatId forceCheck env w) as [[[]|e] w'];
        by inversion Erun. }
    rewrite Hrun.
    destruct (checksSeq_keeps_present fs env _ chatId u' Hu' Hst Hstay)
      as (new & Hout2 & Hk).
    rewrite Hout2, Hout, app_nil_r, <- !app_assoc, drop_app_length.
    rewrite !countKind_app.
    rewrite (countKind_none _ new1) by (by apply today_not_appeared).
    rewrite (countKind_kinds _ new2) by (apply Happ; [exact Hdata | congruence]).
    by rewrite (countKind_none _ new).
  - intros env w chatId fs u Hu Hp Hstay.
    destruct (checksSeq_keeps_present fs env w chatId u Hu Hp Hstay)
      as (new & Hout & Hk).
    rewrite (sentBy_app _ _ _ new Hout). by apply countKind_none.
  - intros env w chatId forceCheck u gs td Hu Hact Hg Hne Hf Hio.
    assert (checkOneChat chatId forceCheck env w =
            try_catch (checkBody chatId gs forceCheck)
                      (checkCatch chatId forceCheck) env w) as Hrun
      by (by apply (checkOneChat_active env w chatId forceCheck u gs)).
    unfold userAfter, sentBy. rewrite Hrun.
    destruct (check_fetched_spec env w chatId forceCheck u gs td None Hu Hf)
      as (u' & new1 & new2 & new3 & Hu' & Hout & Hk1 & Hk2 & Hk3 & _ & _
            & _ & _ & _ & _ & _ & -> & Hok).
    destruct (Hok Hio) as (_ & -> & Hst & Hte & Herr & Hdisk).
    rewrite Hout, drop_app_length. cbn [app]. rewrite app_nil_r.
    split; [by exists u'|]. split; [exact Hdisk | exact Hk1].
Qed.

Lemma tomorrow_appearance_once_witness :
  countKind MsgTomorrowAppeared
    (sentBy (checksSeq [false; false; true] Scenario.chat)
       (Scenario.envOf
          (Fetched (Some Scenario.todayItem) (Some Scenario.tomorrowItem)))
       (Scenario.worldOf Scenario.waitingUser)) = 1%nat.
Proof.
  refine (proj2 (proj2
    (proj1 tomorrow_appearance_once
       (Scenario.envOf
          (Fetched (Some Scenario.todayItem) (Some Scenario.tomorrowItem)))
       (Scenario.worldOf Scenario.waitingUser) Scenario.chat false
       Scenario.waitingUser Scenario.subgroups Scenario.todayItem
       Scenario.tomorrowItem _ _ _ _ _ _ _ _)) _ [false; true]).
  - reflexivity.
  - left. reflexivity.
  - reflexivity.
  - discriminate.
  - reflexivity.
  - reflexivity.
  - vm_compute. reflexivity.
  - split; intros n; reflexivity.
  - intros n td. discriminate.
Defined.

Lemma first_background_check_silent_today_witness :
  sentBy (checkOneChat Scenario.chat false)
    (Scenario.envOf (Fetched (Some Scenario.todayItem) None))
    (Scenario.worldOf Scenario.freshUser) = [].
Proof.
  refine (proj2 (proj2 (proj2
    (first_background_check_silent_today
       (Scenario.envOf (Fetched (Some Scenario.todayItem) None))
       (Scenario.worldOf Scenario.freshUser) Scenario.chat
       Scenario.freshUser Scenario.subgroups Scenario.todayItem None
       _ _ _ _ _ _))) I).
  - reflexivity.
  - reflexivity.
  - reflexivity.
  - discriminate.
  - reflexivity.
  - reflexivity.
Defined.

(** The first background check of a fresh subscriber does send a message
    when tomorrow's schedule is already published: the claim that it sends
    no notification at all fails. *)
Lemma first_background_check_sends_appeared :
  let env := Scenario.envOf
               (Fetched (Some Scenario.todayItem) (Some Scenario.tomorrowItem)) in
  let w := Scenario.worldOf Scenario.freshUser in
  lastLoeWatchedText Scenario.freshUser = None /\
  lastLoeTomorrowWatchedText Scenario.freshUser = None /\
  map kind (sentBy (checkOneChat Scenario.chat false) env w) =
    [MsgTomorrowAppeared].
Proof. vm_compute. auto. Qed.

(** C1: the rule of the code.  For a subscriber whose tomorrow status is
    [present], a check that runs with working services and receives
    tomorrow's schedule with data for a tracked subgroup sends "tomorrow's
    schedule changed", and stores the new baseline, exactly when the stored
    subgroup text differs from the rendered one.  The header lines play no
    part: the arrays that the code compares with [!==] are two objects
    whatever they hold.  With equal header lines and a different subgroup
    text the notification is sent, where the claim asks for silence. *)
Theorem tomorrow_changed_ignores_headers
  (env : Env) (w : World) (chatId : jsstring) (forceCheck : bool)
  (u : UserState) (gs : list jsstring) (td tm : MenuItem) :
  users (state w) !! chatId = Some u ->
  watching u = true \/ forceCheck = true ->
  groups u = Some gs -> gs <> [] ->
  lastLoeTomorrowStatus u = Some present ->
  fetchAt env (fetches w) = Fetched (Some td) (Some tm) ->
  hasTomorrowData gs tm = true ->
  ioSucceeds env ->
  let differs :=
    text_ne (prevGroupsOnly (lastLoeTomorrowWatchedText u))
            (watchedGroupsText NOT_FOUND_TOMORROW gs tm) in
  countKind MsgTomorrowChanged
    (sentBy (checkOneChat chatId forceCheck) env w) =
    (if differs then 1 else 0)%nat /\
  exists u',
    userAfter (checkOneChat chatId forceCheck) env w chatId = Some u' /\
    lastLoeTomorrowWatchedText u' =
      (if differs then Some (tomorrowWatchedText gs tm)
       else lastLoeTomorrowWatchedText u).
Proof.
  intros Hu Hact Hg Hne Hst Hf Hdata Hio differs.
  assert (users (state (afterFetch w)) !! chatId = Some u) as Hu1 by exact Hu.
  pose proof (checkToday_spec env (afterFetch w) chatId gs forceCheck td u Hu1)
    as Htoday.
  destruct (checkToday chatId gs forceCheck td env (afterFetch w))
    as [r1 w2] eqn:Erun1.
  cbn [fst snd] in Htoday.
  destruct Htoday as (u1 & new1 & Hu2 & Hout1 & Hkeep1 & Hk1 & _ & _ & _ & Hok1).
  change (outbox (afterFetch w)) with (outbox w) in Hout1.
  specialize (Hok1 Hio). subst r1.
  destruct Hkeep1 as (_ & _ & Hs1 & Ht1 & _).
  pose proof (checkTomorrow_changed env w2 chatId gs tm u1 Hu2
                ltac:(congruence) Hdata Hio) as Htom.
  cbv zeta in Htom. rewrite Ht1 in Htom. fold differs in Htom.
  destruct Htom as (u2 & new2 & Hu3 & Hout2 & Hr2 & Hkinds & Htext).
  unfold sentBy, userAfter.
  rewrite (checkOneChat_sections env w w2 chatId forceCheck u gs td (Some tm))
    by done.
  rewrite try_catch_ok by exact Hr2.
  rewrite Hout2, Hout1, <- app_assoc, drop_app_length, countKind_app.
  rewrite (countKind_none _ new1)
    by (apply today_not_tomorrow; [by right | done]).
  split; [|exists u2; split; [exact Hu3 | exact Htext]].
  destruct differs.
  - rewrite (countKind_kinds _ new2 Hkinds). reflexivity.
  - destruct new2; [reflexivity | discriminate].
Qed.

Lemma tomorrow_changed_ignores_headers_witness :
  let env := Scenario.envOf (Fetched (Some Scenario.todayItem)
                                     (Some Scenario.tomorrowItemEdited)) in
  let w := Scenario.worldOf Scenario.settledUser in
  let stored := tomorrowWatchedText Scenario.subgroups Scenario.tomorrowItem in
  headerLinesOf stored = headerLinesOf (itemText Scenario.tomorrowItemEdited) /\
  countKind MsgTomorrowChanged
    (sentBy (checkOneChat Scenario.chat false) env w) = 1%nat.
Proof.
  split; [vm_compute; reflexivity|].
  refine (proj1
    (tomorrow_changed_ignores_headers
       (Scenario.envOf (Fetched (Some Scenario.todayItem)
                                (Some Scenario.tomorrowItemEdited)))
       (Scenario.worldOf Scenario.settledUser) Scenario.chat false
       Scenario.settledUser Scenario.subgroups Scenario.todayItem
       Scenario.tomorrowItemEdited _ _ _ _ _ _ _ _)).
  - reflexivity.
  - left. reflexivity.
  - reflexivity.
  - discriminate.
  - reflexivity.
  - reflexivity.
  - vm_compute. reflexivity.
  - split; intros n; reflexivity.
Defined.

(** C2: the rule of the code.  A background check that runs with working
    services and finds the stored subgroup text equal to the rendered one
    sends the day-rollover notification, and renews the baseline and
    [lastLoeNotifiedAt], exactly when the day of the month of the last
    notification differs from today's; otherwise it sends no today
    notification and leaves both as they were.  Month and year are not
    compared: after a last notification on another calendar day with the
    same day of the month nothing is sent, where the claim asks for the
    notification. *)
Theorem today_rollover_by_day_of_month
  (env : Env) (w : World) (chatId : jsstring) (u : UserState)
  (gs : list jsstring) (td : MenuItem) (tomorrow : option MenuItem)
  (t : jsstring) (d : CivilDate) :
  users (state w) !! chatId = Some u ->
  watching u = true ->
  groups u = Some gs -> gs <> [] ->
  fetchAt env (fetches w) = Fetched (Some td) tomorrow ->
  ioSucceeds env ->
  prevGroupsOnly (lastLoeWatchedText u) =
    Some (watchedGroupsText NOT_FOUND_TODAY gs td) ->
  watchedGroupsText NOT_FOUND_TODAY gs td <> [] ->
  lastLoeNotifiedAt u = Some t -> t <> [] ->
  parseDate env t = Some d ->
  let today := r_local (clock env (S (ticks w))) in
  let sent := sentBy (checkOneChat chatId false) env w in
  countKind MsgTodayRollover sent =
    (if (cd_day d =? cd_day today)%N then 0 else 1)%nat /\
  Forall (fun m => kind m = MsgTodayRollover \/ isTomorrowKind (kind m)) sent /\
  exists u',
    userAfter (checkOneChat chatId false) env w chatId = Some u' /\
    if (cd_day d =? cd_day today)%N
    then lastLoeNotifiedAt u' = Some t /\
         lastLoeWatchedText u' = lastLoeWatchedText u
    else lastLoeWatchedText u' = Some (todayWatchedText gs td) /\
         exists n, lastLoeNotifiedAt u' = Some (r_iso (clock env n)).
Proof.
  intros Hu Hw Hg Hne Hf Hio Hprev Htext Hn Ht Hd today sent.
  assert (users (state (afterFetch w)) !! chatId = Some u) as Hu1 by exact Hu.
  assert (truthyStr (prevGroupsOnly (lastLoeWatchedText u)) = true) as Htruthy.
  { rewrite Hprev. by destruct (watchedGroupsText NOT_FOUND_TODAY gs td). }
  pose proof (checkToday_background env (afterFetch w) chatId gs td u Hu1
                Htruthy Hio) as Htoday.
  cbv zeta in Htoday.
  assert (text_ne (prevGroupsOnly (lastLoeWatchedText u))
                  (watchedGroupsText NOT_FOUND_TODAY gs td) = false) as Hsame.
  { rewrite Hprev. unfold text_ne, jseq. by rewrite bool_decide_eq_true_2. }
  assert (isNotifiedYesterday env (afterFetch w) u =
          negb (cd_day d =? cd_day today)%N) as Hroll.
  { unfold isNotifiedYesterday. rewrite Hn. cbn [default from_option id].
    assert (truthyStr (Some t) = true) as -> by (by destruct t).
    by rewrite Hd. }
  rewrite Hsame, Hroll in Htoday. cbn [orb] in Htoday.
  destruct (checkToday chatId gs false td env (afterFetch w))
    as [r1 w2] eqn:Erun1.
  cbn [fst snd] in Htoday.
  destruct Htoday as (u1 & new1 & Hu2 & Hout1 & Hok1 & Hkeep1 & Hkinds & Hstay
                        & Hrenew).
  change (outbox (afterFetch w)) with (outbox w) in Hout1.
  subst r1.
  pose proof (checkTomorrow_spec env w2 chatId gs tomorrow u1 Hu2) as Htom.
  cbv zeta in Htom.
  destruct Htom as (u2 & new2 & Hu3 & Hout2 & Hkeep2 & _ & _ & Hk2 & Hcase).
  assert ((checkTomorrow chatId gs tomorrow env w2).1 = Ok tt) as Hr2.
  { destruct tomorrow as [tm|].
    - destruct Hcase as (_ & _ & _ & Hok). by destruct (Hok Hio).
    - destruct Hcase as (_ & _ & _ & Hok). by destruct (Hok Hio). }
  destruct Hkeep2 as (_ & _ & Hb2 & Hn2).
  unfold sent, sentBy, userAfter.
  rewrite (checkOneChat_sections env w w2 chatId false u gs td tomorrow)
    by (done || by left).
  rewrite try_catch_ok by exact Hr2.
  rewrite Hout2, Hout1, <- app_assoc, drop_app_length, countKind_app.
  rewrite (countKind_none _ new2)
    by (apply tomorrow_not_today; [by right; right; left | done]).
  rewrite Nat.add_0_r.
  destruct (cd_day d =? cd_day today)%N; cbn [negb] in *.
  - destruct new1; [|discriminate].
    destruct (Hstay eq_refl) as [Hn1 Hb1].
    split; [reflexivity|]. split.
    { cbn [app]. eapply Forall_impl; [exact Hk2|]. intros m ?. by right. }
    exists u2. split; [exact Hu3|]. split; congruence.
  - split; [by rewrite (countKind_kinds _ new1 Hkinds)|]. split.
    { apply Forall_app. split.
      - destruct new1 as [|m [|m' l]]; try discriminate.
        injection Hkinds as Hm. constructor; [by left | constructor].
      - eapply Forall_impl; [exact Hk2|]. intros m ?. by right. }
    destruct (Hrenew eq_refl) as [Hb1 [n Hn1]].
    exists u2. split; [exact Hu3|]. split; [congruence|].
    exists n. congruence.
Qed.

Lemma today_rollover_by_day_of_month_witness :
  let env := Scenario.envOf (Fetched (Some Scenario.todayItem) None) in
  let w := Scenario.worldOf Scenario.monthAgoUser in
  mkDate 2026 10 2 <> r_local (clock env 1) /\
  countKind MsgTodayRollover
    (sentBy (checkOneChat Scenario.chat false) env w) = 0%nat.
Proof.
  split; [discriminate|].
  refine (proj1
    (today_rollover_by_day_of_month
       (Scenario.envOf (Fetched (Some Scenario.todayItem) None))
       (Scenario.worldOf Scenario.monthAgoUser) Scenario.chat
       Scenario.monthAgoUser Scenario.subgroups Scenario.todayItem None
       Scenario.octoberSecond (mkDate 2026 10 2) _ _ _ _ _ _ _ _ _ _ _)).
  - reflexivity.
  - reflexivity.
  - reflexivity.
  - discriminate.
  - reflexivity.
  - split; intros n; reflexivity.
  - vm_compute. reflexivity.
  - vm_compute. discriminate.
  - reflexivity.
  - vm_compute. discriminate.
  - vm_compute. reflexivity.
Defined.

(** ** The stored watched text and the comparison text *)

Section WatchedTextFacts.

Lemma join_app sep (a b : list jsstring) :
  a ≠ [] -> b ≠ [] -> join sep (a ++ b) = join sep a ++ sep :: join sep b.
Proof.
  induction a as [|x a IH]; [done|]. intros _ Hb.
  destruct a as [|y a'].
  - simpl. by destruct b.
  - change ((x :: y :: a') ++ b) with (x :: (y :: a') ++ b).
    change ((y :: a') ++ b) with (y :: a' ++ b) at 1.
    rewrite join_cons2. change (y :: a' ++ b) with ((y :: a') ++ b).
    rewrite IH by done. rewrite join_cons2. by rewrite <- app_assoc.
Qed.

Lemma join_clean_nonempty ls : ls ≠ [] -> Forall cleanLine ls -> join LF ls ≠ [].
Proof.
  destruct ls as [|l ls]; [done|]. intros _ H.
  inversion H as [|? ? (Hne & _) _]; subst.
  destruct l; [done|]. by destruct ls.
Qed.

(** Lines that are clean or empty: the join splits back into them, and
    normalising drops the empty ones. *)
Lemma normalizedLines_join_gen ls :
  ls ≠ [] ->
  Forall (fun l => (LF ∉ l) /\ trim l = l) ls ->
  normalizedLines (join LF ls) = filter (fun l => nonempty l) ls.
Proof.
  intros Hne H. unfold normalizedLines.
  rewrite replace_crlf_join.
  2: { eapply Forall_impl; [exact H|]. intros l [Hn Ht]. split; [done|].
       by apply trim_fixed_ok. }
  rewrite split_join; [| done | eapply Forall_impl; [exact H | by intros ? []]].
  f_equal. induction H as [|l ls' [_ Ht] _ IH]; [done|].
  simpl. rewrite Ht. f_equal. destruct ls'; [done|]. by apply IH.
Qed.

Lemma watchedTextOf_lines hs sel :
  Forall cleanLine hs -> Forall cleanLine sel ->
  normalizedLines (watchedTextOf hs sel) = hs ++ sel.
Proof.
  intros Hhs Hsel. unfold watchedTextOf.
  destruct hs as [|h hs'], sel as [|s sel'].
  - done.
  - change (trim (join LF ([] ++ [] :: s :: sel')))
      with (trim (join LF (s :: sel'))).
    rewrite trim_join_clean by done. by apply normalizedLines_join.
  - rewrite join_app by done.
    change (join LF [[]]) with (@nil N).
    rewrite trim_snoc_ws by done.
    rewrite trim_join_clean by done. rewrite app_nil_r.
    by apply normalizedLines_join.
  - assert (Forall (fun l => (LF ∉ l) /\ trim l = l)
                   ((h :: hs') ++ [] :: s :: sel')) as Hok.
    { apply Forall_app. split.
      - eapply Forall_impl; [exact Hhs|]. by intros l (_ & ? & ?).
      - constructor; [split; [apply not_elem_of_nil | done]|].
        eapply Forall_impl; [exact Hsel|]. by intros l (_ & ? & ?). }
    rewrite trim_id.
    + rewrite normalizedLines_join_gen by (done || by destruct hs').
      rewrite filter_app.
      rewrite (filter_cons_False _ [] (s :: sel')) by (intros H; exact H).
      by rewrite !filter_nonempty_clean.
    + rewrite join_app by done.
      pose proof (join_head_ok (h :: hs') ltac:(done) Hhs) as Hh.
      pose proof (join_clean_nonempty (h :: hs') ltac:(done) Hhs) as Hn.
      destruct (join LF (h :: hs')); done.
    + rewrite join_app by done. unfold last_ok. rewrite last_app_cons.
      change (join LF ([] :: s :: sel')) with (LF :: join LF (s :: sel')).
      pose proof (join_last_ok (s :: sel') Hsel) as Hl.
      pose proof (join_clean_nonempty (s :: sel') ltac:(done) Hsel) as Hn.
      unfold last_ok in Hl.
      destruct (join LF (s :: sel')) as [|c r] eqn:E; [done|].
      by rewrite !last_cons_cons.
Qed.

Lemma headerLinesOf_clean t : Forall cleanLine (headerLinesOf t).
Proof.
  unfold headerLinesOf, slice0. rewrite split_normalize.
  pose proof (normalizedLines_clean t) as H.
  destruct (normalizedLines t) as [|l ls]; [constructor|].
  apply filter_cleanLine. by apply Forall_take.
Qed.

Lemma matchGroupLine_nil : matchGroupLine [] = None.
Proof. reflexivity. Qed.

Lemma parseGroupSchedules_clean t g line :
  parseGroupSchedulesFromText t !! g = Some line -> cleanLine line.
Proof.
  unfold parseGroupSchedulesFromText.
  assert (forall lines (acc : gmap jsstring jsstring),
    (forall l, l ∈ lines -> matchGroupLine l <> None -> cleanLine l) ->
    (forall k l, acc !! k = Some l -> cleanLine l) ->
    forall k l,
      fold_left
        (fun map line =>
           match matchGroupLine line with
           | None => map
           | Some m1 =>
             match normalizeGroupId m1 with
             | None => map
             | Some g => <[g := line]> map
             end
           end) lines acc !! k = Some l -> cleanLine l) as Hfold.
  { induction lines as [|x lines IH]; intros acc Hlines Hacc k l; [by apply Hacc|].
    simpl. apply IH.
    - intros l' Hl'. apply Hlines. by right.
    - intros k' l'. destruct (matchGroupLine x) as [m1|] eqn:Hm; [|by apply Hacc].
      destruct (normalizeGroupId m1) as [g'|]; [|by apply Hacc].
      destruct (decide (g' = k')) as [->|Hne].
      + rewrite lookup_insert_eq. intros [= <-]. apply Hlines; [left|congruence].
      + rewrite lookup_insert_ne by done. by apply Hacc. }
  apply Hfold.
  - rewrite split_normalize. pose proof (normalizedLines_clean t) as Hc.
    destruct (normalizedLines t) as [|x ls] eqn:E.
    + intros l ->%list_elem_of_singleton. by rewrite matchGroupLine_nil.
    + intros l Hl _. rewrite Forall_forall in Hc. by apply Hc.
  - intros k l. by rewrite lookup_empty.
Qed.

(** The placeholder of a valid subgroup is a clean line and has the shape of
    a subgroup line. *)
Lemma placeholder_is_group_line nf g :
  nf = NOT_FOUND_TODAY \/ nf = NOT_FOUND_TOMORROW ->
  g ∈ POSSIBLE_GROUPS ->
  cleanLine (GRUPA_SP ++ g ++ nf) /\ isGroupLine (GRUPA_SP ++ g ++ nf) = true.
Proof.
  intros Hnf Hg.
  assert (Forall (fun g =>
            forall nf, nf = NOT_FOUND_TODAY \/ nf = NOT_FOUND_TOMORROW ->
            (GRUPA_SP ++ g ++ nf ≠ [] /\
             bool_decide (LF ∉ GRUPA_SP ++ g ++ nf) = true /\
             trim (GRUPA_SP ++ g ++ nf) = GRUPA_SP ++ g ++ nf) /\
            isGroupLine (GRUPA_SP ++ g ++ nf) = true) POSSIBLE_GROUPS) as Hall.
  { unfold POSSIBLE_GROUPS.
    repeat (apply Forall_cons_2;
            [intros nf' [-> | ->]; vm_compute; split_and!;
               (reflexivity || discriminate) |]).
    apply Forall_nil_2. }
  rewrite Forall_forall in Hall.
  destruct (Hall g Hg nf Hnf) as [(Hne & Hlf & Ht) Hm].
  split; [|done]. split_and!; [done | by apply bool_decide_eq_true in Hlf | done].
Qed.

(** A valid subgroup id names no property of [Object.prototype]. *)
Lemma inheritedText_possible (g : jsstring) :
  g ∈ POSSIBLE_GROUPS -> inheritedText g = None.
Proof.
  revert g. apply Forall_forall.
  repeat (apply Forall_cons_2; [vm_compute; reflexivity|]).
  apply Forall_nil_2.
Qed.

Lemma lookupLine_possible (groupMap : gmap jsstring jsstring) (g : jsstring) :
  g ∈ POSSIBLE_GROUPS -> lookupLine groupMap g = groupMap !! g.
Proof.
  intros Hg. unfold lookupLine. rewrite (inheritedText_possible g Hg).
  by destruct (groupMap !! g).
Qed.

Lemma selectLines_clean nf t gs :
  nf = NOT_FOUND_TODAY \/ nf = NOT_FOUND_TOMORROW ->
  Forall (fun g => g ∈ POSSIBLE_GROUPS) gs ->
  Forall cleanLine (selectLines nf (parseGroupSchedulesFromText t) gs).
Proof.
  intros Hnf Hgs. unfold selectLines. apply Forall_fmap.
  eapply Forall_impl; [exact Hgs|]. intros g Hg. cbn.
  rewrite (lookupLine_possible _ g Hg).
  destruct (parseGroupSchedulesFromText t !! g) as [line|] eqn:E.
  - by apply (parseGroupSchedules_clean t g).
  - by apply placeholder_is_group_line.
Qed.

End WatchedTextFacts.

(** The claim as worded fails: with no line for subgroup 1.1 upstream, the
    stored text holds a placeholder, there is no real schedule line, and yet
    the extracted comparison text is the placeholder line. *)
Lemma placeholder_kept_by_extraction :
  let t := js "Графік погодинних відключень" in
  let groupMap := parseGroupSchedulesFromText t in
  let stored :=
    watchedTextOf (headerLinesOf t)
      (selectLines NOT_FOUND_TODAY groupMap Scenario.subgroups) in
  realScheduleLines groupMap Scenario.subgroups = [] /\
  extractGroupLinesOnly stored = js "Група 1.1. (Не знайдено в оновленні)" /\
  extractGroupLinesOnly stored <>
    join LF (realScheduleLines groupMap Scenario.subgroups).
Proof. vm_compute. split_and!; (reflexivity || discriminate). Qed.

(** C6 (amended): for the watched text a check stores (header lines, a
    blank separator, the rendered lines of the valid selected subgroups),
    the extraction returns exactly the stored lines that have the shape of a
    subgroup line, in order, joined by line feeds.  A placeholder line has
    that shape and is kept; a header line is dropped unless it has that
    shape. *)
Theorem extractGroupLinesOnly_of_watchedText
  (nf t : jsstring) (gs : list jsstring) :
  nf = NOT_FOUND_TODAY \/ nf = NOT_FOUND_TOMORROW ->
  Forall (fun g => g ∈ POSSIBLE_GROUPS) gs ->
  let selected := selectLines nf (parseGroupSchedulesFromText t) gs in
  extractGroupLinesOnly (watchedTextOf (headerLinesOf t) selected) =
    join LF (filter (fun l => isGroupLine l) (headerLinesOf t ++ selected)) /\
  (forall g, g ∈ gs -> parseGroupSchedulesFromText t !! g = None ->
     GRUPA_SP ++ g ++ nf ∈ selected /\
     isGroupLine (GRUPA_SP ++ g ++ nf) = true).
Proof.
  intros Hnf Hgs selected. split.
  - rewrite extractGroupLinesOnly_lines. f_equal. f_equal.
    apply watchedTextOf_lines; [apply headerLinesOf_clean|].
    by apply selectLines_clean.
  - intros g Hg Hnone. split.
    + unfold selected, selectLines. apply list_elem_of_fmap.
      rewrite Forall_forall in Hgs.
      exists g. by rewrite (lookupLine_possible _ g (Hgs g Hg)), Hnone.
    + rewrite Forall_forall in Hgs. by apply placeholder_is_group_line, Hgs.
Qed.

Lemma extractGroupLinesOnly_of_watchedText_witness :
  extractGroupLinesOnly
    (todayWatchedText Scenario.subgroups Scenario.todayItem) =
  js "Група 1.1. Електроенергії немає з 05:30 до 09:00.".
Proof.
  refine (eq_trans
    (proj1 (extractGroupLinesOnly_of_watchedText NOT_FOUND_TODAY
              (itemText Scenario.todayItem) Scenario.subgroups _ _)) _).
  - left. reflexivity.
  - repeat constructor.
  - vm_compute. reflexivity.
Defined.

(** ** The serialization queue *)

Module StateQueueFacts.
Import StateQueue.

Local Open Scope nat_scope.

(** What a promise of the chain waits with does not change when a later
    unit is submitted. *)
Lemma waitingCall_app_lt s fn j :
  j < length s -> waitingCall (s ++ [fn]) j = waitingCall s j.
Proof. intros H. unfold waitingCall. by rewrite lookup_app_l. Qed.

Lemma waitingCall_app_eq s fn :
  waitingCall (s ++ [fn]) (length s) = [CallUnit fn (2 * length s + 1)].
Proof. unfold waitingCall. by rewrite list_lookup_middle. Qed.

Lemma waitingCall_ge s j : length s <= j -> waitingCall s j = [].
Proof. intros H. unfold waitingCall. by rewrite lookup_ge_None_2. Qed.

Lemma frontier_le n ph s m :
  length s = n -> phaseOK s ph m -> frontier n ph <= 2 * n + 1.
Proof.
  intros <- H. destruct ph as [|k|k|k]; simpl in *.
  - lia.
  - destruct H as (fn & Hk & _). apply lookup_lt_Some in Hk. lia.
  - destruct H as (fn & Hk & _). apply lookup_lt_Some in Hk. lia.
  - destruct H as (Hk & _). lia.
Qed.

Lemma frontier_idle n ph s m :
  length s = n -> phaseOK s ph m -> 2 * n < frontier n ph -> ph = Idle.
Proof.
  intros <- H Hlt. destruct ph as [|k|k|k]; simpl in *; [done|..].
  - destruct H as (fn & Hk & _). apply lookup_lt_Some in Hk. lia.
  - destruct H as (fn & Hk & _). apply lookup_lt_Some in Hk. lia.
  - destruct H as (Hk & _). lia.
Qed.

Lemma frontier_afterSubmit n ph s m :
  length s = n -> phaseOK s ph m ->
  frontier (S n) (afterSubmit n ph) = frontier n ph.
Proof. intros _ _. by destruct ph. Qed.

(** The invariant holds at the start, and every event keeps it. *)
Lemma Shape_initial : Shape Idle initial.
Proof.
  unfold Shape, initial. cbn. split_and!; try done.
  - constructor.
  - intros j Hj. assert (j = 0) as -> by lia.
    eexists. split; [apply lookup_singleton_eq|]. done.
  - intros j Hj. lia.
Qed.

Ltac msimpl :=
  cbn [heap fresh jobs running started submitted stateOp settled reactions
       fst snd] in *.

(** A promise of the chain is settled and without reactions below the
    frontier, pending with its reactions from the frontier on. *)
Lemma chainPromise_cases f id rs p :
  chainPromise f id rs p ->
  (id < f /\ exists o, p = mkPromise (Some o) []) \/
  (f <= id /\ p = mkPromise None rs).
Proof.
  unfold chainPromise. destruct p as [[o|] rs']; case_decide; cbn; intros [? ?].
  - left. split; [done|]. exists o. by subst.
  - done.
  - done.
  - right. split; [lia|]. by subst.
Qed.

Lemma chainPromise_settled f id rs o :
  id < f -> chainPromise f id rs (mkPromise (Some o) []).
Proof. intros H. unfold chainPromise. by rewrite decide_True by done. Qed.

Lemma chainPromise_pending f id rs :
  f <= id -> chainPromise f id rs (mkPromise None rs).
Proof. intros H. unfold chainPromise. by rewrite decide_False by lia. Qed.

Lemma chainPromise_weaken f f' id rs rs' p :
  chainPromise f id rs p ->
  (id < f <-> id < f') -> (f <= id -> rs = rs') ->
  chainPromise f' id rs' p.
Proof.
  unfold chainPromise. intros H Hiff Hrs.
  repeat case_decide; try tauto. destruct H as [? ?].
  split; [done|]. rewrite <- Hrs by lia. done.
Qed.

(** A caller submits a new unit: two promises are added to the chain, and
    the call of the unit is queued at once when the chain was idle. *)
Lemma Shape_submit ph m fn :
  Shape ph m -> fn ∉ submitted m ->
  Shape (afterSubmit (length (submitted m)) ph) (runStateOp fn m).2.
Proof.
  intros (Hfresh & Hop & Hnd & Hev & Hod & Hph) Hnew.
  set (s := submitted m) in *. set (n := length s) in *.
  pose proof (frontier_le n ph s m eq_refl Hph) as Hfle.
  destruct (Hev n ltac:(lia)) as (p0 & Hp0 & Hc0).
  rewrite (waitingCall_ge s n) in Hc0 by done.
  unfold runStateOp, then_. rewrite Hop, Hp0, Hfresh.
  apply chainPromise_cases in Hc0 as [(Hlt & o & ->) | (Hge & ->)].
  - (* the chain is idle: the call is queued at once *)
    assert (ph = Idle) as -> by (by apply (frontier_idle n _ s m)).
    destruct Hph as (Hjobs & Hrun & Hstarted).
    msimpl. rewrite lookup_insert_eq. msimpl.
    unfold Shape. msimpl. fold s. rewrite length_app. fold n. cbn [length].
    replace (n + 1) with (S n) by lia.
    split_and!.
    + lia.
    + lia.
    + apply NoDup_app. split_and!; [done | | apply NoDup_singleton].
      intros x Hx ->%list_elem_of_singleton. done.
    + intros j Hj. destruct (decide (j = S n)) as [->|Hne1].
      * eexists. split.
        { rewrite lookup_insert_ne by lia.
          replace (2 * S n) with (S (2 * n + 1)) by lia.
          apply lookup_insert_eq. }
        rewrite waitingCall_ge by (rewrite length_app; cbn; lia).
        apply chainPromise_pending. cbn. lia.
      * destruct (Hev j ltac:(lia)) as (p & Hp & Hc).
        exists p. split.
        { rewrite !lookup_insert_ne by lia. done. }
        destruct (decide (j = n)) as [->|Hne2].
        -- rewrite Hp0 in Hp. injection Hp as <-.
           apply chainPromise_settled. cbn. lia.
        -- rewrite waitingCall_app_lt by lia.
           eapply chainPromise_weaken; [exact Hc | cbn; lia | done].
    + intros j Hj. destruct (decide (j = n)) as [->|Hne1].
      * eexists. split; [apply lookup_insert_eq|].
        replace (S (2 * n + 1)) with (2 * n + 2) by lia.
        apply chainPromise_pending. cbn. lia.
      * destruct (Hod j ltac:(lia)) as (p & Hp & Hc).
        exists p. split.
        { rewrite !lookup_insert_ne by lia. done. }
        eapply chainPromise_weaken; [exact Hc | cbn; lia | done].
    + cbn. exists fn. rewrite Hjobs, Hrun, Hstarted.
      split_and!; try done.
      * by rewrite list_lookup_middle.
      * unfold n. by rewrite take_app_length.
  - (* a unit is ahead: the call waits on [stateOp] *)
    msimpl.
    rewrite lookup_insert_ne by lia. rewrite lookup_insert_eq. msimpl.
    assert (frontier (S n) (afterSubmit n ph) = frontier n ph) as Hfr
      by (by destruct ph).
    assert (ph <> Idle) as Hnot by (intros ->; cbn in Hge; lia).
    unfold Shape. msimpl. fold s. rewrite length_app. fold n. cbn [length].
    replace (n + 1) with (S n) by lia. rewrite Hfr.
    split_and!.
    + lia.
    + lia.
    + apply NoDup_app. split_and!; [done | | apply NoDup_singleton].
      intros x Hx ->%list_elem_of_singleton. done.
    + intros j Hj. destruct (decide (j = S n)) as [->|Hne1].
      * eexists. split.
        { rewrite lookup_insert_ne by lia.
          replace (2 * S n) with (S (2 * n + 1)) by lia.
          apply lookup_insert_eq. }
        rewrite waitingCall_ge by (rewrite length_app; cbn; lia).
        apply chainPromise_pending. lia.
      * destruct (decide (j = n)) as [->|Hne2].
        -- eexists. split.
           { rewrite !lookup_insert_ne by lia. apply lookup_insert_eq. }
           rewrite waitingCall_app_eq. apply chainPromise_pending. lia.
        -- destruct (Hev j ltac:(lia)) as (p & Hp & Hc).
           exists p. split.
           { rewrite !lookup_insert_ne by lia. done. }
           by rewrite waitingCall_app_lt by lia.
    + intros j Hj. destruct (decide (j = n)) as [->|Hne1].
      * eexists. split; [apply lookup_insert_eq|].
        replace (S (2 * n + 1)) with (2 * n + 2) by lia.
        apply chainPromise_pending. lia.
      * destruct (Hod j ltac:(lia)) as (p & Hp & Hc).
        exists p. split; [|done].
        rewrite !lookup_insert_ne by lia. done.
    + destruct ph as [|k|k|k]; [done|..]; cbn in *.
      * destruct Hph as (fn0 & Hk & Hjobs & Hrun & Hst).
        pose proof (lookup_lt_Some _ _ _ Hk) as Hlt.
        exists fn0. split_and!; try done.
        -- by rewrite lookup_app_l.
        -- rewrite take_app_le by (fold n; lia). done.
      * destruct Hph as (fn0 & Hk & Hjobs & Hrun & Hst).
        pose proof (lookup_lt_Some _ _ _ Hk) as Hlt.
        exists fn0. split_and!; try done.
        -- by rewrite lookup_app_l.
        -- rewrite take_app_le by (fold n; lia). done.
      * destruct Hph as (Hk & Hjobs & Hrun & Hst).
        split_and!; try done.
        -- rewrite length_app. cbn. lia.
        -- rewrite take_app_le by (fold n; lia). done.
Qed.

(** The queued call of the [k]-th unit: the unit starts. *)
Lemma Shape_job_call k m r rest :
  Shape (JobCall k) m -> jobs m = r :: rest ->
  Shape (Running k) (runJob r rest m).
Proof.
  intros (Hfresh & Hop & Hnd & Hev & Hod & Hph) Hjob.
  destruct Hph as (fn & Hk & Hjobs & Hrun & Hst).
  rewrite Hjobs in Hjob.
  assert (r = CallUnit fn (2 * k + 1)) as -> by congruence.
  assert (rest = []) as -> by congruence. clear Hjob.
  unfold Shape, runJob. msimpl.
  split_and!; try done.
  exists fn. rewrite Hrun, Hst. split_and!; try done.
  by rewrite (take_S_r _ _ fn).
Qed.

(** The queued reaction of [stateOp] after the [k]-th unit: the promise is
    fulfilled and the call of the next unit, if one was submitted, is
    queued. *)
Lemma Shape_job_return k m r rest :
  Shape (JobReturn k) m -> jobs m = r :: rest ->
  Shape (afterReturn (length (submitted m)) k) (runJob r rest m).
Proof.
  intros (Hfresh & Hop & Hnd & Hev & Hod & Hph) Hjob.
  destruct Hph as (Hk & Hjobs & Hrun & Hst).
  rewrite Hjobs in Hjob.
  assert (r = ReturnUndefined (2 * k + 2)) as -> by congruence.
  assert (rest = []) as -> by congruence. clear Hjob.
  set (s := submitted m) in *. set (n := length s) in *.
  destruct (Hev (S k) ltac:(lia)) as (p & Hp & Hc).
  replace (2 * S k) with (2 * k + 2) in Hp, Hc by lia.
  apply chainPromise_cases in Hc as [(Hlt & _) | (_ & ->)];
    [cbn in Hlt; lia|].
  unfold runJob, settle. msimpl. rewrite Hp. msimpl.
  assert (frontier n (afterReturn n k) = 2 * k + 3) as Hfr.
  { unfold afterReturn. case_decide; cbn; lia. }
  unfold Shape. msimpl. fold s. fold n. rewrite Hfr.
  split_and!; try done.
  - intros j Hj. destruct (decide (j = S k)) as [->|Hne].
    + eexists. split.
      { replace (2 * S k) with (2 * k + 2) by lia. apply lookup_insert_eq. }
      apply chainPromise_settled. lia.
    + destruct (Hev j Hj) as (p' & Hp' & Hc'). exists p'. split.
      { rewrite lookup_insert_ne by lia. done. }
      eapply chainPromise_weaken; [exact Hc' | cbn; lia | done].
  - intros j Hj. destruct (Hod j Hj) as (p' & Hp' & Hc'). exists p'. split.
    { rewrite lookup_insert_ne by lia. done. }
    eapply chainPromise_weaken; [exact Hc' | cbn; lia | done].
  - unfold afterReturn, waitingCall. case_decide as Hlast.
    + destruct (lookup_lt_is_Some_2 s (S k) Hlast) as [fn' Hfn'].
      rewrite Hfn'. cbn. exists fn'. split_and!; done.
    + rewrite lookup_ge_None_2 by (fold n; lia). cbn.
      split_and!; try done. rewrite Hst. apply take_ge. fold n. lia.
Qed.

(** The running unit finishes, with either outcome: its promise is settled
    and the reaction of [stateOp] is queued. *)
Lemma Shape_finish k m fn q o :
  Shape (Running k) m -> (fn, q) ∈ running m ->
  Shape (JobReturn k) (finish fn q o m).
Proof.
  intros (Hfresh & Hop & Hnd & Hev & Hod & Hph) Hin.
  destruct Hph as (fn0 & Hk & Hjobs & Hrun & Hst).
  rewrite Hrun in Hin. apply list_elem_of_singleton in Hin.
  assert (fn = fn0) as -> by congruence.
  assert (q = 2 * k + 1) as -> by congruence. clear Hin.
  set (s := submitted m) in *. set (n := length s) in *.
  pose proof (lookup_lt_Some _ _ _ Hk) as Hlt. fold n in Hlt.
  destruct (Hod k Hlt) as (p & Hp & Hc).
  apply chainPromise_cases in Hc as [(Hlt' & _) | (_ & ->)];
    [cbn in Hlt'; lia|].
  unfold finish, settle. msimpl. rewrite Hp, Hrun, Hjobs. msimpl.
  rewrite filter_cons_False by (intros H; by apply H).
  unfold Shape. msimpl. fold s. fold n.
  split_and!; try done.
  - intros j Hj. destruct (Hev j Hj) as (p' & Hp' & Hc'). exists p'. split.
    { rewrite lookup_insert_ne by lia. done. }
    eapply chainPromise_weaken; [exact Hc' | cbn; lia | done].
  - intros j Hj. destruct (decide (j = k)) as [->|Hne].
    + eexists. split; [apply lookup_insert_eq|].
      apply chainPromise_settled. cbn. lia.
    + destruct (Hod j Hj) as (p' & Hp' & Hc'). exists p'. split.
      { rewrite lookup_insert_ne by lia. done. }
      eapply chainPromise_weaken; [exact Hc' | cbn; lia | done].
Qed.

Lemma step_Shape m m' ph :
  step m m' -> Shape ph m -> exists ph', Shape ph' m'.
Proof.
  intros Hstep Hshape. destruct Hstep as [fn m Hnew | r rest m Hjob | fn q o m Hin].
  - eexists. by apply Shape_submit.
  - destruct ph as [|k|k|k].
    + destruct Hshape as (_ & _ & _ & _ & _ & Hjobs & _). congruence.
    + eexists. by apply Shape_job_call.
    + destruct Hshape as (_ & _ & _ & _ & _ & fn & _ & Hjobs & _). congruence.
    + eexists. by apply Shape_job_return.
  - destruct ph as [|k|k|k].
    + destruct Hshape as (_ & _ & _ & _ & _ & _ & Hrun & _).
      rewrite Hrun in Hin. by apply elem_of_nil in Hin.
    + destruct Hshape as (_ & _ & _ & _ & _ & fn' & _ & _ & Hrun & _).
      rewrite Hrun in Hin. by apply elem_of_nil in Hin.
    + eexists. by apply Shape_finish.
    + destruct Hshape as (_ & _ & _ & _ & _ & _ & _ & Hrun & _).
      rewrite Hrun in Hin. by apply elem_of_nil in Hin.
Qed.

(** Every reachable machine has the shape of one of the four phases. *)
Lemma reachable_Shape m : reachable m -> exists ph, Shape ph m.
Proof.
  unfold reachable. revert m.
  apply (rtc_ind_r (fun m => exists ph, Shape ph m) initial).
  - exists Idle. apply Shape_initial.
  - intros m0 m _ Hstep [ph Hph]. by apply (step_Shape m0 m ph).
Qed.

Lemma drain_cons fuel m r rest :
  jobs m = r :: rest -> drain (S fuel) m = drain fuel (runJob r rest m).
Proof. intros H. cbn [drain]. by rewrite H. Qed.

Lemma drain_nil fuel m : jobs m = [] -> drain fuel m = m.
Proof. intros H. destruct fuel; cbn [drain]; [done|]. by rewrite H. Qed.

Lemma runJob_submitted r rest m : submitted (runJob r rest m) = submitted m.
Proof. destruct r; unfold runJob, settle; msimpl; by repeat case_match. Qed.

Lemma runJob_return_started q rest m :
  started (runJob (ReturnUndefined q) rest m) = started m.
Proof. unfold runJob, settle; msimpl; by repeat case_match. Qed.

(** With no unit running, the run time needs at most two jobs to call the
    next submitted unit, if there is one. *)
Lemma drain_starts_next ph m :
  Shape ph m -> running m = [] ->
  jobs (drain 2 m) = [] /\
  match submitted m !! length (started m) with
  | Some fn' =>
    exists q', running (drain 2 m) = [(fn', q')] /\
               started (drain 2 m) = started m ++ [fn']
  | None => running (drain 2 m) = [] /\ started (drain 2 m) = submitted m
  end.
Proof.
  intros Hshape Hidle. destruct ph as [|k|k|k].
  - destruct Hshape as (_ & _ & _ & _ & _ & Hjobs & Hrun & Hst).
    rewrite (drain_nil _ _ Hjobs). split; [done|].
    rewrite Hst, lookup_ge_None_2 by lia. done.
  - pose proof (fun r rest => Shape_job_call k m r rest Hshape) as Hnext.
    destruct Hshape as (_ & _ & _ & _ & _ & fn & Hk & Hjobs & Hrun & Hst).
    pose proof (lookup_lt_Some _ _ _ Hk) as Hlt.
    specialize (Hnext _ _ Hjobs).
    rewrite (drain_cons _ _ _ _ Hjobs).
    destruct Hnext as (_ & _ & _ & _ & _ & fn1 & Hk1 & Hjobs1 & Hrun1 & Hst1).
    rewrite (drain_nil _ _ Hjobs1). split; [done|].
    rewrite runJob_submitted in Hk1, Hst1.
    rewrite Hst, length_take_le, Hk by lia.
    assert (fn1 = fn) as -> by congruence.
    eexists. split; [exact Hrun1|].
    rewrite Hst1. by apply take_S_r.
  - destruct Hshape as (_ & _ & _ & _ & _ & fn & _ & _ & Hrun & _). congruence.
  - pose proof (fun r rest => Shape_job_return k m r rest Hshape) as Hnext.
    destruct Hshape as (_ & _ & _ & _ & _ & Hk & Hjobs & Hrun & Hst).
    specialize (Hnext _ _ Hjobs).
    rewrite (drain_cons _ _ _ _ Hjobs).
    set (m1 := runJob (ReturnUndefined (2 * k + 2)) [] m) in *.
    assert (submitted m1 = submitted m) as Hsub by apply runJob_submitted.
    assert (started m1 = started m) as Hstart by apply runJob_return_started.
    unfold afterReturn in Hnext.
    rewrite Hst, length_take_le by lia.
    case_decide as Hlast.
    + pose proof (fun r rest => Shape_job_call (S k) m1 r rest Hnext) as Hnext2.
      destruct Hnext as (_ & _ & _ & _ & _ & fn & Hk1 & Hjobs1 & Hrun1 & Hst1).
      specialize (Hnext2 _ _ Hjobs1).
      rewrite (drain_cons _ _ _ _ Hjobs1).
      destruct Hnext2 as (_ & _ & _ & _ & _ & fn2 & Hk2 & Hjobs2 & Hrun2 & Hst2).
      rewrite (drain_nil _ _ Hjobs2). split; [done|].
      rewrite runJob_submitted in Hk2, Hst2.
      rewrite Hsub in Hk1, Hk2, Hst2. rewrite Hk1.
      assert (fn2 = fn) as -> by congruence.
      eexists. split; [exact Hrun2|].
      rewrite Hst2. by apply take_S_r.
    + destruct Hnext as (_ & _ & _ & _ & _ & Hjobs1 & Hrun1 & Hst1).
      rewrite (drain_nil _ _ Hjobs1). split; [done|].
      rewrite lookup_ge_None_2 by lia. rewrite Hsub in Hst1. done.
Qed.

Lemma then_fst p r m : (then_ p r m).1 = fresh m.
Proof. unfold then_. by repeat case_match. Qed.

Lemma then_fresh p r m : fresh (then_ p r m).2 = S (fresh m).
Proof. unfold then_. by repeat case_match. Qed.

Lemma then_submitted p r m : submitted (then_ p r m).2 = submitted m.
Proof. unfold then_. by repeat case_match. Qed.

(** [then] leaves no promise rejected that was not. *)
Lemma then_settled p r m id x :
  heap (then_ p r m).2 !! id = Some x ->
  settled x = None \/ heap m !! id = Some x.
Proof.
  unfold then_. destruct (heap m !! p) as [[[o|] rs]|] eqn:Hp; msimpl.
  - intros H. destruct (decide (id = fresh m)) as [->|Hne].
    + rewrite lookup_insert_eq in H. left. by inversion H.
    + rewrite lookup_insert_ne in H by done. by right.
  - intros H. destruct (decide (id = p)) as [->|Hne1].
    + rewrite lookup_insert_eq in H. left. by inversion H.
    + rewrite lookup_insert_ne in H by done.
      destruct (decide (id = fresh m)) as [->|Hne].
      * rewrite lookup_insert_eq in H. left. by inversion H.
      * rewrite lookup_insert_ne in H by done. by right.
  - intros H. destruct (decide (id = fresh m)) as [->|Hne].
    + rewrite lookup_insert_eq in H. left. by inversion H.
    + rewrite lookup_insert_ne in H by done. by right.
Qed.

Lemma runStateOp_fst fn m : (runStateOp fn m).1 = fresh m.
Proof.
  unfold runStateOp.
  pose proof (then_fst (stateOp m) (CallUnit fn) m) as H1.
  destruct (then_ (stateOp m) (CallUnit fn) m) as [next m1].
  destruct (then_ next ReturnUndefined m1) as [p m2]. exact H1.
Qed.

Lemma runStateOp_submitted fn m :
  submitted (runStateOp fn m).2 = submitted m ++ [fn].
Proof.
  unfold runStateOp.
  destruct (then_ (stateOp m) (CallUnit fn) m) as [next m1].
  by destruct (then_ next ReturnUndefined m1) as [p m2].
Qed.

Lemma runStateOp_settled fn m id x :
  heap (runStateOp fn m).2 !! id = Some x ->
  settled x = None \/ heap m !! id = Some x.
Proof.
  unfold runStateOp.
  pose proof (then_settled (stateOp m) (CallUnit fn) m id) as H1.
  destruct (then_ (stateOp m) (CallUnit fn) m) as [next m1].
  pose proof (then_settled next ReturnUndefined m1 id) as H2.
  destruct (then_ next ReturnUndefined m1) as [p m2]. msimpl.
  intros H. destruct (H2 x H) as [?|H3]; [by left|]. by apply H1.
Qed.

Lemma settle_lookup q o m id x :
  heap (settle q o m) !! id = Some x ->
  (id = q /\ settled x = Some o) \/ heap m !! id = Some x.
Proof.
  unfold settle. destruct (heap m !! q) as [[[o'|] rs]|] eqn:Hq; msimpl;
    try (by right).
  intros H. destruct (decide (id = q)) as [->|Hne].
  - rewrite lookup_insert_eq in H. left. by inversion H.
  - rewrite lookup_insert_ne in H by done. by right.
Qed.

Lemma finish_submitted fn q o m : submitted (finish fn q o m) = submitted m.
Proof. unfold finish, settle. msimpl. by repeat case_match. Qed.

(** The only unit that can be running is the one the phase names, and the
    promise it settles has an odd identity. *)
Lemma running_phase ph m fn q :
  Shape ph m -> (fn, q) ∈ running m ->
  exists k, ph = Running k /\ submitted m !! k = Some fn /\ q = 2 * k + 1.
Proof.
  intros Hshape Hin. destruct ph as [|k|k|k].
  - destruct Hshape as (_ & _ & _ & _ & _ & _ & Hrun & _).
    rewrite Hrun in Hin. by apply elem_of_nil in Hin.
  - destruct Hshape as (_ & _ & _ & _ & _ & fn' & _ & _ & Hrun & _).
    rewrite Hrun in Hin. by apply elem_of_nil in Hin.
  - destruct Hshape as (_ & _ & _ & _ & _ & fn' & Hk & _ & Hrun & _).
    rewrite Hrun in Hin. apply list_elem_of_singleton in Hin.
    inversion Hin; subst. by exists k.
  - destruct Hshape as (_ & _ & _ & _ & _ & _ & _ & Hrun & _).
    rewrite Hrun in Hin. by apply elem_of_nil in Hin.
Qed.

Lemma step_submitted m m' : step m m' -> submitted m `prefix_of` submitted m'.
Proof.
  intros [fn m0 Hnew | r rest m0 Hjob | fn q o m0 Hin].
  - rewrite runStateOp_submitted. by apply prefix_app_r.
  - by rewrite runJob_submitted.
  - by rewrite finish_submitted.
Qed.

Lemma steps_submitted m m' :
  rtc step m m' -> submitted m `prefix_of` submitted m'.
Proof.
  induction 1 as [|m1 m2 m3 Hstep _ IH]; [done|].
  etrans; [by apply step_submitted | exact IH].
Qed.


(** *** Runs as traces *)

Lemma run_snoc es e : run (es ++ [e]) = event e (run es).
Proof. unfold run. by rewrite foldl_app. Qed.

Lemma submits_app es1 es2 : submits (es1 ++ es2) = submits es1 ++ submits es2.
Proof.
  induction es1 as [|[fn| |fn o] es1 IH]; cbn [app submits]; [done|..|done|done].
  by rewrite IH.
Qed.

Lemma promiseOf_Some fn us q : promiseOf fn us = Some q -> (fn, q) ∈ us.
Proof.
  induction us as [|[f q'] us IH]; cbn [promiseOf]; [done|].
  case_decide as Hf.
  - intros [= <-]. subst f. left.
  - intros H. right. by apply IH.
Qed.

(** Every event of a trace is an event of the step relation, or nothing;
    and the units that the machine has taken are the units of the calls, in
    their order. *)
Lemma run_reachable es :
  NoDup (submits es) -> reachable (run es) /\ submitted (run es) = submits es.
Proof.
  induction es as [|e es IH] using rev_ind; intros Hnd.
  - split; [apply rtc_refl | done].
  - rewrite submits_app in Hnd. rewrite run_snoc, submits_app.
    apply NoDup_app in Hnd as (Hl & Hfresh & _).
    destruct (IH Hl) as [Hreach Hsub].
    destruct e as [fn| |fn o]; cbn [event submits].
    + split.
      * eapply rtc_r; [exact Hreach|]. apply step_submit. rewrite Hsub.
        intros Hin. apply (Hfresh fn Hin). left.
      * by rewrite runStateOp_submitted, Hsub.
    + rewrite app_nil_r. destruct (jobs (run es)) as [|r rest] eqn:Hjobs.
      * done.
      * split; [|by rewrite runJob_submitted].
        eapply rtc_r; [exact Hreach|]. by apply step_job.
    + rewrite app_nil_r.
      destruct (promiseOf fn (running (run es))) as [q|] eqn:Hq.
      * split; [|by rewrite finish_submitted].
        eapply rtc_r; [exact Hreach|]. by apply step_finish, promiseOf_Some.
      * done.
Qed.

(** What the shape says of the units. *)
Lemma Shape_running ph m : Shape ph m -> length (running m) <= 1.
Proof.
  intros Hshape. destruct ph as [|k|k|k].
  - destruct Hshape as (_ & _ & _ & _ & _ & _ & -> & _). cbn. lia.
  - destruct Hshape as (_ & _ & _ & _ & _ & fn & _ & _ & -> & _). cbn. lia.
  - destruct Hshape as (_ & _ & _ & _ & _ & fn & _ & _ & -> & _). cbn. lia.
  - destruct Hshape as (_ & _ & _ & _ & _ & _ & _ & -> & _). cbn. lia.
Qed.

Lemma Shape_started ph m : Shape ph m -> started m `prefix_of` submitted m.
Proof.
  intros Hshape. destruct ph as [|k|k|k].
  - destruct Hshape as (_ & _ & _ & _ & _ & _ & _ & ->). done.
  - destruct Hshape as (_ & _ & _ & _ & _ & fn & _ & _ & _ & ->).
    apply prefix_take.
  - destruct Hshape as (_ & _ & _ & _ & _ & fn & _ & _ & _ & ->).
    apply prefix_take.
  - destruct Hshape as (_ & _ & _ & _ & _ & _ & _ & _ & ->).
    apply prefix_take.
Qed.

(** With no job queued and no unit running, every unit has been called. *)
Lemma Shape_quiet ph m :
  Shape ph m -> jobs m = [] -> running m = [] -> started m = submitted m.
Proof.
  intros Hshape Hjobs Hrun. destruct ph as [|k|k|k].
  - by destruct Hshape as (_ & _ & _ & _ & _ & _ & _ & ->).
  - destruct Hshape as (_ & _ & _ & _ & _ & fn & _ & Hj & _). congruence.
  - destruct Hshape as (_ & _ & _ & _ & _ & fn & _ & _ & Hr & _). congruence.
  - destruct Hshape as (_ & _ & _ & _ & _ & _ & Hj & _). congruence.
Qed.

Lemma drain_Shape n : forall m ph, Shape ph m -> exists ph', Shape ph' (drain n m).
Proof.
  induction n as [|n IH]; intros m ph Hshape; cbn [drain]; [by exists ph|].
  destruct (jobs m) as [|r rest] eqn:Hjobs; [by exists ph|].
  destruct (step_Shape m (runJob r rest m) ph (step_job r rest m Hjobs) Hshape)
    as [ph1 Hph1].
  by apply (IH _ ph1).
Qed.

Lemma drain_submitted n : forall m, submitted (drain n m) = submitted m.
Proof.
  induction n as [|n IH]; intros m; cbn [drain]; [done|].
  destruct (jobs m) as [|r rest]; [done|].
  by rewrite IH, runJob_submitted.
Qed.

(** After the job queue has been emptied, every unit has been called and
    none is running, or one unit is running. *)
Lemma drain_cases ph m :
  Shape ph m ->
  jobs (drain 2 m) = [] /\
  (running (drain 2 m) = [] /\ started (drain 2 m) = submitted m \/
   exists fn q, running (drain 2 m) = [(fn, q)] /\
     waiting (drain 2 m) + 1 <= waiting m + length (running m)).
Proof.
  intros Hshape. destruct (running m) as [|u us] eqn:Hrun.
  - destruct (drain_starts_next ph m Hshape Hrun) as [Hjobs Hnext].
    split; [exact Hjobs|].
    destruct (submitted m !! length (started m)) as [fn'|] eqn:Hlook.
    + right. destruct Hnext as (q' & Hrun' & Hst'). exists fn', q'.
      split; [exact Hrun'|]. unfold waiting.
      apply lookup_lt_Some in Hlook.
      rewrite drain_submitted, Hst', length_app. cbn. lia.
    + by left.
  - assert (jobs m = []) as Hjobs.
    { destruct ph as [|k|k|k].
      - by destruct Hshape as (_ & _ & _ & _ & _ & ? & _).
      - destruct Hshape as (_ & _ & _ & _ & _ & fn & _ & _ & Hr & _).
        congruence.
      - by destruct Hshape as (_ & _ & _ & _ & _ & fn & _ & ? & _).
      - destruct Hshape as (_ & _ & _ & _ & _ & _ & _ & Hr & _). congruence. }
    rewrite (drain_nil _ _ Hjobs). split; [exact Hjobs|].
    right. destruct u as [fn q]. exists fn, q.
    pose proof (Shape_running ph m Hshape) as Hone. rewrite Hrun in Hone.
    destruct us; [|cbn in Hone; lia].
    split; [by rewrite Hrun|]. cbn. lia.
Qed.

(** When the units that run finish, whatever their outcomes, every unit
    that has been submitted is called. *)
Lemma settleAll_all os : forall m ph,
  Shape ph m ->
  waiting m + length (running m) <= length os ->
  jobs (settleAll os m) = [] /\ running (settleAll os m) = [] /\
  started (settleAll os m) = submitted m.
Proof.
  induction os as [|o os IH]; intros m ph Hshape Hlen.
  - cbn [settleAll]. destruct (drain_cases ph m Hshape) as [Hjobs Hcases].
    destruct Hcases as [[Hrun Hst]|(fn & q & _ & Hw)]; [done|].
    cbn [length] in Hlen. lia.
  - cbn [settleAll]. destruct (drain_cases ph m Hshape) as [Hjobs Hcases].
    destruct (drain_Shape 2 m ph Hshape) as [ph1 Hph1].
    destruct Hcases as [[Hrun Hst]|(fn & q & Hrun & Hw)].
    + by rewrite Hrun.
    + rewrite Hrun.
      assert ((fn, q) ∈ running (drain 2 m)) as Hin by (rewrite Hrun; left).
      destruct (running_phase _ _ _ _ Hph1 Hin) as (k & -> & _ & _).
      pose proof (Shape_finish k _ fn q o Hph1 Hin) as Hfin.
      assert (running (finish fn q o (drain 2 m)) = []) as Hidle
        by (by destruct Hfin as (_ & _ & _ & _ & _ & _ & _ & ? & _)).
      assert (started (finish fn q o (drain 2 m)) = started (drain 2 m))
        as Hst.
      { unfold finish, settle. msimpl. by repeat case_match. }
      destruct (IH _ _ Hfin) as (Hj & Hr & Hs).
      { unfold waiting in *. rewrite Hidle, Hst, finish_submitted.
        cbn [length] in *. lia. }
      split; [exact Hj|]. split; [exact Hr|].
      by rewrite Hs, finish_submitted, drain_submitted.
Qed.

End StateQueueFacts.

(** C9: the serialization queue.  For every trace of events (callers
    calling [runStateOp], the run time taking jobs, units finishing
    fulfilled or rejected, in any interleaving) in which the units are
    distinct: at most one unit is running; the units that have been called
    are the first of the units passed to [runStateOp], in the order of the
    calls of [runStateOp] in the trace; whenever no job is queued and no
    unit is running, every unit passed to [runStateOp] has been called; and
    when the run goes on with each running unit finishing, with whatever
    outcomes, the run time comes to rest with every unit called, also after
    units that rejected. *)
Theorem runStateOp_serializes (es : list StateQueue.Event) :
  NoDup (StateQueue.submits es) ->
  let m := StateQueue.run es in
  (length (StateQueue.running m) <= 1)%nat /\
  StateQueue.started m `prefix_of` StateQueue.submits es /\
  (StateQueue.jobs m = [] -> StateQueue.running m = [] ->
   StateQueue.started m = StateQueue.submits es) /\
  (forall os,
     (length (StateQueue.submits es) <= length os)%nat ->
     let m' := StateQueue.settleAll os m in
     StateQueue.jobs m' = [] /\ StateQueue.running m' = [] /\
     StateQueue.started m' = StateQueue.submits es).
Proof.
  intros Hnd m.
  destruct (StateQueueFacts.run_reachable es Hnd) as [Hreach Hsub].
  destruct (StateQueueFacts.reachable_Shape _ Hreach) as [ph Hshape].
  fold m in Hshape, Hsub. rewrite <- Hsub.
  pose proof (StateQueueFacts.Shape_running ph m Hshape) as Hone.
  pose proof (StateQueueFacts.Shape_started ph m Hshape) as Hpre.
  split_and!.
  - exact Hone.
  - exact Hpre.
  - by apply (StateQueueFacts.Shape_quiet ph).
  - intros os Hlen m'.
    apply (StateQueueFacts.settleAll_all os m ph Hshape).
    unfold StateQueue.waiting.
    destruct (StateQueue.running m) as [|u us] eqn:Hrun; cbn [length] in *.
    + lia.
    + assert (StateQueue.started m <> []) as Hst.
      { assert (u ∈ StateQueue.running m) as Hin by (rewrite Hrun; left).
        destruct u as [fn q].
        destruct (StateQueueFacts.running_phase _ _ _ _ Hshape Hin)
          as (k & -> & _ & _).
        destruct Hshape as (_ & _ & _ & _ & _ & fn' & Hk & _ & _ & ->).
        apply lookup_lt_Some in Hk.
        destruct (StateQueue.submitted m); [cbn in Hk; lia | done]. }
      apply prefix_length in Hpre.
      assert (length (StateQueue.started m) <> 0)%nat
        by (by destruct (StateQueue.started m)).
      cbn [length] in *. lia.
Qed.

Lemma runStateOp_serializes_witness :
  StateQueue.running
    (StateQueue.run
       [StateQueue.Submit 10; StateQueue.Submit 11; StateQueue.RunJob])
    = [(10, 1)]%nat /\
  StateQueue.started
    (StateQueue.settleAll [StateQueue.Rejected; StateQueue.Fulfilled]
       (StateQueue.run
          [StateQueue.Submit 10; StateQueue.Submit 11; StateQueue.RunJob]))
    = [10; 11]%nat.
Proof.
  split; [vm_compute; reflexivity|].
  refine (proj2 (proj2 (proj2 (proj2 (proj2
    (runStateOp_serializes
       [StateQueue.Submit 10; StateQueue.Submit 11; StateQueue.RunJob] _)))
    [StateQueue.Rejected; StateQueue.Fulfilled] _))).
  - apply (bool_decide_unpack _). vm_compute. exact I.
  - cbn. lia.
Defined.

(** * Further properties of the code *)

(** ** Text helpers *)

Section TextHelperFacts.

Lemma collapseSpaces_onlySpaces b s : onlySpaces (collapseSpaces b s).
Proof.
  unfold onlySpaces. revert b.
  induction s as [|d r IH]; intros b; simpl; [constructor|].
  destruct (is_ws d) eqn:Hd.
  - destruct b; [apply IH|]. constructor; [done | apply IH].
  - constructor; [congruence | apply IH].
Qed.

Lemma collapseSpaces_singleSpaced b s :
  singleSpaced (collapseSpaces b s) /\
  (b = true -> head_ok (collapseSpaces b s)).
Proof.
  revert b. induction s as [|d r IH]; intros b; simpl; [done|].
  destruct (is_ws d) eqn:Hd.
  - destruct b.
    + apply IH.
    + split; [|done]. destruct (IH true) as [Hs Hh].
      destruct (collapseSpaces true r) as [|e r'] eqn:E; [done|].
      split; [|done]. intros _. by apply Hh.
  - split; [|done]. destruct (IH false) as [Hs _].
    destruct (collapseSpaces false r) as [|e r'] eqn:E; [done|].
    split; [congruence | done].
Qed.

Lemma singleSpaced_tail c s : singleSpaced (c :: s) -> singleSpaced s.
Proof. destruct s; [done|]. by intros [_ ?]. Qed.

Lemma singleSpaced_trim_start s : singleSpaced s -> singleSpaced (trim_start s).
Proof.
  induction s as [|c r IH]; [done|]. intros H. simpl.
  destruct (is_ws c); [|done]. by apply IH, (singleSpaced_tail c).
Qed.

Lemma singleSpaced_trim_end s : singleSpaced s -> singleSpaced (trim_end s).
Proof.
  induction s as [|c r IH]; [done|]. intros H.
  specialize (IH (singleSpaced_tail _ _ H)). simpl.
  destruct (trim_end r) as [|d r'] eqn:E.
  - by destruct (is_ws c).
  - split; [|done]. destruct r as [|d0 r0]; [done|].
    destruct H as [H _]. intros Hc. specialize (H Hc).
    simpl in E. destruct (trim_end r0) as [|e r1].
    + rewrite H in E. by injection E as <- _.
    + by injection E as <- _.
Qed.

Lemma onlySpaces_trim s : onlySpaces s -> onlySpaces (trim s).
Proof.
  unfold onlySpaces. rewrite !Forall_forall. intros H c Hc.
  by apply H, trim_sub.
Qed.

Lemma collapseSpaces_fixed s : forall b,
  singleSpaced s -> onlySpaces s -> (b = true -> head_ok s) ->
  collapseSpaces b s = s.
Proof.
  induction s as [|c r IH]; intros b Hs Ho Hb; [done|]. simpl.
  apply Forall_cons in Ho as [Hc Ho].
  pose proof (singleSpaced_tail _ _ Hs) as Hr.
  destruct (is_ws c) eqn:Ec.
  - destruct b; [by specialize (Hb eq_refl); simpl in Hb; congruence|].
    rewrite (Hc eq_refl). f_equal. apply IH; [done..|].
    intros _. destruct r as [|d r']; [done|]. destruct Hs as [Hs _].
    simpl. by apply Hs.
  - f_equal. by apply IH.
Qed.

End TextHelperFacts.

(** X1: [normalizeHtml] gives a text whose only white space is single
    space characters between other characters, and leaves such a text as
    it is: it is idempotent. *)
Theorem normalizeHtml_normal_form (html : jsstring) :
  onlySpaces (normalizeHtml html) /\
  singleSpaced (normalizeHtml html) /\
  head_ok (normalizeHtml html) /\ last_ok (normalizeHtml html) /\
  normalizeHtml (normalizeHtml html) = normalizeHtml html.
Proof.
  assert (onlySpaces (normalizeHtml html)) as Ho
    by apply onlySpaces_trim, collapseSpaces_onlySpaces.
  assert (singleSpaced (normalizeHtml html)) as Hs.
  { apply singleSpaced_trim_end, singleSpaced_trim_start.
    apply collapseSpaces_singleSpaced. }
  split_and!; [done | done | apply trim_head_ok | apply trim_last_ok |].
  unfold normalizeHtml at 1.
  rewrite collapseSpaces_fixed by done. apply trim_idemp.
Qed.

Section UrlFacts.

Lemma hasHttpScheme_origin (p : jsstring) : hasHttpScheme (LOE_ORIGIN ++ p) = true.
Proof. reflexivity. Qed.

End UrlFacts.

(** X2: [absoluteLoeMediaUrl] gives the empty string for the empty string
    only; for every other path the result carries a scheme that the
    function itself recognises, so resolving an address twice is the same as
    resolving it once; and a relative path gives the same address with and
    without its leading slash. *)
Theorem absoluteLoeMediaUrl_resolved (pathname : jsstring) :
  (absoluteLoeMediaUrl pathname = [] <-> pathname = []) /\
  (pathname <> [] -> hasHttpScheme (absoluteLoeMediaUrl pathname) = true) /\
  absoluteLoeMediaUrl (absoluteLoeMediaUrl pathname) =
    absoluteLoeMediaUrl pathname /\
  (hasHttpScheme pathname = false ->
   match pathname with c :: _ => c <> SLASH | [] => False end ->
   absoluteLoeMediaUrl (SLASH :: pathname) = absoluteLoeMediaUrl pathname).
Proof.
  unfold absoluteLoeMediaUrl.
  destruct pathname as [|c r]; [by split_and!|]. cbn [nonempty negb].
  destruct (hasHttpScheme (c :: r)) eqn:Hs.
  - split_and!; [done | done | by rewrite Hs | done].
  - split_and!.
    + split; [|done]. by destruct (c =? SLASH).
    + intros _. apply hasHttpScheme_origin.
    + assert (forall p, nonempty (LOE_ORIGIN ++ p) = true) as Hne by done.
      rewrite Hne, hasHttpScheme_origin. done.
    + intros _ Hc. apply N.eqb_neq in Hc. rewrite Hc.
      assert (hasHttpScheme (SLASH :: c :: r) = false) as -> by done.
      done.
Qed.

Lemma absoluteLoeMediaUrl_resolved_witness :
  absoluteLoeMediaUrl (js "/media/today.png") =
  absoluteLoeMediaUrl (js "media/today.png").
Proof.
  refine (proj2 (proj2 (proj2
    (absoluteLoeMediaUrl_resolved (js "media/today.png")))) _ _).
  - reflexivity.
  - discriminate.
Defined.

(** X3: the result of [normalizeMultilineText] is empty exactly when every
    line of the input is blank; otherwise each of its lines is non-empty and
    has no white space at either end, and the text holds no carriage
    return before a line feed. *)
Theorem normalizeMultilineText_lines (raw : jsstring) :
  (normalizeMultilineText raw = [] <->
   Forall (fun l => trim l = []) (split LF (replace_crlf raw))) /\
  (normalizeMultilineText raw <> [] ->
   Forall cleanLine (split LF (normalizeMultilineText raw))) /\
  replace_crlf (normalizeMultilineText raw) = normalizeMultilineText raw.
Proof.
  pose proof (normalizedLines_clean raw) as Hclean.
  rewrite split_normalize, normalizeMultilineText_join.
  split_and!.
  - unfold normalizedLines in *.
    set (ls := map trim (split LF (replace_crlf raw))) in *.
    rewrite Forall_forall. split.
    + intros Hnil l Hl.
      destruct (trim l) as [|c r] eqn:E; [done|]. exfalso.
      assert (c :: r ∈ filter (fun l => nonempty l) ls) as Hin.
      { apply list_elem_of_filter. split; [done|].
        rewrite <- E. unfold ls. by apply list_elem_of_fmap_2. }
      destruct (filter (fun l : jsstring => nonempty l) ls) as [|l0 ls0] eqn:Ef;
        [by apply elem_of_nil in Hin|].
      apply (join_clean_nonempty (l0 :: ls0)); done.
    + intros Hall.
      assert (filter (fun l : jsstring => nonempty l) ls = []) as ->; [|done].
      unfold ls. clear Hclean ls.
      induction (split LF (replace_crlf raw)) as [|l' ls' IH]; [done|].
      cbn [map]. rewrite filter_cons_False.
      * apply IH. intros l Hl. apply Hall. by right.
      * rewrite (Hall l') by left. by intros ?.
  - intros Hne. by destruct (normalizedLines raw).
  - apply replace_crlf_join. eapply Forall_impl; [exact Hclean|].
    intros l. apply cleanLine_ok.
Qed.

Section ExtractFacts.

Lemma filter_filter_same {A} (P : A -> Prop) `{!forall x, Decision (P x)}
  (l : list A) : filter P (filter P l) = filter P l.
Proof.
  induction l as [|x l IH]; [done|].
  destruct (decide (P x)) as [Hx|Hx].
  - rewrite (filter_cons_True P x l Hx), (filter_cons_True P x _ Hx).
    by rewrite IH.
  - by rewrite (filter_cons_False P x l Hx).
Qed.

Lemma groupLines_clean text :
  Forall cleanLine (filter (fun l => isGroupLine l) (normalizedLines text)).
Proof. apply filter_cleanLine, normalizedLines_clean. Qed.

End ExtractFacts.

(** X4: the comparison text [extractGroupLinesOnly] keeps exactly the
    lines of the normalised text that start with a subgroup heading, in
    their order.  So it is idempotent, and it does not see blank lines,
    white space around lines, or lines of any other shape. *)
Theorem extractGroupLinesOnly_keeps_group_lines (text : jsstring) :
  normalizedLines (extractGroupLinesOnly text) =
    filter (fun l => isGroupLine l) (normalizedLines text) /\
  extractGroupLinesOnly (extractGroupLinesOnly text) =
    extractGroupLinesOnly text /\
  extractGroupLinesOnly (normalizeMultilineText text) =
    extractGroupLinesOnly text.
Proof.
  assert (normalizedLines (extractGroupLinesOnly text) =
          filter (fun l => isGroupLine l) (normalizedLines text)) as Hlines.
  { rewrite extractGroupLinesOnly_lines.
    apply normalizedLines_join, groupLines_clean. }
  split_and!; [exact Hlines | |].
  - rewrite (extractGroupLinesOnly_lines (extractGroupLinesOnly text)), Hlines.
    rewrite filter_filter_same. by rewrite extractGroupLinesOnly_lines.
  - by rewrite !extractGroupLinesOnly_lines, normalizedLines_normalize.
Qed.

(** ** Subgroup ids *)

Section NumberFacts.

Lemma NumberOfDigits_acc (d : Decimal.uint) (acc : positive) :
  fold_left (fun a c => 10 * a + (c - 48)) (digits_of_uint d) (Npos acc) =
  Npos (Pos.of_uint_acc d acc).
Proof.
  revert acc. induction d as [|d IH|d IH|d IH|d IH|d IH|d IH|d IH|d IH|d IH|d IH];
    intros acc; [done|..]; cbn [digits_of_uint fold_left Pos.of_uint_acc];
    rewrite <- IH; f_equal; lia.
Qed.

Lemma NumberOfDigits_uint (d : Decimal.uint) :
  NumberOfDigits (digits_of_uint d) = Pos.of_uint d.
Proof.
  unfold NumberOfDigits.
  induction d as [|d IH|d IH|d IH|d IH|d IH|d IH|d IH|d IH|d IH|d IH];
    [done| |..]; cbn [digits_of_uint fold_left Pos.of_uint].
  - exact IH.
  - rewrite <- (NumberOfDigits_acc d 1). f_equal.
  - rewrite <- (NumberOfDigits_acc d 2). f_equal.
  - rewrite <- (NumberOfDigits_acc d 3). f_equal.
  - rewrite <- (NumberOfDigits_acc d 4). f_equal.
  - rewrite <- (NumberOfDigits_acc d 5). f_equal.
  - rewrite <- (NumberOfDigits_acc d 6). f_equal.
  - rewrite <- (NumberOfDigits_acc d 7). f_equal.
  - rewrite <- (NumberOfDigits_acc d 8). f_equal.
  - rewrite <- (NumberOfDigits_acc d 9). f_equal.
Qed.

(** [Number(String(n))] is [n]. *)
Lemma NumberOfDigits_NumberToString (n : N) :
  NumberOfDigits (NumberToString n) = n.
Proof.
  unfold NumberToString. rewrite NumberOfDigits_uint.
  apply DecimalN.Unsigned.of_to.
Qed.

Lemma digits_of_uint_digits (d : Decimal.uint) :
  Forall (fun c => is_digit c = true) (digits_of_uint d).
Proof. induction d; simpl; by constructor. Qed.

Lemma NumberToString_digitRun (n : N) : digitRun (NumberToString n).
Proof.
  split; [|apply digits_of_uint_digits].
  unfold NumberToString. destruct n as [|p]; [done|]. cbn [N.to_uint].
  pose proof (DecimalPos.Unsigned.to_uint_nonnil p) as Hp.
  by destruct (Pos.to_uint p).
Qed.

End NumberFacts.

Section GroupIdFacts.

Lemma matchGroupId_shape (s m1 m2 : jsstring) :
  matchGroupId s = Some (m1, m2) <->
  exists sep, s = m1 ++ sep :: m2 /\ digitRun m1 /\ is_sep sep = true /\
              digitRun m2.
Proof.
  split.
  - unfold matchGroupId.
    pose proof (span_spec is_digit s) as [Hs H1].
    destruct (span is_digit s) as [d1 r1]. simpl in Hs, H1.
    destruct d1 as [|x d1']; [done|]. destruct r1 as [|c r2]; [done|].
    destruct (is_sep c) eqn:Hc; [|done].
    pose proof (span_spec is_digit r2) as [Hr H2].
    destruct (span is_digit r2) as [d2 r3]. simpl in Hr, H2.
    destruct d2 as [|y d2']; [done|]. destruct r3; [|done].
    intros [= <- <-]. exists c. rewrite app_nil_r in Hr.
    split; [by rewrite Hs, Hr|]. by split_and!.
  - intros (sep & -> & [Hn1 H1] & Hsep & [Hn2 H2]). unfold matchGroupId.
    rewrite (span_run is_digit m1 (sep :: m2))
      by (done || by apply is_sep_not_digit).
    destruct m1 as [|x m1']; [done|]. rewrite Hsep.
    replace m2 with (m2 ++ []) at 1 by apply app_nil_r.
    rewrite (span_run is_digit m2 []) by done.
    by destruct m2.
Qed.

Lemma normalizeGroupId_shape (raw g : jsstring) :
  normalizeGroupId raw = Some g <->
  exists d1 sep d2,
    trim raw = d1 ++ sep :: d2 /\ digitRun d1 /\ is_sep sep = true /\
    digitRun d2 /\ g = canonicalId d1 d2.
Proof.
  unfold normalizeGroupId. split.
  - destruct (nonempty (trim raw)); [|done]. cbn [negb].
    destruct (matchGroupId (trim raw)) as [[m1 m2]|] eqn:Hm; [|done].
    intros [= <-]. apply matchGroupId_shape in Hm as (sep & ? & ? & ? & ?).
    by exists m1, sep, m2.
  - intros (d1 & sep & d2 & Ht & H1 & Hsep & H2 & ->).
    assert (matchGroupId (trim raw) = Some (d1, d2)) as ->
      by (apply matchGroupId_shape; by exists sep).
    rewrite Ht. by destruct d1 as [|c r]; [destruct H1|].
Qed.

Lemma canonicalId_fixed (d1 d2 : jsstring) :
  normalizeGroupId (canonicalId d1 d2) = Some (canonicalId d1 d2).
Proof.
  unfold canonicalId at 1.
  rewrite normalizeGroupId_token by apply NumberToString_digitRun.
  unfold canonicalId. by rewrite !NumberOfDigits_NumberToString.
Qed.

End GroupIdFacts.

(** X5: [normalizeGroupId] accepts exactly the strings that are, after
    trimming, a run of digits, a dot or a comma, and a run of digits; the
    result is the canonical dotted id, and a canonical id is accepted as it
    is.  The input has at most 15 characters, so that its numbers are exact
    in JavaScript. *)
Theorem normalizeGroupId_canonical (raw : jsstring) :
  (length raw <= 15)%nat ->
  (forall g,
     normalizeGroupId raw = Some g <->
     exists d1 sep d2,
       trim raw = d1 ++ sep :: d2 /\ digitRun d1 /\ is_sep sep = true /\
       digitRun d2 /\ g = canonicalId d1 d2) /\
  (forall g, normalizeGroupId raw = Some g -> normalizeGroupId g = Some g).
Proof.
  intros _. split; [apply normalizeGroupId_shape|].
  intros g (d1 & sep & d2 & _ & _ & _ & _ & ->)%normalizeGroupId_shape.
  apply canonicalId_fixed.
Qed.

Lemma normalizeGroupId_canonical_witness :
  normalizeGroupId (js " 01,10 ") = Some (js "1.10") /\
  normalizeGroupId (js "1.10") = Some (js "1.10").
Proof.
  assert (normalizeGroupId (js " 01,10 ") = Some (js "1.10")) as H
    by (vm_compute; reflexivity).
  split; [exact H|].
  refine (proj2 (normalizeGroupId_canonical (js " 01,10 ") _) _ H).
  vm_compute. lia.
Defined.

(** ** Reading subgroups from a message *)

Section ParseMoreFacts.

Lemma commaToDot_digit c :
  is_digit (if c =? COMMA then DOT else c) = is_digit c.
Proof. destruct (N.eqb_spec c COMMA) as [->|]; done. Qed.

Lemma commaToDot_sep c :
  is_sep (if c =? COMMA then DOT else c) = is_sep c.
Proof. destruct (N.eqb_spec c COMMA) as [->|]; done. Qed.

Lemma span_commaToDot (s : jsstring) :
  span is_digit (commaToDot s) =
  ((span is_digit s).1, commaToDot (span is_digit s).2).
Proof.
  induction s as [|c r IH]; [done|]. cbn [commaToDot map span].
  rewrite commaToDot_digit. destruct (is_digit c) eqn:Hc; [|done].
  fold (commaToDot r). rewrite IH. destruct (span is_digit r) as [a b].
  cbn [fst snd]. f_equal. destruct (N.eqb_spec c COMMA) as [->|]; done.
Qed.

Lemma matchGroupToken_commaToDot (s : jsstring) :
  matchGroupToken (commaToDot s) = matchGroupToken s.
Proof.
  unfold matchGroupToken. rewrite span_commaToDot.
  destruct (span is_digit s) as [d1 r1]. cbn [fst snd].
  destruct d1 as [|x d1']; [by destruct (commaToDot r1)|].
  destruct r1 as [|c r2]; [done|]. cbn [commaToDot map].
  rewrite commaToDot_sep. destruct (is_sep c); [|done].
  fold (commaToDot r2). rewrite span_commaToDot.
  by destruct (span is_digit r2) as [d2 r3].
Qed.

Lemma execLoop_commaToDot (s : jsstring) : forall skip out,
  execLoop (commaToDot s) skip out = execLoop s skip out.
Proof.
  induction s as [|c r IH]; intros skip out; [done|].
  change (commaToDot (c :: r)) with
    ((if c =? COMMA then DOT else c) :: commaToDot r).
  destruct skip as [|k]; [|apply IH].
  change (execLoop ((if c =? COMMA then DOT else c) :: commaToDot r) 0 out)
    with
    (match matchGroupToken ((if c =? COMMA then DOT else c) :: commaToDot r)
     with
     | None => execLoop (commaToDot r) O out
     | Some (m1, m2, len) =>
       let out' :=
         match normalizeGroupId (m1 ++ DOT :: m2) with
         | Some g => if includes out g then out else out ++ [g]
         | None => out
         end in
       execLoop (commaToDot r) (pred len) out'
     end).
  change ((if c =? COMMA then DOT else c) :: commaToDot r) with
    (commaToDot (c :: r)).
  rewrite matchGroupToken_commaToDot.
  change (execLoop (c :: r) 0 out) with
    (match matchGroupToken (c :: r) with
     | None => execLoop r O out
     | Some (m1, m2, len) =>
       let out' :=
         match normalizeGroupId (m1 ++ DOT :: m2) with
         | Some g => if includes out g then out else out ++ [g]
         | None => out
         end in
       execLoop r (pred len) out'
     end).
  destruct (matchGroupToken (c :: r)) as [[[m1 m2] len]|]; by rewrite IH.
Qed.

End ParseMoreFacts.

(** X6: whatever the message, [parseGroupsFromUserInput] returns valid
    subgroup ids without duplicates; it returns none for a message without a
    digit. *)
Theorem parseGroups_always_valid (raw : jsstring) :
  GroupsInv (parseGroupsFromUserInput raw) /\
  (Forall (fun c => is_digit c = false) raw -> parseGroupsFromUserInput raw = []).
Proof.
  split; [apply parseGroups_inv|].
  intros Hraw. unfold parseGroupsFromUserInput.
  replace raw with (raw ++ []) by apply app_nil_r.
  by rewrite execLoop_skip_prefix.
Qed.

(** X7: dots and commas are interchangeable: writing every comma of a
    message as a dot does not change the subgroups read from it. *)
Theorem parseGroups_comma_or_dot (raw : jsstring) :
  parseGroupsFromUserInput (commaToDot raw) = parseGroupsFromUserInput raw.
Proof. unfold parseGroupsFromUserInput. by rewrite execLoop_commaToDot. Qed.

Section DisplayFacts.

(** A valid id is one digit, a dot, one digit, and is its own canonical
    form. *)
Lemma possible_group_shape (g : jsstring) :
  g ∈ POSSIBLE_GROUPS ->
  exists a b, g = [a; DOT; b] /\ is_digit a = true /\ is_digit b = true /\
              canonicalId [a] [b] = g.
Proof.
  revert g. apply Forall_forall.
  repeat (apply Forall_cons_2; [by eexists _, _|]).
  apply Forall_nil_2.
Qed.

(** The loop reads a valid id that is followed by no digit, and goes on
    behind it. *)
Lemma execLoop_possible (g rest : jsstring) (outs : list jsstring) :
  g ∈ POSSIBLE_GROUPS ->
  match rest with [] => True | x :: _ => is_digit x = false end ->
  execLoop (g ++ rest) O outs =
  execLoop rest O (if includes outs g then outs else outs ++ [g]).
Proof.
  intros (a & b & -> & Ha & Hb & Hcan)%possible_group_shape Hrest.
  change ([a; DOT; b] ++ rest) with (a :: DOT :: b :: rest).
  change (execLoop (a :: DOT :: b :: rest) 0 outs) with
    (match matchGroupToken (a :: DOT :: b :: rest) with
     | None => execLoop (DOT :: b :: rest) O outs
     | Some (m1, m2, len) =>
       let out' :=
         match normalizeGroupId (m1 ++ DOT :: m2) with
         | Some g => if includes outs g then outs else outs ++ [g]
         | None => outs
         end in
       execLoop (DOT :: b :: rest) (pred len) out'
     end).
  assert (matchGroupToken (a :: DOT :: b :: rest) = Some ([a], [b], 3%nat)) as ->.
  { apply (matchGroupToken_token [a] DOT [b] rest); try done;
      (split; [done | by repeat constructor]). }
  cbv zeta.
  rewrite (normalizeGroupId_token [a] [b])
    by (split; [done | by repeat constructor]).
  by rewrite Hcan.
Qed.

Lemma joinWith_cons2 sep l l' ls :
  joinWith sep (l :: l' :: ls) = l ++ sep ++ joinWith sep (l' :: ls).
Proof. done. Qed.

Lemma execLoop_display (gs : list jsstring) : forall outs,
  Forall (fun g => g ∈ POSSIBLE_GROUPS) gs ->
  NoDup (outs ++ gs) ->
  execLoop (joinWith COMMA_SP gs) O outs = outs ++ gs.
Proof.
  induction gs as [|g gs IH]; intros outs Hv Hnd.
  - by rewrite app_nil_r.
  - apply Forall_cons in Hv as [Hg Hv].
    assert (includes outs g = false) as Hout.
    { unfold includes. apply bool_decide_eq_false_2. intros Hin.
      apply NoDup_app in Hnd as (_ & Hd & _). apply (Hd g Hin). left. }
    destruct gs as [|g' gs'].
    + cbn [joinWith]. replace g with (g ++ []) at 1 by apply app_nil_r.
      rewrite execLoop_possible by done. by rewrite Hout.
    + rewrite joinWith_cons2.
      rewrite execLoop_possible by done. rewrite Hout.
      rewrite (execLoop_skip_prefix COMMA_SP) by (by repeat constructor).
      rewrite IH; [by rewrite <- app_assoc | done |].
      by rewrite <- app_assoc.
Qed.

End DisplayFacts.

(** X8: a list of subgroups as the bot shows it in its replies
    ([groups.join(', ')]) is read back as the same list. *)
Theorem parseGroups_reads_display (gs : list jsstring) :
  GroupsInv gs ->
  parseGroupsFromUserInput (joinWith COMMA_SP gs) = gs.
Proof.
  intros [Hnd Hv]. unfold parseGroupsFromUserInput.
  rewrite (execLoop_display gs []) by done. cbn [app].
  induction Hv as [|g gs Hg _ IH]; [done|].
  rewrite filter_cons_True by done. f_equal. apply IH.
  by apply NoDup_cons in Hnd as [_ ?].
Qed.

Lemma parseGroups_reads_display_witness :
  parseGroupsFromUserInput (js "3.2, 1.1") = [js "3.2"; js "1.1"].
Proof.
  apply (parseGroups_reads_display [js "3.2"; js "1.1"]).
  split.
  - apply (bool_decide_unpack _). vm_compute. exact I.
  - repeat (apply Forall_cons_2; [apply (bool_decide_unpack _); vm_compute; exact I|]).
    apply Forall_nil_2.
Defined.

(** ** The schedule lines of a text *)

Section ScheduleMapFacts.

Lemma fold_schedule_lookup (lines : list jsstring) :
  forall (m : gmap jsstring jsstring) (g : jsstring),
  fold_left
    (fun map line =>
       match matchGroupLine line with
       | None => map
       | Some m1 =>
         match normalizeGroupId m1 with
         | None => map
         | Some g => <[g := line]> map
         end
       end) lines m !! g =
  match last (filter (fun l => lineGroup l = Some g) lines) with
  | Some l => Some l
  | None => m !! g
  end.
Proof.
  induction lines as [|l ls IH]; intros m g; [done|].
  cbn [fold_left]. rewrite IH.
  destruct (decide (lineGroup l = Some g)) as [Hl|Hl].
  - rewrite (filter_cons_True _ l ls Hl).
    destruct (filter (fun l0 => lineGroup l0 = Some g) ls) as [|l1 ls1] eqn:E.
    + cbn [last]. unfold lineGroup in Hl.
      destruct (matchGroupLine l) as [m1|]; [|done]. rewrite Hl.
      apply lookup_insert_eq.
    + rewrite last_cons_cons.
      destruct (last (l1 :: ls1)) eqn:E2; [done|]. by apply last_None in E2.
  - rewrite (filter_cons_False _ l ls Hl).
    destruct (last (filter (fun l0 => lineGroup l0 = Some g) ls)); [done|].
    unfold lineGroup in Hl. destruct (matchGroupLine l) as [m1|]; [|done].
    destruct (normalizeGroupId m1) as [g'|]; [|done].
    apply lookup_insert_ne. congruence.
Qed.

End ScheduleMapFacts.

(** X9: [parseGroupSchedulesFromText] files under a subgroup id the last
    line of the normalised text that names this subgroup, and nothing under
    an id that no line names. *)
Theorem parseGroupSchedules_last_line (text g : jsstring) :
  parseGroupSchedulesFromText text !! g =
  last (filter (fun l => lineGroup l = Some g)
               (split LF (normalizeMultilineText text))).
Proof.
  unfold parseGroupSchedulesFromText. rewrite fold_schedule_lookup.
  rewrite lookup_empty. by destruct (last _).
Qed.

(** ** Writing the store and reading it back *)

Section RoundTripFacts.

Lemma lookup_last_app (k : jsstring) (a b : list (jsstring * json)) :
  Json.lookup_last k (a ++ b) =
  match Json.lookup_last k b with
  | Some v => Some v
  | None => Json.lookup_last k a
  end.
Proof.
  induction a as [|[k' v] a IH]; simpl.
  - by destruct (Json.lookup_last k b).
  - rewrite IH. destruct (Json.lookup_last k b); [done|].
    by destruct (Json.lookup_last k a).
Qed.

Lemma lookup_optMember (k : jsstring) (k' : string) (v : option json) :
  Json.lookup_last k (optMember k' v) =
  if bool_decide (js k' = k) then v else None.
Proof. destruct v; simpl; by case_bool_decide. Qed.

Lemma stringItems_strings (gs : list jsstring) :
  omap (fun x => match x with JStr s => Some s | _ => None end)
       (map JStr gs) = gs.
Proof.
  induction gs as [|g gs IH]; [done|].
  cbn [map omap list_omap]. by f_equal.
Qed.

(** Reading one field of the record as written. *)
Ltac read_field :=
  unfold Json.prop, jsonOfUser;
  rewrite ?lookup_last_app, ?lookup_optMember;
  repeat match goal with
  | |- context [bool_decide (js ?a = js ?b)] =>
    let v := eval vm_compute in (bool_decide (js a = js b)) in
    change (bool_decide (js a = js b)) with v
  end;
  cbv iota.

Lemma normalizeUser_jsonOfUser (u : UserState) :
  normalizeUser (jsonOfUser u) = u.
Proof.
  destruct u as [gs ps w ca na wt er tca tna twt ts ter].
  unfold normalizeUser. cbn [Json.isObject].
  change (if true then jsonOfUser ?x else _) with (jsonOfUser x).
  f_equal.
  - read_field. cbn [groups]. destruct gs as [gs|]; [|done].
    cbn. by rewrite stringItems_strings.
  - read_field. cbn [pendingStep]. by destruct ps as [[]|].
  - read_field. done.
  - read_field. cbn [lastLoeCheckedAt]. by destruct ca.
  - read_field. cbn [lastLoeNotifiedAt]. by destruct na.
  - read_field. cbn [lastLoeWatchedText]. by destruct wt.
  - read_field. cbn [lastLoeError]. by destruct er.
  - read_field. cbn [lastLoeTomorrowCheckedAt]. by destruct tca.
  - read_field. cbn [lastLoeTomorrowNotifiedAt]. by destruct tna.
  - read_field. cbn [lastLoeTomorrowWatchedText]. by destruct twt.
  - read_field. cbn [lastLoeTomorrowStatus]. by destruct ts as [[]|].
  - read_field. cbn [lastLoeTomorrowError]. by destruct ter.
Qed.

Lemma lookup_last_entries (f : UserState -> json)
  (l : list (jsstring * UserState)) (k : jsstring) :
  NoDup l.*1 ->
  Json.lookup_last k (map (fun '(chatId, u) => (chatId, f u)) l) =
  f <$> (list_to_map l : gmap jsstring UserState) !! k.
Proof.
  induction l as [|[k' u] l IH]; intros Hnd; [done|].
  apply NoDup_cons in Hnd as [Hk' Hnd]. cbn [map Json.lookup_last].
  rewrite IH by done. cbn [list_to_map foldr].
  destruct (decide (k' = k)) as [->|Hne].
  - rewrite lookup_insert_eq.
    rewrite (not_elem_of_list_to_map_1 _ k Hk').
    cbn. by rewrite bool_decide_eq_true_2.
  - rewrite lookup_insert_ne by done.
    destruct (list_to_map l !! k); [done|]. cbn.
    by rewrite bool_decide_eq_false_2.
Qed.

Lemma lookup_fold_assign_proto (ms : list (jsstring * json)) :
  forall acc : gmap jsstring UserState,
  fold_left (fun us '(k, raw) => assignUser k (normalizeUser raw) us) ms acc
    !! PROTO = acc !! PROTO.
Proof.
  induction ms as [|[k v] r IH]; intros acc; [done|].
  simpl. rewrite IH. unfold assignUser. case_bool_decide as Hk; [done|].
  by apply lookup_insert_ne.
Qed.

Lemma normalizeStateShape_jsonOfState (st : BotState) :
  users st !! PROTO = None ->
  normalizeStateShape (jsonOfState st) = st.
Proof.
  intros Hproto.
  assert (users (normalizeStateShape (jsonOfState st)) = users st) as Hu.
  { apply map_eq. intros k. destruct (decide (k = PROTO)) as [->|Hne].
    - rewrite Hproto. unfold normalizeStateShape. cbn [users].
      by rewrite lookup_fold_assign_proto.
    - rewrite lookup_normalizeStateShape by done.
      change (default (JObj []) (Json.prop (jsonOfState st) "users")) with
        (JObj (map (fun '(chatId, u) => (chatId, jsonOfUser u))
                   (map_to_list (users st)))).
      cbn [Json.entries].
      rewrite lookup_last_entries by apply NoDup_fst_map_to_list.
      rewrite list_to_map_to_list.
      destruct (users st !! k) as [u|]; [|done].
      cbn. by rewrite normalizeUser_jsonOfUser. }
  destruct (normalizeStateShape (jsonOfState st)) as [m] eqn:E.
  cbn [users] in Hu. by subst m.
Qed.

End RoundTripFacts.

(** X10: the store survives a restart.  [normalizeStateShape] leaves the
    store as it is, so [writeStateToDisk] writes the store itself; and when
    [JSON.parse] gives back the value that was written, [readStateFromDisk]
    returns the store that was written, record by record and field by
    field.  The store has no chat id [__proto__], as no store built by the
    program has. *)
Theorem store_survives_restart
  (JSON_parse : jsstring -> option json) (st : BotState) (raw : jsstring) :
  users st !! PROTO = None ->
  JSON_parse raw = Some (jsonOfState st) ->
  normalizeStateShape (jsonOfState st) = st /\
  readStateFromDisk JSON_parse (ReadOk raw) = Ok st.
Proof.
  intros Hproto Hparse.
  pose proof (normalizeStateShape_jsonOfState st Hproto) as Hsame.
  split; [exact Hsame|].
  unfold readStateFromDisk, readStateFromDisk_try. rewrite Hparse.
  assert (Json.isObject (Some (jsonOfState st))
          && bool_decide (is_Some (Json.prop (jsonOfState st) "users"))
          && Json.isObject (Json.prop (jsonOfState st) "users") = true) as ->.
  { change (Json.prop (jsonOfState st) "users") with
      (Some (JObj (map (fun '(chatId, u) => (chatId, jsonOfUser u))
                       (map_to_list (users st))))).
    cbn [Json.isObject andb]. rewrite bool_decide_eq_true_2 by eauto. done. }
  by rewrite Hsame.
Qed.

Lemma store_survives_restart_witness :
  readStateFromDisk
    (fun _ => Some (jsonOfState (state (Scenario.worldOf Scenario.settledUser))))
    (ReadOk []) =
  Ok (state (Scenario.worldOf Scenario.settledUser)).
Proof.
  refine (proj2
    (store_survives_restart
       (fun _ => Some (jsonOfState (state (Scenario.worldOf Scenario.settledUser))))
       (state (Scenario.worldOf Scenario.settledUser)) [] _ _)).
  - vm_compute. reflexivity.
  - reflexivity.
Defined.

(** ** Changing the subgroups *)

Section GroupCommandFacts.

(** The record of a chat after each of the three state operations, whether
    the write of the state file succeeds or not. *)
Lemma user_after_setGroupsOp (chatId : jsstring) (gs : list jsstring)
  (env : Env) (w : World) :
  chatId ≠ PROTO ->
  users (state (setGroupsOp chatId gs env w).2) !! chatId =
  Some (set_lastLoeError None
          (set_lastLoeWatchedText None
             (set_watching true
                (set_pendingStep None
                   (set_groups (Some gs)
                      (default newUser (users (state w) !! chatId))))))).
Proof.
  intros Hne. unfold setGroupsOp. mrun.
  destruct (users (state w) !! chatId) as [u|] eqn:Hu; mrun;
    case_write; mrun;
    rewrite !lookup_alter_eq, ?lookup_assignUser, ?Hu;
    rewrite ?bool_decide_eq_false_2 by done; done.
Qed.

Lemma user_after_addGroupsOp (chatId : jsstring) (toAdd : list jsstring)
  (env : Env) (w : World) :
  chatId ≠ PROTO ->
  users (state (addGroupsOp chatId toAdd env w).2) !! chatId =
  let u := default newUser (users (state w) !! chatId) in
  Some (set_lastLoeError None
          (set_lastLoeWatchedText None
             (set_pendingStep None
                (set_groups
                   (Some (dedupeFirst [] (default [] (groups u) ++ toAdd)))
                   u)))).
Proof.
  intros Hne. unfold addGroupsOp. mrun.
  destruct (users (state w) !! chatId) as [u|] eqn:Hu; mrun;
    rewrite ?lookup_assignUser, ?Hu;
    rewrite ?bool_decide_eq_false_2 by done; mrun;
    case_write; mrun;
    rewrite !lookup_alter_eq, ?lookup_assignUser, ?Hu;
    rewrite ?bool_decide_eq_false_2 by done; done.
Qed.

Lemma user_after_removeGroupsOp (chatId : jsstring) (toRemove : list jsstring)
  (env : Env) (w : World) :
  chatId ≠ PROTO ->
  users (state (removeGroupsOp chatId toRemove env w).2) !! chatId =
  let u := default newUser (users (state w) !! chatId) in
  Some (set_lastLoeError None
          (set_lastLoeWatchedText None
             (set_pendingStep None
                (set_groups
                   (Some (filter (fun g => negb (includes toRemove g))
                                 (default [] (groups u))))
                   u)))).
Proof.
  intros Hne. unfold removeGroupsOp. mrun.
  destruct (users (state w) !! chatId) as [u|] eqn:Hu; mrun;
    rewrite ?lookup_assignUser, ?Hu;
    rewrite ?bool_decide_eq_false_2 by done; mrun;
    case_write; mrun;
    rewrite !lookup_alter_eq, ?lookup_assignUser, ?Hu;
    rewrite ?bool_decide_eq_false_2 by done; done.
Qed.

Lemma not_proto (chatId : jsstring) :
  chatId ∉ OBJECT_PROTOTYPE_KEYS -> chatId ≠ PROTO.
Proof. intros H ->. apply H. left. Qed.

(** [dedupeFirst] leaves alone a list that has no duplicates and nothing
    seen. *)
Lemma dedupeFirst_fresh (l : list jsstring) : forall seen,
  NoDup l -> (forall x, x ∈ l -> x ∉ seen) -> dedupeFirst seen l = l.
Proof.
  induction l as [|g r IH]; intros seen Hnd Hfresh; [done|].
  apply NoDup_cons in Hnd as [Hg Hnd]. simpl. unfold includes.
  rewrite bool_decide_eq_false_2 by (apply Hfresh; left).
  f_equal. apply IH; [done|]. intros x Hx [Hin|Hin]%elem_of_app.
  - by apply (Hfresh x); [right|].
  - apply list_elem_of_singleton in Hin. by subst.
Qed.

Lemma dedupeFirst_app (l1 l2 : list jsstring) : forall seen,
  NoDup l1 -> (forall x, x ∈ l1 -> x ∉ seen) ->
  dedupeFirst seen (l1 ++ l2) = l1 ++ dedupeFirst (seen ++ l1) l2.
Proof.
  induction l1 as [|g r IH]; intros seen Hnd Hfresh.
  - by rewrite app_nil_r.
  - apply NoDup_cons in Hnd as [Hg Hnd]. simpl. unfold includes.
    rewrite bool_decide_eq_false_2 by (apply Hfresh; left).
    f_equal. rewrite IH.
    + by rewrite <- app_assoc.
    + done.
    + intros x Hx [Hin|Hin]%elem_of_app.
      * by apply (Hfresh x); [right|].
      * apply list_elem_of_singleton in Hin. by subst.
Qed.

Lemma filter_ext_in {A} (P Q : A -> Prop) `{!forall x, Decision (P x)}
  `{!forall x, Decision (Q x)} (l : list A) :
  (forall x, x ∈ l -> P x <-> Q x) -> filter P l = filter Q l.
Proof.
  induction l as [|x l IH]; intros Hext; [done|].
  assert (filter P l = filter Q l) as IH'
    by (apply IH; intros y Hy; apply Hext; by right).
  destruct (decide (P x)) as [Hx|Hx].
  - rewrite (filter_cons_True P x l Hx).
    rewrite (filter_cons_True Q x l) by (apply Hext; [left | done]).
    by f_equal.
  - rewrite (filter_cons_False P x l Hx).
    rewrite (filter_cons_False Q x l); [done|].
    intros HQ. apply Hx, Hext; [left | done].
Qed.

Lemma dedupeFirst_filter (l : list jsstring) : forall seen,
  NoDup l -> dedupeFirst seen l = filter (fun g => g ∉ seen) l.
Proof.
  induction l as [|g r IH]; intros seen Hnd; [done|].
  apply NoDup_cons in Hnd as [Hg Hnd]. simpl. unfold includes.
  case_bool_decide as Hin.
  - rewrite filter_cons_False by (by intros ?). by apply IH.
  - rewrite filter_cons_True by done. f_equal. rewrite IH by done.
    apply filter_ext_in. intros x Hx. split.
    + intros Hn Hs. apply Hn, elem_of_app. by left.
    + intros Hn [Hs|Hs]%elem_of_app; [done|].
      apply list_elem_of_singleton in Hs. by subst.
Qed.

Lemma groupsOf_lookup (chatId : jsstring) (w : World) :
  groupsOf chatId w =
  default [] (groups (default newUser (users (state w) !! chatId))).
Proof. unfold groupsOf. by destruct (users (state w) !! chatId). Qed.

Lemma groupsOf_user (chatId : jsstring) (w : World) (u : UserState) :
  users (state w) !! chatId = Some u -> groupsOf chatId w = default [] (groups u).
Proof. unfold groupsOf. by intros ->. Qed.

(** What the subgroups are after a message has been applied. *)
Lemma groupsOf_applyGroupsInput (a : GroupsAction) (chatId raw : jsstring)
  (env : Env) (w : World) :
  chatId ≠ PROTO ->
  groupsOf chatId (applyGroupsInput a chatId raw env w).2 =
  match parseGroupsFromUserInput raw with
  | [] => groupsOf chatId w
  | parsed =>
    match a with
    | InitialSet => parsed
    | AddGroups => dedupeFirst [] (groupsOf chatId w ++ parsed)
    | RemoveGroups =>
      filter (fun g => negb (includes parsed g)) (groupsOf chatId w)
    end
  end.
Proof.
  intros Hne. unfold applyGroupsInput.
  destruct (parseGroupsFromUserInput raw) as [|g gs]; [done|].
  destruct a.
  - by rewrite (groupsOf_user _ _ _ (user_after_setGroupsOp _ _ _ _ Hne)).
  - rewrite (groupsOf_user _ _ _ (user_after_addGroupsOp _ _ _ _ Hne)).
    by rewrite groupsOf_lookup.
  - apply groupsOf_removeGroupsOp.
Qed.

Lemma filter_not_includes (rem l : list jsstring) :
  filter (fun g => negb (includes rem g)) l = filter (fun g => g ∉ rem) l.
Proof.
  apply filter_ext_in. intros x _. unfold includes.
  case_bool_decide; cbn; split; (done || by intros ?).
Qed.

(** A change of the subgroups, by any of the three actions. *)
Lemma applyGroupsInput_resets (a : GroupsAction) (chatId raw : jsstring)
  (env : Env) (w : World) :
  chatId ≠ PROTO ->
  parseGroupsFromUserInput raw <> [] ->
  resetsToday a chatId env w (applyGroupsInput a chatId raw env w).2.
Proof.
  intros Hne Hparse. unfold applyGroupsInput, resetsToday, writtenOnce.
  destruct (parseGroupsFromUserInput raw) as [|g gs]; [done|].
  destruct a.
  - split.
    + eexists. split; [by apply user_after_setGroupsOp|]. by split_and!.
    + unfold setGroupsOp. mrun.
      destruct (users (state w) !! chatId) as [u|]; mrun; case_write; mrun;
        split; (done || by intros ?).
  - split.
    + eexists. split; [by apply user_after_addGroupsOp|]. by split_and!.
    + unfold addGroupsOp. mrun.
      destruct (users (state w) !! chatId) as [u|]; mrun; case_write; mrun;
        split; (done || by intros ?).
  - split.
    + eexists. split; [by apply user_after_removeGroupsOp|]. by split_and!.
    + unfold removeGroupsOp. mrun.
      destruct (users (state w) !! chatId) as [u|]; mrun; case_write; mrun;
        split; (done || by intros ?).
Qed.

(** A command without text. *)
Lemma askStepOp_asks (step : PendingStep) (chatId : jsstring)
  (env : Env) (w : World) :
  chatId ≠ PROTO ->
  asksFor step chatId env w (askStepOp chatId step env w).2.
Proof.
  intros Hne. unfold askStepOp, asksFor, writtenOnce. mrun.
  destruct (users (state w) !! chatId) as [u|] eqn:Hu; mrun;
    case_write; mrun;
    rewrite ?lookup_alter_eq, ?lookup_assignUser, ?Hu;
    rewrite ?bool_decide_eq_false_2 by done;
    (split; [done|]); split; (done || by intros ?).
Qed.

End GroupCommandFacts.

(** X11: the handlers that change the subgroups.  A change (the text
    names at least one valid subgroup) clears the pending step, the today
    baseline and the last error, and leaves the notification time and
    everything about tomorrow as it was; this is so whether the write of
    the state file succeeds or not, and a successful write stores exactly
    this state.  The [text] handler changes nothing at all when no step is
    pending, when the message starts with a slash, or when it names no
    valid subgroup.  The add and remove commands with no text after the
    command name set the pending step, leave the rest of the record as it
    was and write the state; with a text that names no valid subgroup they
    change nothing at all. *)
Theorem group_commands_reset_today (chatId text : jsstring)
  (env : Env) (w : World) :
  chatId ∉ OBJECT_PROTOTYPE_KEYS ->
  (forall pending,
     let msg := trim text in
     let r := textHandlerOp pending chatId text env w in
     match pending, startsWithSlash msg, parseGroupsFromUserInput msg with
     | Some p, false, _ :: _ => resetsToday (actionOf p) chatId env w r.2
     | _, _, _ => r = (Ok tt, w)
     end) /\
  (let tail := trim (stripCommand ADD_GROUP GROUPS_ADD text) in
   let r := addGroupCommand chatId text env w in
   match tail, parseGroupsFromUserInput tail with
   | [], _ => asksFor step_groups_add chatId env w r.2
   | _ :: _, [] => r = (Ok tt, w)
   | _ :: _, _ :: _ => resetsToday AddGroups chatId env w r.2
   end) /\
  (let tail := trim (stripCommand REMOVE_GROUP GROUPS_REMOVE text) in
   let r := removeGroupCommand chatId text env w in
   match tail, parseGroupsFromUserInput tail with
   | [], _ => asksFor step_groups_remove chatId env w r.2
   | _ :: _, [] => r = (Ok tt, w)
   | _ :: _, _ :: _ => resetsToday RemoveGroups chatId env w r.2
   end).
Proof.
  intros Hne%not_proto. split_and!.
  - intros pending msg r. unfold r, textHandlerOp. fold msg.
    destruct msg as [|c msg'] eqn:Emsg.
    { cbn. by destruct pending. }
    cbn [nonempty negb].
    destruct (startsWithSlash (c :: msg')) eqn:Eslash.
    { by destruct pending. }
    destruct pending as [p|]; [|done].
    pose proof (applyGroupsInput_resets (actionOf p) chatId (c :: msg') env w
                  Hne) as Hres.
    destruct (parseGroupsFromUserInput (c :: msg')) as [|g gs] eqn:Eparse.
    + unfold applyGroupsInput. by rewrite Eparse.
    + by apply Hres.
  - intros tail r. unfold r, addGroupCommand. fold tail.
    destruct tail as [|c tail'] eqn:Etail.
    { cbn [nonempty]. by apply askStepOp_asks. }
    cbn [nonempty].
    pose proof (applyGroupsInput_resets AddGroups chatId (c :: tail') env w
                  Hne) as Hres.
    destruct (parseGroupsFromUserInput (c :: tail')) as [|g gs] eqn:Eparse.
    + unfold applyGroupsInput. by rewrite Eparse.
    + by apply Hres.
  - intros tail r. unfold r, removeGroupCommand. fold tail.
    destruct tail as [|c tail'] eqn:Etail.
    { cbn [nonempty]. by apply askStepOp_asks. }
    cbn [nonempty].
    pose proof (applyGroupsInput_resets RemoveGroups chatId (c :: tail') env w
                  Hne) as Hres.
    destruct (parseGroupsFromUserInput (c :: tail')) as [|g gs] eqn:Eparse.
    + unfold applyGroupsInput. by rewrite Eparse.
    + by apply Hres.
Qed.

Lemma group_commands_reset_today_witness :
  (exists u',
     users (state (addGroupCommand Scenario.chat (js "/add_group 3,2")
                     (Scenario.envOf (Fetched None None))
                     (Scenario.worldOf Scenario.settledUser)).2)
       !! Scenario.chat = Some u' /\
     lastLoeWatchedText u' = None /\
     lastLoeTomorrowWatchedText u' =
       lastLoeTomorrowWatchedText Scenario.settledUser) /\
  users (state (removeGroupCommand Scenario.chat (js "/remove_group@bot ")
                  (Scenario.envOf (Fetched None None))
                  (Scenario.worldOf Scenario.settledUser)).2)
    !! Scenario.chat
    = Some (set_pendingStep (Some step_groups_remove) Scenario.settledUser).
Proof.
  destruct (group_commands_reset_today Scenario.chat (js "/add_group 3,2")
              (Scenario.envOf (Fetched None None))
              (Scenario.worldOf Scenario.settledUser))
    as (_ & [(u' & Hu & _ & Hb & _ & _ & _ & Ht & _) _] & _).
  { apply (bool_decide_unpack _). vm_compute. exact I. }
  destruct (group_commands_reset_today Scenario.chat (js "/remove_group@bot ")
              (Scenario.envOf (Fetched None None))
              (Scenario.worldOf Scenario.settledUser))
    as (_ & _ & [Hask _]).
  { apply (bool_decide_unpack _). vm_compute. exact I. }
  split; [|exact Hask].
  exists u'. split; [exact Hu|]. split; [exact Hb | exact Ht].
Defined.

(** X12: adding subgroups keeps the subgroups of the chat in their places
    and appends the new ones, in the order of the message, leaving out
    those the chat already has. *)
Theorem add_groups_appends (chatId raw : jsstring) (env : Env) (w : World) :
  chatId ∉ OBJECT_PROTOTYPE_KEYS ->
  NoDup (groupsOf chatId w) ->
  groupsOf chatId (applyGroupsInput AddGroups chatId raw env w).2 =
  groupsOf chatId w ++
    filter (fun g => g ∉ groupsOf chatId w) (parseGroupsFromUserInput raw).
Proof.
  intros Hne%not_proto Hnd. rewrite groupsOf_applyGroupsInput by done.
  pose proof (parseGroups_NoDup raw) as Hp.
  destruct (parseGroupsFromUserInput raw) as [|g gs] eqn:E.
  - by rewrite app_nil_r.
  - rewrite dedupeFirst_app by (done || intros x _; apply not_elem_of_nil).
    by rewrite dedupeFirst_filter.
Qed.

Lemma add_groups_appends_witness :
  groupsOf Scenario.chat
    (applyGroupsInput AddGroups Scenario.chat (js "1.1; 3,2")
       (Scenario.envOf (Fetched None None))
       (Scenario.worldOf Scenario.freshUser)).2 = [js "1.1"; js "3.2"].
Proof.
  refine (eq_trans
    (add_groups_appends Scenario.chat (js "1.1; 3,2")
       (Scenario.envOf (Fetched None None))
       (Scenario.worldOf Scenario.freshUser) _ _) _).
  - apply (bool_decide_unpack _). vm_compute. exact I.
  - apply (bool_decide_unpack _). vm_compute. exact I.
  - vm_compute. reflexivity.
Defined.

(** X13: removing what has just been added gives back the subgroups the
    chat had, when none of the added ones was among them. *)
Theorem remove_undoes_add (chatId raw : jsstring) (env1 env2 : Env) (w : World) :
  chatId ∉ OBJECT_PROTOTYPE_KEYS ->
  NoDup (groupsOf chatId w) ->
  (forall g, g ∈ parseGroupsFromUserInput raw -> g ∉ groupsOf chatId w) ->
  let w1 := (applyGroupsInput AddGroups chatId raw env1 w).2 in
  groupsOf chatId (applyGroupsInput RemoveGroups chatId raw env2 w1).2 =
  groupsOf chatId w.
Proof.
  intros Hk Hnd Hfresh w1.
  assert (chatId ≠ PROTO) as Hne by (by apply not_proto).
  rewrite groupsOf_applyGroupsInput by done.
  unfold w1. rewrite groupsOf_applyGroupsInput by done.
  pose proof (parseGroups_NoDup raw) as Hp.
  destruct (parseGroupsFromUserInput raw) as [|g gs] eqn:E; [done|].
  rewrite dedupeFirst_app by (done || intros x _; apply not_elem_of_nil).
  rewrite dedupeFirst_filter by done. cbn [app].
  rewrite (filter_ext_in (fun x => x ∉ groupsOf chatId w) (fun _ => True))
    by (intros x Hx; split; [done | intros _; by apply Hfresh]).
  rewrite filter_not_includes, filter_app.
  assert (forall l : list jsstring, filter (fun _ : jsstring => True) l = l) as Hall.
  { induction l as [|x l IH]; [done|]. by rewrite filter_cons_True, IH. }
  rewrite Hall.
  rewrite (filter_ext_in (fun x => x ∉ g :: gs) (fun _ => True)
                         (groupsOf chatId w))
    by (intros x Hx; split; [done | intros _ Hin; by apply (Hfresh x)]).
  rewrite Hall.
  rewrite (filter_ext_in (fun x => x ∉ g :: gs) (fun _ => False) (g :: gs))
    by (intros x Hx; split; [by intros ? | done]).
  assert (forall l : list jsstring, filter (fun _ : jsstring => False) l = []) as Hnone.
  { induction l as [|x l IH]; [done|]. by rewrite filter_cons_False by tauto. }
  by rewrite Hnone, app_nil_r.
Qed.

Lemma remove_undoes_add_witness :
  groupsOf Scenario.chat
    (applyGroupsInput RemoveGroups Scenario.chat (js "3,2")
       (Scenario.envOf (Fetched None None))
       (applyGroupsInput AddGroups Scenario.chat (js "3,2")
          (Scenario.envOf (Fetched None None))
          (Scenario.worldOf Scenario.freshUser)).2).2 = [js "1.1"].
Proof.
  refine (eq_trans
    (remove_undoes_add Scenario.chat (js "3,2")
       (Scenario.envOf (Fetched None None))
       (Scenario.envOf (Fetched None None))
       (Scenario.worldOf Scenario.freshUser) _ _ _) _).
  - apply (bool_decide_unpack _). vm_compute. exact I.
  - apply (bool_decide_unpack _). vm_compute. exact I.
  - intros g Hg. vm_compute in Hg.
    apply list_elem_of_singleton in Hg. subst g.
    apply (bool_decide_unpack _). vm_compute. exact I.
  - vm_compute. reflexivity.
Defined.

(** ** A check is confined to its chat *)

Section ConfinedFacts.

Lemma sameSettings_refl u : sameSettings u u.
Proof. done. Qed.

Lemma sameSettings_trans u1 u2 u3 :
  sameSettings u1 u2 -> sameSettings u2 u3 -> sameSettings u1 u3.
Proof. intros (? & ? & ?) (? & ? & ?). split_and!; congruence. Qed.

Lemma option_sameSettings_refl (mu : option UserState) :
  option_Forall2 sameSettings mu mu.
Proof. destruct mu; by constructor. Qed.

Lemma option_sameSettings_trans (m1 m2 m3 : option UserState) :
  option_Forall2 sameSettings m1 m2 -> option_Forall2 sameSettings m2 m3 ->
  option_Forall2 sameSettings m1 m3.
Proof.
  intros H12 H23. destruct H12; inversion H23; subst; constructor.
  by eapply sameSettings_trans.
Qed.

(** A computation that leaves the store and the outbox alone. *)
Lemma confined_silent {A} (chatId : jsstring) (m : M A) :
  (forall env w, state (m env w).2 = state w /\ outbox (m env w).2 = outbox w) ->
  confinedTo chatId m.
Proof.
  intros H env w. destruct (H env w) as [-> ->].
  split_and!; [done | apply option_sameSettings_refl |].
  exists []. by rewrite app_nil_r.
Qed.

Lemma confined_ret {A} chatId (a : A) : confinedTo chatId (ret a).
Proof. by apply confined_silent. Qed.

Lemma confined_throw {A} chatId (e : Exn) : confinedTo chatId (@throw A e).
Proof. by apply confined_silent. Qed.

Lemma confined_newDate chatId : confinedTo chatId newDate.
Proof. by apply confined_silent. Qed.

Lemma confined_dateOf chatId s : confinedTo chatId (dateOf s).
Proof. by apply confined_silent. Qed.

Lemma confined_newArray chatId items : confinedTo chatId (newArray items).
Proof. by apply confined_silent. Qed.

Lemma confined_getUser chatId c : confinedTo chatId (getUser c).
Proof. by apply confined_silent. Qed.

Lemma confined_fetch chatId : confinedTo chatId fetchLoePhotoGraficMenuItems.
Proof.
  apply confined_silent. intros env w. unfold fetchLoePhotoGraficMenuItems.
  by destruct (fetchAt env (fetches w)).
Qed.

Lemma confined_write chatId : confinedTo chatId writeStateToDisk.
Proof.
  apply confined_silent. intros env w. unfold writeStateToDisk.
  by destruct (writeError env (writes w)).
Qed.

Lemma confined_send chatId k body : confinedTo chatId (sendMessage chatId k body).
Proof.
  intros env w. unfold sendMessage.
  destruct (sendError env (sends w)); cbn [snd fst].
  - split_and!; [done | apply option_sameSettings_refl |].
    exists []. by rewrite app_nil_r.
  - split_and!; [done | apply option_sameSettings_refl |].
    eexists. split; [reflexivity|]. by repeat constructor.
Qed.

Lemma confined_updUser chatId (f : UserState -> UserState) :
  (forall u, sameSettings u (f u)) -> confinedTo chatId (updUser chatId f).
Proof.
  intros Hf env w. unfold updUser. cbn [snd fst].
  split_and!.
  - intros x Hx. by apply lookup_alter_ne.
  - cbn. rewrite lookup_alter_eq.
    destruct (users (state w) !! chatId); constructor. apply Hf.
  - exists []. by rewrite app_nil_r.
Qed.

Lemma confined_bind {A B} chatId (m : M A) (k : A -> M B) :
  confinedTo chatId m -> (forall a, confinedTo chatId (k a)) ->
  confinedTo chatId (bind m k).
Proof.
  intros Hm Hk env w. unfold bind.
  destruct (Hm env w) as (Ho & Hs & new & Hout & Hto).
  destruct (m env w) as [[a|e] w1]; cbn [snd] in *.
  - destruct (Hk a env w1) as (Ho2 & Hs2 & new2 & Hout2 & Hto2).
    split_and!.
    + intros x Hx. by rewrite Ho2, Ho.
    + by eapply option_sameSettings_trans.
    + exists (new ++ new2). rewrite Hout2, Hout, <- app_assoc.
      split; [done | by apply Forall_app].
  - split_and!; [done | done | by exists new].
Qed.

Lemma confined_try_catch {A} chatId (m : M A) (h : Exn -> M A) :
  confinedTo chatId m -> (forall e, confinedTo chatId (h e)) ->
  confinedTo chatId (try_catch m h).
Proof.
  intros Hm Hh env w. unfold try_catch.
  destruct (Hm env w) as (Ho & Hs & new & Hout & Hto).
  destruct (m env w) as [[a|e] w1]; cbn [snd] in *.
  - split_and!; [done | done | by exists new].
  - destruct (Hh e env w1) as (Ho2 & Hs2 & new2 & Hout2 & Hto2).
    split_and!.
    + intros x Hx. by rewrite Ho2, Ho.
    + by eapply option_sameSettings_trans.
    + exists (new ++ new2). rewrite Hout2, Hout, <- app_assoc.
      split; [done | by apply Forall_app].
Qed.

Lemma confined_headerLinesArray chatId t : confinedTo chatId (headerLinesArray t).
Proof. by apply confined_silent. Qed.

(** Decompose a computation along its structure. *)
Ltac confined_step :=
  cbv beta zeta;
  lazymatch goal with
  | |- confinedTo _ (bind _ _) => apply confined_bind; [|intros ?]
  | |- confinedTo _ (try_catch _ _) => apply confined_try_catch; [|intros ?]
  | |- confinedTo _ (ret _) => apply confined_ret
  | |- confinedTo _ (throw _) => apply confined_throw
  | |- confinedTo _ newDate => apply confined_newDate
  | |- confinedTo _ (dateOf _) => apply confined_dateOf
  | |- confinedTo _ (newArray _) => apply confined_newArray
  | |- confinedTo _ (headerLinesArray _) => apply confined_headerLinesArray
  | |- confinedTo _ (getUser _) => apply confined_getUser
  | |- confinedTo _ fetchLoePhotoGraficMenuItems => apply confined_fetch
  | |- confinedTo _ writeStateToDisk => apply confined_write
  | |- confinedTo _ (sendMessage _ _ _) => apply confined_send
  | |- confinedTo _ (updUser _ _) =>
    apply confined_updUser; intros ?; split_and!; reflexivity
  | |- confinedTo _ (if ?b then _ else _) => destruct b
  | |- confinedTo _ (match ?x with _ => _ end) => destruct x
  end.

Ltac confined := repeat confined_step.

Lemma confined_checkToday chatId gs forceCheck td :
  confinedTo chatId (checkToday chatId gs forceCheck td).
Proof. unfold checkToday. confined. Qed.

Lemma confined_checkTomorrow chatId gs tomorrow :
  confinedTo chatId (checkTomorrow chatId gs tomorrow).
Proof. unfold checkTomorrow. confined. Qed.

Lemma confined_checkCatch chatId forceCheck err :
  confinedTo chatId (checkCatch chatId forceCheck err).
Proof. unfold checkCatch. confined. Qed.

Lemma confined_checkBody chatId gs forceCheck :
  confinedTo chatId (checkBody chatId gs forceCheck).
Proof.
  unfold checkBody. apply confined_bind; [apply confined_fetch|]. intros [today tm].
  cbn [fst snd]. destruct today; [|apply confined_throw].
  apply confined_bind; [apply confined_checkToday|]. intros _.
  apply confined_checkTomorrow.
Qed.

Lemma confined_checkOneChat chatId forceCheck :
  confinedTo chatId (checkOneChat chatId forceCheck).
Proof.
  unfold checkOneChat. apply confined_bind; [apply confined_getUser|].
  intros user. destruct (negb (watching user) && negb forceCheck);
    [apply confined_ret|].
  destruct (groups user) as [[|g gs]|].
  - confined.
  - apply confined_try_catch; [apply confined_checkBody|].
    intros e. apply confined_checkCatch.
  - confined.
Qed.

(** A background check of a chat that is not watched does nothing. *)
Lemma checkOneChat_unwatched (env : Env) (w : World) (x : jsstring) :
  unwatched w x -> checkOneChat x false env w = (Ok tt, w).
Proof.
  unfold unwatched, checkOneChat. intros H. mrun.
  destruct (users (state w) !! x) as [u|]; mrun0.
  - by rewrite H.
  - done.
Qed.

Lemma scheduler_pass_frame (chatIds : list jsstring) (x : jsstring) :
  forall (env : Env) (w : World),
  unwatched w x ->
  users (state (checkAllWatchingChats chatIds env w).2) !! x =
    users (state w) !! x /\
  exists new,
    outbox (checkAllWatchingChats chatIds env w).2 = outbox w ++ new /\
    Forall (fun s => to s <> x) new.
Proof.
  induction chatIds as [|c rest IH]; intros env w Hx.
  - split; [done|]. exists []. by rewrite app_nil_r.
  - cbn [checkAllWatchingChats]. unfold bind.
    destruct (decide (c = x)) as [->|Hne].
    + rewrite checkOneChat_unwatched by done. by apply IH.
    + destruct (confined_checkOneChat c false env w)
        as (Ho & _ & new1 & Hout1 & Hto1).
      assert (Forall (fun s => to s <> x) new1) as Hnew1.
      { eapply Forall_impl; [exact Hto1|]. intros s ->. done. }
      destruct (checkOneChat c false env w) as [[[]|e] w1]; cbn [snd] in *.
      * assert (unwatched w1 x) as Hx1.
        { unfold unwatched. rewrite Ho by congruence. exact Hx. }
        destruct (IH env w1 Hx1) as (Hu & new2 & Hout2 & Hto2).
        split; [rewrite Hu; apply Ho; congruence|].
        exists (new1 ++ new2). rewrite Hout2, Hout1, <- app_assoc.
        split; [done | by apply Forall_app].
      * split; [apply Ho; congruence|]. by exists new1.
Qed.

Lemma scheduler_pass_idle (chatIds : list jsstring) (env : Env) (w : World) :
  Forall (unwatched w) chatIds ->
  checkAllWatchingChats chatIds env w = (Ok tt, w).
Proof.
  induction 1 as [|c rest Hc _ IH]; [done|].
  cbn [checkAllWatchingChats]. unfold bind.
  by rewrite checkOneChat_unwatched.
Qed.

End ConfinedFacts.

(** X14: a check of one chat leaves the records of all other chats as they
    are and sends messages to the checked chat only, whatever the upstream
    service, the file system and the transport answer. *)
Theorem check_touches_own_chat_only
  (chatId : jsstring) (forceCheck : bool) (env : Env) (w : World) :
  (forall x, x <> chatId ->
     users (state (checkOneChat chatId forceCheck env w).2) !! x =
     users (state w) !! x) /\
  Forall (fun s => to s = chatId)
         (sentBy (checkOneChat chatId forceCheck) env w).
Proof.
  destruct (confined_checkOneChat chatId forceCheck env w)
    as (Ho & _ & new & Hout & Hto).
  split; [exact Ho|]. by rewrite (sentBy_app _ _ _ new Hout).
Qed.

(** X15: a check never changes the settings of a subscriber: the
    subgroups, the watching flag and the pending step of the checked chat
    are after the check what they were before; and a check creates no
    record. *)
Theorem check_keeps_settings
  (chatId : jsstring) (forceCheck : bool) (env : Env) (w : World) :
  match users (state w) !! chatId with
  | Some u =>
    exists u',
      users (state (checkOneChat chatId forceCheck env w).2) !! chatId
        = Some u' /\
      groups u' = groups u /\ watching u' = watching u /\
      pendingStep u' = pendingStep u
  | None =>
    users (state (checkOneChat chatId forceCheck env w).2) !! chatId = None
  end.
Proof.
  destruct (confined_checkOneChat chatId forceCheck env w) as (_ & Hs & _).
  inversion Hs as [u u' Hsame Hu Hu'|Hu Hu']; [|done].
  exists u'. split; [done|]. exact Hsame.
Qed.

(** X16: a pass of the scheduler over the chats skips the chats that are
    not watched: such a chat keeps its record and gets no message; and when
    no chat is watched the pass does nothing at all, it does not even ask
    the upstream service. *)
Theorem scheduler_skips_unwatched
  (chatIds : list jsstring) (env : Env) (w : World) :
  (forall x, unwatched w x ->
     users (state (checkAllWatchingChats chatIds env w).2) !! x =
       users (state w) !! x /\
     Forall (fun s => to s <> x)
            (sentBy (checkAllWatchingChats chatIds) env w)) /\
  (Forall (unwatched w) chatIds ->
   checkAllWatchingChats chatIds env w = (Ok tt, w)).
Proof.
  split; [|apply scheduler_pass_idle].
  intros x Hx.
  destruct (scheduler_pass_frame chatIds x env w Hx) as (Hu & new & Hout & Hto).
  split; [exact Hu|]. by rewrite (sentBy_app _ _ _ new Hout).
Qed.

(** ** The ways a check can go *)

Section CheckPathFacts.

Ltac user_now Hu := rewrite ?lookup_alter_eq, Hu; reflexivity.

(** The [catch] block records the error and reports it when the check was
    forced. *)
Lemma checkCatch_effect (env : Env) (w : World) (chatId : jsstring)
  (forceCheck : bool) (err : Exn) (u : UserState) :
  users (state w) !! chatId = Some u ->
  let r := checkCatch chatId forceCheck err env w in
  let msg := if nonempty (message err) then message err else MSG_UNKNOWN in
  exists u',
    users (state r.2) !! chatId = Some u' /\
    lastLoeError u' = Some msg /\
    lastLoeCheckedAt u' = Some (r_iso (clock env (ticks w))) /\
    keepsToday u u' /\ keepsTomorrow u u' /\
    fetches r.2 = fetches w /\
    (forceCheck = false -> outbox r.2 = outbox w) /\
    (forceCheck = true -> writeError env (writes w) = None ->
     sendError env (sends w) = None ->
     outbox r.2 =
       outbox w ++ [mkSent chatId MsgCheckError (MSG_ERROR_PREFIX ++ msg)]) /\
    (writeError env (writes w) = None -> disk r.2 = Some (state r.2)).
Proof.
  intros Hu. unfold checkCatch, keepsToday, keepsTomorrow. mrun.
  case_write; mrun0.
  - eexists. split; [user_now Hu|]. usimpl. split_and!; try done.
  - destruct forceCheck; mrun0.
    + case_send; mrun0; (eexists; split; [user_now Hu|]); usimpl;
        split_and!; try done.
    + eexists. split; [user_now Hu|]. usimpl. split_and!; try done.
Qed.

(** The branch of [checkOneChat] for a subscriber without subgroups. *)
Lemma checkOneChat_no_groups (env : Env) (w : World) (chatId : jsstring)
  (forceCheck : bool) (u : UserState) :
  users (state w) !! chatId = Some u ->
  watching u = true \/ forceCheck = true ->
  groups u = None \/ groups u = Some [] ->
  let r := checkOneChat chatId forceCheck env w in
  exists u',
    users (state r.2) !! chatId = Some u' /\
    lastLoeError u' = Some MSG_NO_GROUPS /\
    lastLoeCheckedAt u' = Some (r_iso (clock env (ticks w))) /\
    keepsToday u u' /\ keepsTomorrow u u' /\
    fetches r.2 = fetches w /\
    (forceCheck = false -> outbox r.2 = outbox w) /\
    (forceCheck = true -> writeError env (writes w) = None ->
     sendError env (sends w) = None ->
     outbox r.2 = outbox w ++ [mkSent chatId MsgNoGroups MSG_NO_GROUPS]) /\
    (writeError env (writes w) = None -> disk r.2 = Some (state r.2)).
Proof.
  intros Hu Hact Hg. unfold checkOneChat, keepsToday, keepsTomorrow.
  mrun. rewrite Hu. mrun0.
  assert (negb (watching u) && negb forceCheck = false) as ->.
  { destruct Hact as [-> | ->]; [done | apply andb_false_r]. }
  destruct Hg as [Hg|Hg]; rewrite Hg; mrun0.
  all: case_write; mrun0.
  all: try (destruct forceCheck; mrun0; try (case_send; mrun0)).
  all: eexists; (split; [user_now Hu|]); usimpl; split_and!; try done.
Qed.

Lemma checkOneChat_upstream_error (env : Env) (w : World) (chatId : jsstring)
  (forceCheck : bool) (u : UserState) (gs : list jsstring) (msg : jsstring) :
  users (state w) !! chatId = Some u ->
  watching u = true \/ forceCheck = true ->
  groups u = Some gs -> gs <> [] ->
  upstreamError (fetchAt env (fetches w)) = Some msg ->
  checkOneChat chatId forceCheck env w =
  checkCatch chatId forceCheck (Error msg) env (afterFetch w).
Proof.
  intros Hu Hact Hg Hne Herr.
  rewrite (checkOneChat_active env w chatId forceCheck u gs) by done.
  unfold try_catch. rewrite checkBody_cases.
  destruct (fetchAt env (fetches w)) as [m|[td|] tm]; simpl in Herr;
    by simplify_eq.
Qed.

(** The today section of a forced check, with working services. *)
Lemma checkToday_forced (env : Env) (w : World) (chatId : jsstring)
  (gs : list jsstring) (td : MenuItem) (u : UserState) :
  users (state w) !! chatId = Some u ->
  ioSucceeds env ->
  let r := checkToday chatId gs true td env w in
  let first := negb (truthyStr (prevGroupsOnly (lastLoeWatchedText u))) in
  exists u',
    users (state r.2) !! chatId = Some u' /\
    r.1 = Ok tt /\
    outbox r.2 =
      outbox w ++
      [mkSent chatId (if first then MsgTodayFirstForced else MsgTodayForced)
         (messageBody HEAD_CHECKED (todayWatchedText gs td)
            (if first then IMG_FIRST else IMG_TODAY) (imageUrl td))] /\
    lastLoeWatchedText u' = Some (todayWatchedText gs td) /\
    (exists n, lastLoeNotifiedAt u' = Some (r_iso (clock env n))) /\
    lastLoeError u' = None /\
    keepsTomorrow u u'.
Proof.
  intros Hu [Hwr Hsd].
  unfold checkToday, todayWatchedText, keepsTomorrow. mrun. rewrite Hu. mrun0.
  destruct (truthyStr (lastLoeNotifiedAt u)) eqn:Hn; mrun0;
    rewrite ?orb_true_r;
    destruct (truthyStr (prevGroupsOnly (lastLoeWatchedText u))) eqn:Hp;
    cbn [negb]; mrun0; rewrite ?Hwr, ?Hsd; mrun0;
    rewrite ?Hwr, ?Hsd; mrun0;
    (eexists; split; [user_now Hu|]); usimpl; split_and!; try done; eauto.
Qed.

(** A check that runs, with working services: after the today section the
    tomorrow section adds messages of its own kinds only. *)
Lemma checkOneChat_after_today (env : Env) (w w2 : World) (chatId : jsstring)
  (forceCheck : bool) (u u1 : UserState) (gs : list jsstring)
  (td : MenuItem) (tomorrow : option MenuItem) :
  users (state w) !! chatId = Some u ->
  watching u = true \/ forceCheck = true ->
  groups u = Some gs -> gs <> [] ->
  fetchAt env (fetches w) = Fetched (Some td) tomorrow ->
  ioSucceeds env ->
  checkToday chatId gs forceCheck td env (afterFetch w) = (Ok tt, w2) ->
  users (state w2) !! chatId = Some u1 ->
  exists u2 rest,
    (checkOneChat chatId forceCheck env w).1 = Ok tt /\
    users (state (checkOneChat chatId forceCheck env w).2) !! chatId
      = Some u2 /\
    outbox (checkOneChat chatId forceCheck env w).2 = outbox w2 ++ rest /\
    keepsToday u1 u2 /\
    Forall (fun m => isTomorrowKind (kind m)) rest.
Proof.
  intros Hu Hact Hg Hne Hf Hio Htoday Hu1.
  rewrite (checkOneChat_sections env w w2 chatId forceCheck u gs td tomorrow)
    by done.
  pose proof (checkTomorrow_spec env w2 chatId gs tomorrow u1 Hu1) as Htom.
  cbv zeta in Htom.
  destruct Htom as (u2 & new2 & Hu2 & Hout2 & Hkeep2 & _ & _ & Hk2 & Hcase).
  assert ((checkTomorrow chatId gs tomorrow env w2).1 = Ok tt) as Hr2.
  { destruct tomorrow as [tm|].
    - destruct Hcase as (_ & _ & _ & Hok). by destruct (Hok Hio).
    - destruct Hcase as (_ & _ & _ & Hok). by destruct (Hok Hio). }
  rewrite try_catch_ok by exact Hr2.
  exists u2, new2. split_and!; [exact Hr2 | exact Hu2 | exact Hout2
                               | exact Hkeep2 | exact Hk2].
Qed.

End CheckPathFacts.

(** X17: when the upstream service fails, or answers without a schedule for
    today, the check records the error message and the time of the check
    and keeps both baselines, the notification times and tomorrow's status.
    A background check sends nothing; a forced check reports the error to
    the chat when the write and the send succeed. *)
Theorem upstream_failure_recorded (env : Env) (w : World) (chatId : jsstring)
  (forceCheck : bool) (u : UserState) (gs : list jsstring) (msg : jsstring) :
  users (state w) !! chatId = Some u ->
  watching u = true \/ forceCheck = true ->
  groups u = Some gs -> gs <> [] ->
  upstreamError (fetchAt env (fetches w)) = Some msg ->
  let shown := if nonempty msg then msg else MSG_UNKNOWN in
  (exists u',
     userAfter (checkOneChat chatId forceCheck) env w chatId = Some u' /\
     lastLoeError u' = Some shown /\
     lastLoeCheckedAt u' = Some (r_iso (clock env (ticks w))) /\
     keepsToday u u' /\ keepsTomorrow u u') /\
  (forceCheck = false -> sentBy (checkOneChat chatId forceCheck) env w = []) /\
  (forceCheck = true -> writeError env (writes w) = None ->
   sendError env (sends w) = None ->
   sentBy (checkOneChat chatId forceCheck) env w =
     [mkSent chatId MsgCheckError (MSG_ERROR_PREFIX ++ shown)]).
Proof.
  intros Hu Hact Hg Hne Herr shown.
  unfold userAfter, sentBy.
  rewrite (checkOneChat_upstream_error env w chatId forceCheck u gs msg)
    by done.
  assert (users (state (afterFetch w)) !! chatId = Some u) as Hu1 by exact Hu.
  destruct (checkCatch_effect env (afterFetch w) chatId forceCheck (Error msg)
              u Hu1)
    as (u' & Hu' & He & Hc & Hkt & Hkm & _ & Hsil & Hsend & _).
  split; [by exists u'|]. split.
  - intros Hf. rewrite (Hsil Hf).
    change (outbox (afterFetch w)) with (outbox w). apply drop_all.
  - intros Hf Hw Hs. rewrite (Hsend Hf Hw Hs).
    change (outbox (afterFetch w)) with (outbox w). apply drop_app_length.
Qed.

Lemma upstream_failure_recorded_witness :
  sentBy (checkOneChat Scenario.chat true)
    (Scenario.envOf (FetchFailed HTTP_502))
    (Scenario.worldOf Scenario.settledUser) =
  [mkSent Scenario.chat MsgCheckError
     (MSG_ERROR_PREFIX ++ HTTP_502)].
Proof.
  refine (proj2 (proj2
    (upstream_failure_recorded
       (Scenario.envOf (FetchFailed HTTP_502))
       (Scenario.worldOf Scenario.settledUser) Scenario.chat true
       Scenario.settledUser Scenario.subgroups
       HTTP_502 _ _ _ _ _)) _ _ _).
  - reflexivity.
  - by right.
  - reflexivity.
  - discriminate.
  - reflexivity.
  - reflexivity.
  - reflexivity.
  - reflexivity.
Defined.

(** X18: a check of a subscriber without subgroups does not ask the
    upstream service: it records the request to set subgroups as the last
    error and keeps everything else; a background check sends nothing, a
    forced check sends that request to the chat when the write and the send
    succeed. *)
Theorem check_without_groups (env : Env) (w : World) (chatId : jsstring)
  (forceCheck : bool) (u : UserState) :
  users (state w) !! chatId = Some u ->
  watching u = true \/ forceCheck = true ->
  groups u = None \/ groups u = Some [] ->
  fetches (checkOneChat chatId forceCheck env w).2 = fetches w /\
  (exists u',
     userAfter (checkOneChat chatId forceCheck) env w chatId = Some u' /\
     lastLoeError u' = Some MSG_NO_GROUPS /\
     keepsToday u u' /\ keepsTomorrow u u') /\
  (forceCheck = false -> sentBy (checkOneChat chatId forceCheck) env w = []) /\
  (forceCheck = true -> writeError env (writes w) = None ->
   sendError env (sends w) = None ->
   sentBy (checkOneChat chatId forceCheck) env w =
     [mkSent chatId MsgNoGroups MSG_NO_GROUPS]).
Proof.
  intros Hu Hact Hg.
  destruct (checkOneChat_no_groups env w chatId forceCheck u Hu Hact Hg)
    as (u' & Hu' & He & _ & Hkt & Hkm & Hf & Hsil & Hsend & _).
  unfold userAfter, sentBy.
  split; [exact Hf|]. split; [by exists u'|]. split.
  - intros Hfc. rewrite (Hsil Hfc). apply drop_all.
  - intros Hfc Hw Hs. rewrite (Hsend Hfc Hw Hs). apply drop_app_length.
Qed.

Lemma check_without_groups_witness :
  sentBy (checkOneChat Scenario.chat true)
    (Scenario.envOf (Fetched None None))
    (Scenario.worldOf newUser) =
  [mkSent Scenario.chat MsgNoGroups MSG_NO_GROUPS].
Proof.
  refine (proj2 (proj2 (proj2
    (check_without_groups (Scenario.envOf (Fetched None None))
       (Scenario.worldOf newUser) Scenario.chat true newUser _ _ _))) _ _ _).
  - reflexivity.
  - by right.
  - by left.
  - reflexivity.
  - reflexivity.
  - reflexivity.
Defined.

Section ForcedCheckFacts.

(** A forced check that receives today's schedule, with working services. *)
Lemma checkOneChat_forced (env : Env) (w : World) (chatId : jsstring)
  (u : UserState) (gs : list jsstring) (td : MenuItem)
  (tomorrow : option MenuItem) :
  users (state w) !! chatId = Some u ->
  groups u = Some gs -> gs <> [] ->
  fetchAt env (fetches w) = Fetched (Some td) tomorrow ->
  ioSucceeds env ->
  let first := negb (truthyStr (prevGroupsOnly (lastLoeWatchedText u))) in
  (exists rest,
     sentBy (checkOneChat chatId true) env w =
       mkSent chatId (if first then MsgTodayFirstForced else MsgTodayForced)
         (messageBody HEAD_CHECKED (todayWatchedText gs td)
            (if first then IMG_FIRST else IMG_TODAY) (imageUrl td)) :: rest /\
     Forall (fun m => isTomorrowKind (kind m)) rest) /\
  exists u',
    userAfter (checkOneChat chatId true) env w chatId = Some u' /\
    lastLoeWatchedText u' = Some (todayWatchedText gs td) /\
    exists n, lastLoeNotifiedAt u' = Some (r_iso (clock env n)).
Proof.
  intros Hu Hg Hne Hf Hio first.
  assert (users (state (afterFetch w)) !! chatId = Some u) as Hu0 by exact Hu.
  pose proof (checkToday_forced env (afterFetch w) chatId gs td u Hu0 Hio)
    as Htoday.
  cbv zeta in Htoday. fold first in Htoday.
  destruct (checkToday chatId gs true td env (afterFetch w)) as [r1 w2]
    eqn:Erun.
  cbn [fst snd] in Htoday.
  destruct Htoday as (u1 & Hu1 & -> & Hout1 & Hb1 & Hn1 & _ & _).
  change (outbox (afterFetch w)) with (outbox w) in Hout1.
  destruct (checkOneChat_after_today env w w2 chatId true u u1 gs td tomorrow
              Hu (or_intror eq_refl) Hg Hne Hf Hio Erun Hu1)
    as (u2 & rest & _ & Hu2 & Hout2 & Hkeep & Hk).
  destruct Hkeep as (_ & _ & Hb2 & Hn2).
  unfold sentBy, userAfter. rewrite Hout2, Hout1, <- app_assoc, drop_app_length.
  split; [by exists rest|].
  exists u2. split; [exact Hu2|]. split; [congruence|].
  destruct Hn1 as [n Hn1]. exists n. congruence.
Qed.

End ForcedCheckFacts.

(** X19: a forced check that receives today's schedule, with working
    services, always reports it: the first message it sends is the report
    with the heading of a checked update and the rendered text, every
    other message comes from the tomorrow section, and the rendered text is
    the new baseline.  The report is the one of a first check when no
    subgroup line was stored. *)
Theorem forced_check_reports (env : Env) (w : World) (chatId : jsstring)
  (u : UserState) (gs : list jsstring) (td : MenuItem)
  (tomorrow : option MenuItem) :
  users (state w) !! chatId = Some u ->
  groups u = Some gs -> gs <> [] ->
  fetchAt env (fetches w) = Fetched (Some td) tomorrow ->
  ioSucceeds env ->
  let first := negb (truthyStr (prevGroupsOnly (lastLoeWatchedText u))) in
  (exists rest,
     sentBy (checkOneChat chatId true) env w =
       mkSent chatId (if first then MsgTodayFirstForced else MsgTodayForced)
         (messageBody HEAD_CHECKED (todayWatchedText gs td)
            (if first then IMG_FIRST else IMG_TODAY) (imageUrl td)) :: rest /\
     Forall (fun m => isTomorrowKind (kind m)) rest) /\
  exists u',
    userAfter (checkOneChat chatId true) env w chatId = Some u' /\
    lastLoeWatchedText u' = Some (todayWatchedText gs td) /\
    exists n, lastLoeNotifiedAt u' = Some (r_iso (clock env n)).
Proof. apply checkOneChat_forced. Qed.

Lemma forced_check_reports_witness :
  exists rest,
    sentBy (checkOneChat Scenario.chat true)
      (Scenario.envOf (Fetched (Some Scenario.todayItem) None))
      (Scenario.worldOf Scenario.freshUser) =
    mkSent Scenario.chat MsgTodayFirstForced
      (messageBody HEAD_CHECKED
         (todayWatchedText Scenario.subgroups Scenario.todayItem)
         IMG_FIRST (imageUrl Scenario.todayItem)) :: rest /\
    Forall (fun m => isTomorrowKind (kind m)) rest.
Proof.
  refine (proj1
    (forced_check_reports
       (Scenario.envOf (Fetched (Some Scenario.todayItem) None))
       (Scenario.worldOf Scenario.freshUser) Scenario.chat
       Scenario.freshUser Scenario.subgroups Scenario.todayItem None
       _ _ _ _ _)).
  - reflexivity.
  - reflexivity.
  - discriminate.
  - reflexivity.
  - split; intros n; reflexivity.
Defined.

(** X20: a background check that finds stored subgroup lines different
    from the rendered ones, with working services, sends one today
    notification, and sends it first: "today's schedule" when the day of
    the month of the last notification differs from today's, "today's
    schedule changed" otherwise; the rendered text becomes the baseline and
    every other message comes from the tomorrow section. *)
Theorem today_change_notified (env : Env) (w : World) (chatId : jsstring)
  (u : UserState) (gs : list jsstring) (td : MenuItem)
  (tomorrow : option MenuItem) :
  users (state w) !! chatId = Some u ->
  watching u = true ->
  groups u = Some gs -> gs <> [] ->
  fetchAt env (fetches w) = Fetched (Some td) tomorrow ->
  ioSucceeds env ->
  truthyStr (prevGroupsOnly (lastLoeWatchedText u)) = true ->
  text_ne (prevGroupsOnly (lastLoeWatchedText u))
          (watchedGroupsText NOT_FOUND_TODAY gs td) = true ->
  (exists first rest,
     sentBy (checkOneChat chatId false) env w = first :: rest /\
     to first = chatId /\
     kind first = (if isNotifiedYesterday env w u then MsgTodayRollover
                   else MsgTodayChanged) /\
     Forall (fun m => isTomorrowKind (kind m)) rest) /\
  exists u',
    userAfter (checkOneChat chatId false) env w chatId = Some u' /\
    lastLoeWatchedText u' = Some (todayWatchedText gs td).
Proof.
  intros Hu Hw Hg Hne Hf Hio Hprev Hdiff.
  assert (users (state (afterFetch w)) !! chatId = Some u) as Hu0 by exact Hu.
  pose proof (checkToday_background env (afterFetch w) chatId gs td u Hu0
                Hprev Hio) as Htoday.
  cbv zeta in Htoday. rewrite Hdiff in Htoday. cbn [orb] in Htoday.
  change (isNotifiedYesterday env (afterFetch w) u) with
    (isNotifiedYesterday env w u) in Htoday.
  destruct (checkToday chatId gs false td env (afterFetch w)) as [r1 w2]
    eqn:Erun.
  cbn [fst snd] in Htoday.
  destruct Htoday as (u1 & new1 & Hu1 & Hout1 & -> & _ & Hkinds & _ & Hrenew).
  change (outbox (afterFetch w)) with (outbox w) in Hout1.
  destruct (Hrenew eq_refl) as [Hb1 _].
  destruct (checkOneChat_after_today env w w2 chatId false u u1 gs td tomorrow
              Hu (or_introl Hw) Hg Hne Hf Hio Erun Hu1)
    as (u2 & rest & _ & Hu2 & Hout2 & Hkeep & Hk).
  destruct Hkeep as (_ & _ & Hb2 & _).
  pose proof (check_touches := confined_checkToday chatId gs false td env
                                 (afterFetch w)).
  rewrite Erun in check_touches. cbn [snd] in check_touches.
  destruct check_touches as (_ & _ & new1' & Hout1' & Hto).
  change (outbox (afterFetch w)) with (outbox w) in Hout1'.
  assert (new1' = new1) as -> by (rewrite Hout1 in Hout1'; by simplify_list_eq).
  unfold sentBy, userAfter. rewrite Hout2, Hout1, <- app_assoc, drop_app_length.
  split; [|exists u2; split; [exact Hu2 | congruence]].
  destruct new1 as [|m [|m' l]].
  - by destruct (isNotifiedYesterday env w u).
  - exists m, rest. split; [done|]. apply Forall_cons in Hto as [Hto _].
    split; [done|]. split; [|done].
    destruct (isNotifiedYesterday env w u); by injection Hkinds.
  - by destruct (isNotifiedYesterday env w u).
Qed.

Lemma today_change_notified_witness :
  exists first rest,
    sentBy (checkOneChat Scenario.chat false)
      (Scenario.envOf (Fetched (Some Scenario.todayItem) None))
      (Scenario.worldOf
         (set_lastLoeWatchedText
            (Some (todayWatchedText Scenario.subgroups Scenario.tomorrowItem))
            Scenario.settledUser)) = first :: rest /\
    to first = Scenario.chat /\
    kind first = MsgTodayChanged /\
    Forall (fun m => isTomorrowKind (kind m)) rest.
Proof.
  refine (proj1
    (today_change_notified
       (Scenario.envOf (Fetched (Some Scenario.todayItem) None))
       (Scenario.worldOf
          (set_lastLoeWatchedText
             (Some (todayWatchedText Scenario.subgroups Scenario.tomorrowItem))
             Scenario.settledUser))
       Scenario.chat
       (set_lastLoeWatchedText
          (Some (todayWatchedText Scenario.subgroups Scenario.tomorrowItem))
          Scenario.settledUser)
       Scenario.subgroups Scenario.todayItem None _ _ _ _ _ _ _ _)).
  - reflexivity.
  - reflexivity.
  - reflexivity.
  - discriminate.
  - reflexivity.
  - split; intros n; reflexivity.
  - vm_compute. reflexivity.
  - vm_compute. reflexivity.
Defined.

Section CommandFacts.

(** After a message with a valid subgroup has been applied, the record of
    the chat has no today baseline. *)
Lemma applyGroupsInput_record (a : GroupsAction) (chatId raw : jsstring)
  (env : Env) (w : World) :
  chatId ≠ PROTO ->
  parseGroupsFromUserInput raw <> [] ->
  exists u1,
    users (state (applyGroupsInput a chatId raw env w).2) !! chatId = Some u1 /\
    lastLoeWatchedText u1 = None /\
    groups u1 = Some (groupsOf chatId (applyGroupsInput a chatId raw env w).2).
Proof.
  intros Hne Hp.
  assert (exists u1,
    users (state (applyGroupsInput a chatId raw env w).2) !! chatId = Some u1 /\
    lastLoeWatchedText u1 = None /\ is_Some (groups u1)) as (u1 & Hu1 & Hb & [gs Hg]).
  { unfold applyGroupsInput.
    destruct (parseGroupsFromUserInput raw) as [|g gs]; [done|].
    destruct a.
    - eexists. split; [exact (user_after_setGroupsOp _ _ _ _ Hne)|].
      split; [reflexivity | by eexists].
    - eexists. split; [exact (user_after_addGroupsOp _ _ _ _ Hne)|].
      split; [reflexivity | by eexists].
    - eexists. split; [exact (user_after_removeGroupsOp _ _ _ _ Hne)|].
      split; [reflexivity | by eexists]. }
  exists u1. split; [done|]. split; [done|].
  by rewrite (groupsOf_user _ _ _ Hu1), Hg.
Qed.

(** [ensureUser] on a chat without a record, whose id names no inherited
    property. *)
Lemma ensureUser_new (chatId : jsstring) (env : Env) (w : World) :
  chatId ≠ PROTO ->
  users (state w) !! chatId = None ->
  (ensureUser chatId env w).1 = Ok tt /\
  users (state (ensureUser chatId env w).2) !! chatId = Some newUser /\
  outbox (ensureUser chatId env w).2 = outbox w /\
  ticks (ensureUser chatId env w).2 = ticks w /\
  writes (ensureUser chatId env w).2 = writes w /\
  sends (ensureUser chatId env w).2 = sends w.
Proof.
  intros Hne Hnone. unfold ensureUser. rewrite Hnone. cbn [fst snd].
  split; [done|]. split; [|done]. cbn.
  rewrite lookup_assignUser. by rewrite bool_decide_eq_false_2.
Qed.

End CommandFacts.

(** X21: after a message that changed the subgroups, the forced check that
    the handlers run next reports today's schedule for the new subgroups as
    a first check, whatever was stored before. *)
Theorem check_after_group_change
  (a : GroupsAction) (chatId raw : jsstring) (env1 env : Env) (w : World)
  (td : MenuItem) (tomorrow : option MenuItem) :
  chatId ∉ OBJECT_PROTOTYPE_KEYS ->
  parseGroupsFromUserInput raw <> [] ->
  let w1 := (applyGroupsInput a chatId raw env1 w).2 in
  groupsOf chatId w1 <> [] ->
  fetchAt env (fetches w1) = Fetched (Some td) tomorrow ->
  ioSucceeds env ->
  exists rest,
    sentBy (checkOneChat chatId true) env w1 =
      mkSent chatId MsgTodayFirstForced
        (messageBody HEAD_CHECKED (todayWatchedText (groupsOf chatId w1) td)
           IMG_FIRST (imageUrl td)) :: rest /\
    Forall (fun m => isTomorrowKind (kind m)) rest.
Proof.
  intros Hne%not_proto Hp w1 Hgs Hf Hio.
  destruct (applyGroupsInput_record a chatId raw env1 w Hne Hp)
    as (u1 & Hu1 & Hb & Hg).
  fold w1 in Hu1, Hg.
  destruct (checkOneChat_forced env w1 chatId u1 (groupsOf chatId w1) td
              tomorrow Hu1 Hg Hgs Hf Hio) as [Hsent _].
  rewrite Hb in Hsent. exact Hsent.
Qed.

Lemma check_after_group_change_witness :
  exists rest,
    sentBy (checkOneChat Scenario.chat true)
      (Scenario.envOf (Fetched (Some Scenario.todayItem) None))
      (applyGroupsInput AddGroups Scenario.chat (js "1.2")
         (Scenario.envOf (Fetched None None))
         (Scenario.worldOf Scenario.settledUser)).2 =
    mkSent Scenario.chat MsgTodayFirstForced
      (messageBody HEAD_CHECKED
         (todayWatchedText
            (groupsOf Scenario.chat
               (applyGroupsInput AddGroups Scenario.chat (js "1.2")
                  (Scenario.envOf (Fetched None None))
                  (Scenario.worldOf Scenario.settledUser)).2)
            Scenario.todayItem)
         IMG_FIRST (imageUrl Scenario.todayItem)) :: rest /\
    Forall (fun m => isTomorrowKind (kind m)) rest.
Proof.
  apply (check_after_group_change AddGroups Scenario.chat (js "1.2")
           (Scenario.envOf (Fetched None None))
           (Scenario.envOf (Fetched (Some Scenario.todayItem) None))
           (Scenario.worldOf Scenario.settledUser) Scenario.todayItem None).
  - apply (bool_decide_unpack _). vm_compute. exact I.
  - vm_compute. discriminate.
  - vm_compute. discriminate.
  - reflexivity.
  - split; intros n; reflexivity.
Defined.

(** X22: the check command for a chat that has no record creates the
    record, not watched and without subgroups, and answers with the request
    to set subgroups; the upstream service is not asked. *)
Theorem check_command_on_new_chat (chatId : jsstring) (env : Env) (w : World) :
  chatId ∉ OBJECT_PROTOTYPE_KEYS ->
  users (state w) !! chatId = None ->
  writeError env (writes w) = None ->
  sendError env (sends w) = None ->
  sentBy (checkCommandOp chatId) env w =
    [mkSent chatId MsgNoGroups MSG_NO_GROUPS] /\
  fetches (checkCommandOp chatId env w).2 = fetches w /\
  exists u',
    userAfter (checkCommandOp chatId) env w chatId = Some u' /\
    watching u' = false /\ groups u' = None /\
    lastLoeError u' = Some MSG_NO_GROUPS.
Proof.
  intros Hne%not_proto Hnone Hwr Hsd.
  destruct (ensureUser_new chatId env w Hne Hnone)
    as (Hok & Hu & Hout & Ht & Hw & Hs).
  unfold sentBy, userAfter, checkCommandOp, bind.
  destruct (ensureUser chatId env w) as [r1 w1] eqn:E. cbn [fst snd] in *.
  subst r1.
  assert (fetches w1 = fetches w) as Hfw.
  { unfold ensureUser in E. rewrite Hnone in E. by injection E as <-. }
  destruct (checkOneChat_no_groups env w1 chatId true newUser Hu
              (or_intror eq_refl) (or_introl eq_refl))
    as (u' & Hu' & He & _ & Hkt & _ & Hf & _ & Hsend & _).
  rewrite Hw, Hs in Hsend. rewrite (Hsend eq_refl Hwr Hsd), Hout.
  split; [apply drop_app_length|]. split; [congruence|].
  exists u'. destruct Hkt as (Hg & Hwt & _).
  split; [exact Hu'|]. split_and!; [by rewrite Hwt | by rewrite Hg | exact He].
Qed.

Lemma check_command_on_new_chat_witness :
  sentBy (checkCommandOp (js "8"))
    (Scenario.envOf (Fetched None None))
    (Scenario.worldOf Scenario.freshUser) =
  [mkSent (js "8") MsgNoGroups MSG_NO_GROUPS].
Proof.
  refine (proj1
    (check_command_on_new_chat (js "8") (Scenario.envOf (Fetched None None))
       (Scenario.worldOf Scenario.freshUser) _ _ _ _)).
  - apply (bool_decide_unpack _). vm_compute. exact I.
  - vm_compute. reflexivity.
  - reflexivity.
  - reflexivity.
Defined.

Section TomorrowNoDataFacts.

Ltac user_now Hu := rewrite ?lookup_alter_eq, Hu; reflexivity.

(** The tomorrow section when the schedule is published without a line for
    any tracked subgroup. *)
Lemma checkTomorrow_no_data (env : Env) (w : World) (chatId : jsstring)
  (gs : list jsstring) (tm : MenuItem) (u : UserState) :
  users (state w) !! chatId = Some u ->
  hasTomorrowData gs tm = false ->
  ioSucceeds env ->
  let r := checkTomorrow chatId gs (Some tm) env w in
  exists u',
    users (state r.2) !! chatId = Some u' /\
    r.1 = Ok tt /\
    outbox r.2 = outbox w /\
    lastLoeTomorrowStatus u' = Some present /\
    lastLoeTomorrowWatchedText u' = Some (tomorrowWatchedText gs tm) /\
    lastLoeTomorrowNotifiedAt u' = lastLoeTomorrowNotifiedAt u.
Proof.
  intros Hu Hdata [Hwr Hsd].
  unfold checkTomorrow, hasTomorrowData, tomorrowWatchedText, headerLinesOf in *.
  mrun. rewrite !lookup_alter_eq, Hu. usimpl.
  rewrite Hdata. cbn [negb]. mrun0. rewrite Hwr. mrun0.
  eexists. split; [user_now Hu|]. usimpl. done.
Qed.

Lemma checkOneChat_tomorrow_no_data (env : Env) (w : World) (chatId : jsstring)
  (forceCheck : bool) (u : UserState) (gs : list jsstring) (td tm : MenuItem) :
  users (state w) !! chatId = Some u ->
  watching u = true \/ forceCheck = true ->
  groups u = Some gs -> gs <> [] ->
  fetchAt env (fetches w) = Fetched (Some td) (Some tm) ->
  hasTomorrowData gs tm = false ->
  ioSucceeds env ->
  exists u' new,
    (checkOneChat chatId forceCheck env w).1 = Ok tt /\
    users (state (checkOneChat chatId forceCheck env w).2) !! chatId
      = Some u' /\
    outbox (checkOneChat chatId forceCheck env w).2 = outbox w ++ new /\
    Forall (fun m => isTodayKind (kind m)) new /\
    lastLoeTomorrowStatus u' = Some present /\
    lastLoeTomorrowWatchedText u' = Some (tomorrowWatchedText gs tm) /\
    lastLoeTomorrowNotifiedAt u' = lastLoeTomorrowNotifiedAt u.
Proof.
  intros Hu Hact Hg Hne Hf Hdata Hio.
  assert (users (state (afterFetch w)) !! chatId = Some u) as Hu0 by exact Hu.
  pose proof (checkToday_spec env (afterFetch w) chatId gs forceCheck td u Hu0)
    as Htoday.
  destruct (checkToday chatId gs forceCheck td env (afterFetch w))
    as [r1 w2] eqn:Erun1.
  cbn [fst snd] in Htoday.
  destruct Htoday as (u1 & new1 & Hu1 & Hout1 & Hkeep1 & Hk1 & _ & _ & _ & Hok1).
  change (outbox (afterFetch w)) with (outbox w) in Hout1.
  specialize (Hok1 Hio). subst r1.
  destruct Hkeep1 as (_ & _ & _ & _ & Hn1).
  destruct (checkTomorrow_no_data env w2 chatId gs tm u1 Hu1 Hdata Hio)
    as (u2 & Hu2 & Hr2 & Hout2 & Hst & Htxt & Hn2).
  rewrite (checkOneChat_sections env w w2 chatId forceCheck u gs td (Some tm))
    by done.
  rewrite try_catch_ok by exact Hr2.
  exists u2, new1.
  split_and!; [exact Hr2 | exact Hu2 | congruence | exact Hk1 | exact Hst
              | exact Htxt | congruence].
Qed.

End TomorrowNoDataFacts.

(** X23: when tomorrow's schedule is first seen without a line for any
    tracked subgroup, the check stores it as baseline with the status
    [present] and sends no tomorrow notification; and as the status is then
    [present], the "appeared" notification is not sent by this check nor by
    any later one while the schedule stays published, also not when lines
    for the tracked subgroups arrive. *)
Theorem tomorrow_without_data_never_appears
  (env : Env) (w : World) (chatId : jsstring) (forceCheck : bool)
  (u : UserState) (gs : list jsstring) (td tm : MenuItem) :
  users (state w) !! chatId = Some u ->
  watching u = true \/ forceCheck = true ->
  groups u = Some gs -> gs <> [] ->
  fetchAt env (fetches w) = Fetched (Some td) (Some tm) ->
  hasTomorrowData gs tm = false ->
  ioSucceeds env ->
  Forall (fun m => isTodayKind (kind m))
         (sentBy (checkOneChat chatId forceCheck) env w) /\
  (exists u',
     userAfter (checkOneChat chatId forceCheck) env w chatId = Some u' /\
     lastLoeTomorrowStatus u' = Some present /\
     lastLoeTomorrowWatchedText u' = Some (tomorrowWatchedText gs tm) /\
     lastLoeTomorrowNotifiedAt u' = lastLoeTomorrowNotifiedAt u) /\
  (tomorrowStays env ->
   forall fs,
     countKind MsgTomorrowAppeared
       (sentBy (checksSeq (forceCheck :: fs) chatId) env w) = 0%nat).
Proof.
  intros Hu Hact Hg Hne Hf Hdata Hio.
  destruct (checkOneChat_tomorrow_no_data env w chatId forceCheck u gs td tm
              Hu Hact Hg Hne Hf Hdata Hio)
    as (u' & new & Hok & Hu' & Hout & Hk & Hst & Htxt & Hn).
  split; [by rewrite (sentBy_app _ _ _ new Hout)|].
  split; [by exists u'|].
  intros Hstay fs. unfold sentBy. cbn [checksSeq]. unfold bind.
  pose proof (attempt_world (checkOneChat chatId forceCheck) env w) as Hw.
  destruct (attempt (checkOneChat chatId forceCheck) env w) as [r1 w1]
    eqn:Erun.
  cbn [snd] in Hw. subst w1.
  assert (r1 = Ok tt) as ->.
  { unfold attempt, try_catch, ret in Erun.
    destruct (checkOneChat chatId forceCheck env w) as [[[]|e] w'];
      by inversion Erun. }
  destruct (checksSeq_keeps_present fs env _ chatId u' Hu' Hst Hstay)
    as (new2 & Hout2 & Hk2).
  rewrite Hout2, Hout, <- app_assoc, drop_app_length, countKind_app.
  rewrite (countKind_none _ new) by (by apply today_not_appeared).
  by rewrite (countKind_none _ new2).
Qed.

Lemma tomorrow_without_data_never_appears_witness :
  countKind MsgTomorrowAppeared
    (sentBy (checksSeq [false; false] Scenario.chat)
       (Scenario.envOf
          (Fetched (Some Scenario.todayItem) (Some Scenario.todayItem)))
       (Scenario.worldOf
          (set_groups (Some [js "6.2"]) Scenario.freshUser))) = 0%nat.
Proof.
  refine (proj2 (proj2
    (tomorrow_without_data_never_appears
       (Scenario.envOf
          (Fetched (Some Scenario.todayItem) (Some Scenario.todayItem)))
       (Scenario.worldOf (set_groups (Some [js "6.2"]) Scenario.freshUser))
       Scenario.chat false
       (set_groups (Some [js "6.2"]) Scenario.freshUser)
       [js "6.2"] Scenario.todayItem Scenario.todayItem
       _ _ _ _ _ _ _)) _ [false]).
  - reflexivity.
  - by left.
  - reflexivity.
  - discriminate.
  - reflexivity.
  - vm_compute. reflexivity.
  - split; intros n; reflexivity.
  - intros n td. discriminate.
Defined.

(** ** The promises of the serialization queue *)

Module StateQueueOutcomes.
Import StateQueue StateQueueFacts.

Local Open Scope nat_scope.

Ltac qsimpl :=
  cbn [heap fresh jobs running started submitted stateOp settled reactions
       fst snd] in *.

Lemma step_chainNeverRejected m m' ph :
  step m m' -> Shape ph m -> chainNeverRejected m -> chainNeverRejected m'.
Proof.
  intros Hstep Hshape Hinv j p Hp.
  destruct Hstep as [fn m Hnew | r rest m Hjob | fn q o m Hin].
  - destruct (runStateOp_settled _ _ _ _ Hp) as [Hnone|Hold].
    + by rewrite Hnone.
    + by apply (Hinv j).
  - destruct r as [fn result|result]; unfold runJob in Hp.
    + by apply (Hinv j).
    + destruct (settle_lookup _ _ _ _ _ Hp) as [[_ Hs]|Hold].
      * by rewrite Hs.
      * by apply (Hinv j).
  - destruct (running_phase _ _ _ _ Hshape Hin) as (k & _ & _ & ->).
    unfold finish in Hp.
    destruct (settle_lookup _ _ _ _ _ Hp) as [[Heq _]|Hold]; [lia|].
    by apply (Hinv j).
Qed.

Lemma reachable_chain m :
  reachable m -> exists ph, Shape ph m /\ chainNeverRejected m.
Proof.
  unfold reachable. revert m.
  apply (rtc_ind_r (fun m => exists ph, Shape ph m /\ chainNeverRejected m)
                   initial).
  - exists Idle. split; [apply Shape_initial|].
    intros j p Hp. unfold initial in Hp. qsimpl.
    destruct (decide (2 * j = 0)) as [E|E].
    + rewrite E, lookup_singleton_eq in Hp. by inversion Hp.
    + by rewrite lookup_singleton_ne in Hp.
  - intros m0 m _ Hstep (ph & Hph & Hinv).
    destruct (step_Shape m0 m ph Hstep Hph) as [ph' Hph'].
    exists ph'. split; [exact Hph'|].
    by apply (step_chainNeverRejected m0 m ph).
Qed.

(** From the submission of the second unit to its call. *)
Lemma secondUnitCalled_steps :
  rtc step (runStateOp 11 (runStateOp 10 initial).2).2 secondUnitCalled.
Proof.
  set (m3 := finish 10 1 Rejected twoUnits).
  set (m4 := runJob (ReturnUndefined 2) [] m3).
  assert (secondUnitCalled = runJob (CallUnit 11 3) [] m4) as ->
    by (vm_compute; reflexivity).
  apply (rtc_l _ _ twoUnits).
  { apply (step_job (CallUnit 10 1) []
             (runStateOp 11 (runStateOp 10 initial).2).2).
    vm_compute. reflexivity. }
  apply (rtc_l _ _ m3).
  { apply step_finish, (bool_decide_unpack _). vm_compute. exact I. }
  apply (rtc_l _ _ m4).
  { apply (step_job (ReturnUndefined 2) [] m3). vm_compute. reflexivity. }
  apply rtc_once.
  apply (step_job (CallUnit 11 3) [] m4). vm_compute. reflexivity.
Qed.

End StateQueueOutcomes.

(** X24: the promise in the variable [stateOp] is never rejected.  In every
    state the run time can reach, [stateOp] holds a promise that is pending
    or fulfilled, also after units have rejected: the failure of a unit
    does not reach the chain the later units are queued on. *)
Theorem stateOp_never_rejected (m : StateQueue.Machine) :
  StateQueue.reachable m ->
  exists p,
    StateQueue.heap m !! StateQueue.stateOp m = Some p /\
    StateQueue.settled p <> Some StateQueue.Rejected.
Proof.
  intros Hreach.
  destruct (StateQueueOutcomes.reachable_chain m Hreach) as (ph & Hshape & Hinv).
  destruct Hshape as (_ & Hop & _ & Heven & _).
  destruct (Heven (length (StateQueue.submitted m)) (le_n _)) as (p & Hp & _).
  exists p. rewrite Hop. split; [exact Hp|].
  by apply (Hinv (length (StateQueue.submitted m))).
Qed.

Lemma stateOp_never_rejected_witness :
  StateQueue.reachable secondUnitCalled /\
  exists p,
    StateQueue.heap secondUnitCalled !! StateQueue.stateOp secondUnitCalled
      = Some p /\
    StateQueue.settled p <> Some StateQueue.Rejected.
Proof.
  assert (StateQueue.reachable secondUnitCalled) as Hreach.
  { unfold StateQueue.reachable.
    etrans; [|exact StateQueueOutcomes.secondUnitCalled_steps].
    apply (rtc_l _ _ (StateQueue.runStateOp 10 StateQueue.initial).2).
    { apply StateQueue.step_submit, (bool_decide_unpack _).
      vm_compute. exact I. }
    apply rtc_once.
    apply StateQueue.step_submit, (bool_decide_unpack _).
    vm_compute. exact I. }
  split; [exact Hreach|].
  exact (stateOp_never_rejected secondUnitCalled Hreach).
Defined.

(** X25: the caller of [runStateOp] gets the outcome of its own unit.  The
    promise that [runStateOp] returned for a unit is the one that unit
    settles: while the unit is running the promise is pending, and when the
    unit finishes, the promise is fulfilled or rejected as the unit was,
    whatever was submitted, run or finished in between. *)
Theorem caller_gets_unit_outcome
  (m m' : StateQueue.Machine) (fn q : nat) (o : StateQueue.Outcome) :
  StateQueue.reachable m ->
  fn ∉ StateQueue.submitted m ->
  rtc StateQueue.step (StateQueue.runStateOp fn m).2 m' ->
  (fn, q) ∈ StateQueue.running m' ->
  q = (StateQueue.runStateOp fn m).1 /\
  (exists rs,
     StateQueue.heap m' !! q = Some (StateQueue.mkPromise None rs)) /\
  StateQueue.heap (StateQueue.finish fn q o m') !! q
    = Some (StateQueue.mkPromise (Some o) []).
Proof.
  intros Hreach Hnew Hsteps Hin.
  destruct (StateQueueFacts.reachable_Shape m Hreach) as [ph Hshape].
  assert (StateQueue.reachable m') as Hreach'.
  { unfold StateQueue.reachable. etrans; [exact Hreach|].
    eapply rtc_l; [by apply StateQueue.step_submit | exact Hsteps]. }
  destruct (StateQueueFacts.reachable_Shape m' Hreach') as [ph' Hshape'].
  destruct (StateQueueFacts.running_phase _ _ _ _ Hshape' Hin)
    as (k & -> & Hk & ->).
  pose proof (StateQueueFacts.steps_submitted _ _ Hsteps) as Hpre.
  rewrite StateQueueFacts.runStateOp_submitted in Hpre.
  assert (StateQueue.submitted m' !! length (StateQueue.submitted m)
          = Some fn) as Hn.
  { eapply prefix_lookup_Some; [|exact Hpre]. by apply list_lookup_middle. }
  destruct Hshape' as (_ & _ & Hnd & _ & Hodd & _).
  assert (k = length (StateQueue.submitted m)) as Hkn
    by exact (NoDup_lookup _ _ _ _ Hnd Hk Hn).
  destruct (Hodd k) as (p & Hp & Hchain).
  { by apply lookup_lt_Some in Hk. }
  unfold StateQueue.chainPromise, StateQueue.frontier in Hchain.
  rewrite decide_False in Hchain by lia.
  destruct Hchain as [Hpend Hrs]. destruct p as [st rs].
  cbn [StateQueue.settled StateQueue.reactions] in Hpend, Hrs. subst st.
  split_and!.
  - rewrite StateQueueFacts.runStateOp_fst.
    destruct Hshape as (-> & _). lia.
  - by exists rs.
  - unfold StateQueue.finish, StateQueue.settle.
    cbn [StateQueue.heap]. rewrite Hp. cbn [StateQueue.heap].
    by rewrite lookup_insert_eq.
Qed.

Lemma caller_gets_unit_outcome_witness :
  StateQueue.heap
    (StateQueue.finish 11 3 StateQueue.Fulfilled secondUnitCalled) !! 3%nat
    = Some (StateQueue.mkPromise (Some StateQueue.Fulfilled) []).
Proof.
  refine (proj2 (proj2
    (caller_gets_unit_outcome
       (StateQueue.runStateOp 10 StateQueue.initial).2 secondUnitCalled
       11%nat 3%nat StateQueue.Fulfilled _ _
       StateQueueOutcomes.secondUnitCalled_steps _))).
  - apply rtc_once.
    apply StateQueue.step_submit, (bool_decide_unpack _). vm_compute. exact I.
  - apply (bool_decide_unpack _). vm_compute. exact I.
  - apply (bool_decide_unpack _). vm_compute. exact I.
Defined.

(** ** The handlers and the invariant of the subgroups *)

Section HandlerFacts.

Lemma applyGroupsInput_keeps_inv (a : GroupsAction) (chatId raw : jsstring)
  (env : Env) (w : World) :
  chatId ≠ PROTO ->
  GroupsInv (groupsOf chatId w) ->
  GroupsInv (groupsOf chatId (applyGroupsInput a chatId raw env w).2).
Proof.
  intros Hne Hinv. rewrite groupsOf_applyGroupsInput by done.
  pose proof (parseGroups_inv raw) as Hp.
  destruct (parseGroupsFromUserInput raw) as [|g gs]; [done|].
  destruct a; [done | by apply GroupsInv_add | by apply GroupsInv_remove].
Qed.

Lemma groupsOf_askStepOp (step : PendingStep) (chatId : jsstring)
  (env : Env) (w : World) :
  chatId ≠ PROTO ->
  groupsOf chatId (askStepOp chatId step env w).2 = groupsOf chatId w.
Proof.
  intros Hne.
  destruct (askStepOp_asks step chatId env w Hne) as [Hu _].
  by rewrite (groupsOf_user _ _ _ Hu), groupsOf_lookup.
Qed.

End HandlerFacts.

(** X26: the handlers keep the invariant of the subgroups.  Whatever the
    text of the message, and whatever step is pending, the [text] handler
    and the add and remove commands leave a chat whose subgroups are valid
    and distinct with subgroups that are valid and distinct; and a command
    with no text after its name leaves the subgroups as they are. *)
Theorem handlers_keep_groups_invariant
  (pending : option PendingStep) (chatId text : jsstring)
  (env : Env) (w : World) :
  chatId ∉ OBJECT_PROTOTYPE_KEYS ->
  GroupsInv (groupsOf chatId w) ->
  GroupsInv (groupsOf chatId (textHandlerOp pending chatId text env w).2) /\
  GroupsInv (groupsOf chatId (addGroupCommand chatId text env w).2) /\
  GroupsInv (groupsOf chatId (removeGroupCommand chatId text env w).2) /\
  (trim (stripCommand ADD_GROUP GROUPS_ADD text) = [] ->
   groupsOf chatId (addGroupCommand chatId text env w).2 = groupsOf chatId w) /\
  (trim (stripCommand REMOVE_GROUP GROUPS_REMOVE text) = [] ->
   groupsOf chatId (removeGroupCommand chatId text env w).2 =
     groupsOf chatId w).
Proof.
  intros Hne%not_proto Hinv. split_and!.
  - unfold textHandlerOp.
    destruct (nonempty (trim text)); cbn [negb]; [|done].
    destruct (startsWithSlash (trim text)); [done|].
    destruct pending as [p|]; [|done].
    by apply applyGroupsInput_keeps_inv.
  - unfold addGroupCommand.
    destruct (nonempty (trim (stripCommand ADD_GROUP GROUPS_ADD text))).
    + by apply applyGroupsInput_keeps_inv.
    + by rewrite groupsOf_askStepOp.
  - unfold removeGroupCommand.
    destruct (nonempty (trim (stripCommand REMOVE_GROUP GROUPS_REMOVE text))).
    + by apply applyGroupsInput_keeps_inv.
    + by rewrite groupsOf_askStepOp.
  - intros Htail. unfold addGroupCommand. rewrite Htail. cbn [nonempty].
    by apply groupsOf_askStepOp.
  - intros Htail. unfold removeGroupCommand. rewrite Htail. cbn [nonempty].
    by apply groupsOf_askStepOp.
Qed.

Lemma handlers_keep_groups_invariant_witness :
  groupsOf Scenario.chat
    (addGroupCommand Scenario.chat (js "/add_group")
       (Scenario.envOf (Fetched None None))
       (Scenario.worldOf Scenario.settledUser)).2 =
  groupsOf Scenario.chat (Scenario.worldOf Scenario.settledUser).
Proof.
  refine (proj1 (proj2 (proj2 (proj2
    (handlers_keep_groups_invariant None Scenario.chat (js "/add_group")
       (Scenario.envOf (Fetched None None))
       (Scenario.worldOf Scenario.settledUser) _ _)))) _).
  - apply (bool_decide_unpack _). vm_compute. exact I.
  - vm_compute. split; [apply NoDup_singleton | repeat constructor].
  - vm_compute. reflexivity.
Defined.
